(** * Trade execution and position lifecycle engine of the trb trading bot

    A shallow embedding of [src/services/bybit-client.ts] (class
    [BybitClient]), [src/services/position-manager.ts] (class
    [PositionManager]) and the validation of
    [src/services/signal-parser.ts] (class [SignalParser]), followed by
    the properties established about them.

    Conventions of the embedding:
    - where the code computes with numbers, in the sizing of a position,
      a JavaScript [number] is an IEEE 754 binary64 number (module
      [Binary64]);
    - where the code compares numbers, takes their floor and passes them
      on, a [number] is an exact rational extended with the two
      infinities and NaN (module [JsNumber]): the floats are among them,
      and the sign of zero is left out; module [Sizing] has the steps of
      the sizing on these numbers, without the rounding of binary64, for
      the result the trade execution passes on;
    - an [async] method of the client that talks to the exchange is a
      function in the monad [Client.M]: it threads the history of what was
      sent to the exchange and either returns a value or throws;
    - the exchange is an arbitrary function from the history and the
      request to what [fetch] delivers;
    - the request queue of the client is modelled apart, as a transition
      system over the event loop (module [Dispatcher]);
    - poll updates of the position manager that overlap are modelled as
      a transition system over the requests that wait in the queue
      (module [Overlap]);
    - what the code writes to the log is left out. *)

From stdpp Require Import gmap strings list.
From Stdlib Require Import ZArith QArith Qround Qabs Qminmax DecimalString Lia Lqa.
From Stdlib Require Import PrimFloat FloatOps SpecFloat Uint63 FloatAxioms.

Close Scope Q_scope.

Set Default Proof Using "Type".

(** ** JavaScript numbers *)

Module JsNumber.

Local Open Scope Q_scope.

Inductive number : Type :=
| Fin (q : Q)
| PosInf
| NegInf
| NaN.

Definition isNaN (x : number) : bool :=
  match x with NaN => true | _ => false end.

Definition isFinite (x : number) : bool :=
  match x with Fin _ => true | _ => false end.

Definition ofZ (z : Z) : number := Fin (inject_Z z).

(** The infinity whose sign is that of the comparison of a finite operand
    with zero; [Eq] is the indeterminate case. *)
Definition signedInf (c : comparison) : number :=
  match c with Gt => PosInf | Lt => NegInf | Eq => NaN end.

Definition neg (x : number) : number :=
  match x with
  | Fin q => Fin (- q)
  | PosInf => NegInf
  | NegInf => PosInf
  | NaN => NaN
  end.

Definition add (x y : number) : number :=
  match x, y with
  | NaN, _ | _, NaN => NaN
  | Fin a, Fin b => Fin (a + b)
  | PosInf, NegInf | NegInf, PosInf => NaN
  | PosInf, _ | _, PosInf => PosInf
  | NegInf, _ | _, NegInf => NegInf
  end.

Definition sub (x y : number) : number := add x (neg y).

Definition mul (x y : number) : number :=
  match x, y with
  | NaN, _ | _, NaN => NaN
  | Fin a, Fin b => Fin (a * b)
  | Fin a, PosInf | PosInf, Fin a => signedInf (a ?= 0)
  | Fin a, NegInf | NegInf, Fin a => signedInf (0 ?= a)
  | PosInf, PosInf | NegInf, NegInf => PosInf
  | PosInf, NegInf | NegInf, PosInf => NegInf
  end.

(** Division by a finite zero gives an infinity of the sign of the
    dividend, and NaN for 0/0. *)
Definition div (x y : number) : number :=
  match x, y with
  | NaN, _ | _, NaN => NaN
  | Fin a, Fin b =>
      if Qeq_bool b 0 then signedInf (a ?= 0) else Fin (a / b)
  | Fin _, (PosInf | NegInf) => Fin 0
  | PosInf, Fin b => if Qle_bool 0 b then PosInf else NegInf
  | NegInf, Fin b => if Qle_bool 0 b then NegInf else PosInf
  | (PosInf | NegInf), (PosInf | NegInf) => NaN
  end.

(** Comparisons: every comparison with NaN is false. *)
Definition ltb (x y : number) : bool :=
  match x, y with
  | NaN, _ | _, NaN => false
  | Fin a, Fin b => negb (Qle_bool b a)
  | NegInf, (Fin _ | PosInf) => true
  | Fin _, PosInf => true
  | _, _ => false
  end.

Definition gtb (x y : number) : bool := ltb y x.

Definition leb (x y : number) : bool :=
  match x, y with
  | NaN, _ | _, NaN => false
  | Fin a, Fin b => Qle_bool a b
  | NegInf, _ | _, PosInf => true
  | _, _ => false
  end.

Definition geb (x y : number) : bool := leb y x.

(** [x === y] on numbers. *)
Definition eqb (x y : number) : bool :=
  match x, y with
  | Fin a, Fin b => Qeq_bool a b
  | PosInf, PosInf | NegInf, NegInf => true
  | _, _ => false
  end.

(** [Math.abs], [Math.min], [Math.max], [Math.floor]. *)
Definition abs (x : number) : number :=
  match x with
  | Fin q => Fin (Qabs q)
  | PosInf | NegInf => PosInf
  | NaN => NaN
  end.

Definition min (x y : number) : number :=
  match x, y with
  | NaN, _ | _, NaN => NaN
  | _, _ => if leb x y then x else y
  end.

Definition max (x y : number) : number :=
  match x, y with
  | NaN, _ | _, NaN => NaN
  | _, _ => if leb x y then y else x
  end.

Definition floor (x : number) : number :=
  match x with
  | Fin q => Fin (inject_Z (Qfloor q))
  | _ => x
  end.

(** [Number(x.toFixed(6))].  [toFixed] picks the integer [n] with
    [n / 10^6] closest to the magnitude of [x], the larger one on a tie,
    and puts the sign back; from 10^21 on it prints the number itself. *)
Definition fixedScale : Q := 1000000.

Definition roundHalfUp (q : Q) : Z := Qfloor (q * fixedScale + (1 # 2)).

Definition toFixed6Q (q : Q) : Q :=
  if Qle_bool (10 ^ 21) (Qabs q) then Qred q
  else if Qle_bool 0 q then Qred (inject_Z (roundHalfUp q) / fixedScale)
  else Qred (- (inject_Z (roundHalfUp (- q)) / fixedScale)).

Definition toFixed6 (x : number) : number :=
  match x with
  | Fin q => Fin (toFixed6Q q)
  | _ => x
  end.

(** The strict order on numbers that are not NaN. *)
Definition lt (x y : number) : Prop := ltb x y = true.

End JsNumber.

Abbreviation number := JsNumber.number.
Abbreviation Fin := JsNumber.Fin.
Abbreviation PosInf := JsNumber.PosInf.
Abbreviation NegInf := JsNumber.NegInf.
Abbreviation NaN := JsNumber.NaN.

Declare Scope js_scope.
Delimit Scope js_scope with js.
Infix "+" := JsNumber.add : js_scope.
Infix "-" := JsNumber.sub : js_scope.
Infix "*" := JsNumber.mul : js_scope.
Infix "/" := JsNumber.div : js_scope.
Infix "<?" := JsNumber.ltb : js_scope.
Infix ">?" := JsNumber.gtb : js_scope.
Infix "<=?" := JsNumber.leb : js_scope.
Infix ">=?" := JsNumber.geb : js_scope.
Infix "=?" := JsNumber.eqb : js_scope.

(** ** Data model ([src/types]) *)

Inductive Direction : Type := LONG | SHORT.

Global Instance Direction_eq_dec : EqDecision Direction.
Proof. solve_decision. Defined.

(** A level of the take-profit ladder.  Levels are the integers the signal
    parser numbers the ladder with. *)
Record TakeProfitLevel : Type := {
  level : Z;
  price : number
}.

(** [entryZone] is a price or the string ['market']. *)
Inductive EntryZone : Type :=
| Market
| Price (p : number).

Record ParsedSignal : Type := {
  pair : string;
  direction : Direction;
  entryZone : EntryZone;
  stopLoss : number;
  takeProfits : list TakeProfitLevel;
  confidence : number
}.

Inductive TradeStatus : Type :=
| PENDING | ACTIVE | COMPLETED | CANCELLED | ERROR.

Global Instance TradeStatus_eq_dec : EqDecision TradeStatus.
Proof. solve_decision. Defined.

Inductive OrderSide : Type := Buy | Sell.

Global Instance OrderSide_eq_dec : EqDecision OrderSide.
Proof. solve_decision. Defined.

Inductive OrderType : Type := MarketOrder | LimitOrder.

Record TradeOrder : Type := {
  order_symbol : string;
  order_side : OrderSide;
  order_type : OrderType;
  order_qty : number
}.

(** [resp_orderId] is [None] when the exchange answered without an order
    id ([undefined] in the source).  [createdTime], a rendering of the wall
    clock, is left out. *)
Record OrderResponse : Type := {
  resp_orderId : option string;
  resp_symbol : string;
  resp_side : OrderSide;
  resp_orderType : OrderType;
  resp_qty : number;
  resp_status : string
}.

Record PositionInfo : Type := {
  info_symbol : string;
  info_side : string;
  info_size : number;
  info_entryPrice : number;
  info_markPrice : number;
  info_unrealisedPnl : number;
  info_leverage : number;
  info_positionStatus : string
}.

(** A level of a tracked position carries its [filled] flag. *)
Record TrackedLevel : Type := {
  tp_level : Z;
  tp_price : number;
  tp_filled : bool
}.

(** The record the position manager keeps.  The two [Date] fields
    [createdAt] and [updatedAt] are left out: they are only read by the
    age-based cleanup, which is modelled with them beside the record
    (module [Cleanup]). *)
Record Position : Type := {
  pos_id : string;
  pos_symbol : string;
  pos_side : Direction;
  pos_size : number;
  pos_entryPrice : number;
  pos_currentPrice : number;
  pos_stopLoss : number;
  pos_takeProfits : list TrackedLevel;
  pos_leverage : number;
  pos_pnl : number;
  pos_status : TradeStatus
}.

(** ** The result of the sizing, for the trade execution *)

(** The steps of [BybitClient.calculatePositionSize] on the numbers of
    [JsNumber], without the rounding of binary64: the size and the
    leverage [executeTrade] passes on to the requests it sends.  The
    arithmetic of the program is that of module [Binary64] below, and the
    properties of the sizing are established there. *)

Module Sizing.

Local Open Scope js_scope.

Record SizeResult : Type := {
  size : number;
  leverage : number
}.

Definition hundred : number := JsNumber.ofZ 100.
Definition maxLeverage : number := JsNumber.ofZ 20.
Definition one : number := JsNumber.ofZ 1.
Definition marginShare : number := Fin (8 # 10).

Section Steps.

Variables (signal : ParsedSignal)
          (portfolioValue portfolioPercentage currentPrice : number).

Definition riskAmount : number :=
  (portfolioValue * portfolioPercentage) / hundred.

Definition entryPrice : number :=
  match entryZone signal with
  | Market => currentPrice
  | Price p => p
  end.

Definition stopLossDistance : number :=
  JsNumber.abs (entryPrice - stopLoss signal).

Definition riskPerUnit : number := stopLossDistance.

Definition positionSizeInUnits : number := riskAmount / riskPerUnit.

Definition positionValueUSDT : number := positionSizeInUnits * entryPrice.

Definition requiredMargin : number := positionValueUSDT / maxLeverage.

Definition availableForMargin : number := portfolioValue * marginShare.

Definition actualMargin : number :=
  JsNumber.min requiredMargin availableForMargin.

Definition rawLeverage : number :=
  JsNumber.min maxLeverage (JsNumber.max one (positionValueUSDT / actualMargin)).

Definition finalPositionSize : number :=
  (actualMargin * rawLeverage) / entryPrice.

Definition calculatePositionSize : SizeResult :=
  {| size := JsNumber.toFixed6 finalPositionSize;
     leverage := JsNumber.floor rawLeverage |}.

End Steps.

End Sizing.

(** A signal the trade execution is evaluated on below. *)
Module SizingExamples.

(** The worked example of the documentation: portfolio 1000, risk 1%,
    entry 0.300, stop-loss 0.297. *)
Definition ladderLong : ParsedSignal :=
  {| pair := "XRP/USDT"; direction := LONG;
     entryZone := Price (Fin (300 # 1000));
     stopLoss := Fin (297 # 1000);
     takeProfits := [ {| level := 1; price := Fin (310 # 1000) |};
                      {| level := 2; price := Fin (320 # 1000) |} ];
     confidence := JsNumber.ofZ 90 |}.

End SizingExamples.

(** ** The sizing in binary64 arithmetic ([BybitClient.calculatePositionSize]) *)

(** The numbers JavaScript computes with are the IEEE 754 binary64
    numbers: the primitive floats of the prover, whose operations round to
    nearest, ties to even.  [Math.min], [Math.max], [Math.floor] and
    [toFixed] are written out on them. *)

Module Binary64.

Local Open Scope float_scope.

(* A decimal literal of binary64 stands for the float next to it. *)
Local Set Warnings "-inexact-float".

(** The rational a finite float is. *)
Definition exact (x : float) : Q :=
  match Prim2SF x with
  | S754_finite negative m e =>
      let magnitude :=
        match e with
        | Z0 => inject_Z (Zpos m)
        | Zpos p => inject_Z (Zpos m * 2 ^ Zpos p)
        | Zneg p => Qmake (Zpos m) (2 ^ p)
        end in
      if negative then Qopp magnitude else magnitude
  | _ => 0%Q
  end.

Definition isFinite (x : float) : bool :=
  negb (is_nan x) && negb (is_infinity x).

(** The float an integer below 2^63 in magnitude is rounded to. *)
Definition ofZ (z : Z) : float :=
  match z with
  | Z0 => 0
  | Zpos _ => PrimFloat.of_uint63 (Uint63.of_Z z)
  | Zneg _ => - PrimFloat.of_uint63 (Uint63.of_Z (- z))
  end.

(** [Math.min] and [Math.max]: NaN when an argument is NaN; of two zeros,
    [-0] is the smaller. *)
Definition min (x y : float) : float :=
  if is_nan x || is_nan y then nan
  else if x <? y then x
  else if y <? x then y
  else match classify x with FloatClass.NZero => x | _ => y end.

Definition max (x y : float) : float :=
  if is_nan x || is_nan y then nan
  else if x <? y then y
  else if y <? x then x
  else match classify x with FloatClass.NZero => y | _ => x end.

(** [Math.floor]: NaN, the infinities and the zeros are returned as they
    are, and from 2^52 on every float is an integer. *)
Definition floor (x : float) : float :=
  if negb (isFinite x) then x
  else if PrimFloat.is_zero x then x
  else if 0x1p52 <=? abs x then x
  else ofZ (Qfloor (exact x)).

(** [Number(x.toFixed(6))].  [toFixed] picks the integer [n] with
    [n / 10^6] closest to the magnitude of [x], the larger one on a tie,
    prints it with six decimals and puts the sign back, and [Number]
    reads the float next to the decimal printed.  From 2^33 on the floats
    are more than two units of the sixth decimal apart, and the decimal
    printed reads back as the float itself; below, [n] is an integer
    below 2^53, exact in binary64, and its division by 10^6 is the float
    next to the decimal printed. *)
Definition toFixed6 (x : float) : float :=
  if negb (isFinite x) then x
  else if 0x1p33 <=? abs x then x
  else
    let n := JsNumber.roundHalfUp (Qabs (exact x)) in
    let magnitude := ofZ n / 1000000 in
    if x <? 0 then - magnitude else magnitude.

(** The steps of [calculatePositionSize].  Of the signal it reads the
    entry zone, [None] for ['market'], and the stop-loss. *)
Section Steps.

Variables (entryZone : option float)
          (stopLoss portfolioValue portfolioPercentage currentPrice : float).

Definition riskAmount : float := (portfolioValue * portfolioPercentage) / 100.

Definition entryPrice : float :=
  match entryZone with
  | None => currentPrice
  | Some price => price
  end.

Definition stopLossDistance : float := abs (entryPrice - stopLoss).

Definition riskPerUnit : float := stopLossDistance.

Definition positionSizeInUnits : float := riskAmount / riskPerUnit.

Definition positionValueUSDT : float := positionSizeInUnits * entryPrice.

Definition maxLeverage : float := 20.

Definition requiredMargin : float := positionValueUSDT / maxLeverage.

Definition availableForMargin : float := portfolioValue * 0.8.

Definition actualMargin : float := min requiredMargin availableForMargin.

Definition leverage : float :=
  min maxLeverage (max 1 (positionValueUSDT / actualMargin)).

Definition finalPositionSize : float := (actualMargin * leverage) / entryPrice.

(** The size and the leverage returned. *)
Definition calculatePositionSize : float * float :=
  (toFixed6 finalPositionSize, floor leverage).

End Steps.

(** *** Notions the properties are stated with *)


(** NaN, or of the sign [+]. *)
Definition unsignedSF (s : spec_float) : Prop :=
  match s with
  | S754_nan | S754_zero false | S754_infinity false | S754_finite false _ _ => True
  | _ => False
  end.

Definition unsigned (x : float) : Prop := unsignedSF (Prim2SF x).


End Binary64.

(** ** The exchange client ([BybitClient]) *)

Module Client.

Local Open Scope string_scope.
Local Open Scope list_scope.
Local Open Scope stdpp_scope.

(** *** Errors *)

(** The errors the client throws, one constructor for each [throw] of
    [bybit-client.ts] and for what the runtime raises under it. *)
Inductive JsError : Type :=
| FetchFailed (msg : string)
| HttpError (status : Z) (statusText body : string)
| JsonSyntaxError
| ApiError (retCode : Z) (retMsg : string)
| ParseFailed (body : string)
| TypeError (what : string)
| FillNotVerified
| StopLossFailed (lastError : string)
| MarketPriceNotFound (symbol : string)
| InvalidMarketPrice (symbol : string).

Definition decimal (z : Z) : string := NilZero.string_of_int (Z.to_int z).

Definition message (e : JsError) : string :=
  match e with
  | FetchFailed msg => msg
  | HttpError status statusText body =>
      "Bybit API error: " +:+ decimal status +:+ " " +:+ statusText +:+ " - " +:+ body
  | JsonSyntaxError => "Unexpected token in JSON"
  | ApiError retCode retMsg =>
      "Bybit API error: " +:+ decimal retCode +:+ " - " +:+ retMsg
  | ParseFailed body => "Failed to parse Bybit API response: " +:+ body
  | TypeError what => what
  | FillNotVerified => "Order placed but position not found - possible fill failure"
  | StopLossFailed lastError =>
      "Failed to set stop loss after 3 attempts. Last error: " +:+ lastError
  | MarketPriceNotFound symbol => "Market price not found for symbol: " +:+ symbol
  | InvalidMarketPrice symbol => "Invalid market price for symbol: " +:+ symbol
  end.

(** How a call completes. *)
Inductive Completion (A : Type) : Type :=
| Returned (a : A)
| Threw (e : JsError).
Arguments Returned {A} a.
Arguments Threw {A} e.

(** *** What goes over the wire *)

Inductive TimeInForce : Type := IOC | GTC.

(** The parameters of [/v5/order/create]; [co_price] and [co_reduceOnly]
    are absent from a market order. *)
Record CreateOrder : Type := {
  co_symbol : string;
  co_side : OrderSide;
  co_orderType : OrderType;
  co_qty : number;
  co_price : option number;
  co_timeInForce : TimeInForce;
  co_reduceOnly : bool
}.

(** The authenticated requests the client sends, by endpoint. *)
Inductive Request : Type :=
| GetWalletBalance (coin : string)
| GetPositionList (symbol : string)
| PostSetLeverage (symbol : string) (leverage : number)
| PostCreateOrder (params : CreateOrder)
| PostTradingStop (symbol : string) (stopLoss : number)
| GetOpenOrders (symbol : string)
| PostCancelOrder (symbol orderId : string)
| GetTickers (symbol : string)
| GetServerTime.

Record OpenOrderRow : Type := {
  row_orderId : string;
  row_orderType : string;
  row_stopLoss : string
}.

Record TickerRow : Type := {
  ticker_symbol : string;
  ticker_lastPrice : number
}.

(** The [result] member of a response.  Numeric members stand for what
    [parseFloat] reads from the strings on the wire. *)
Inductive Payload : Type :=
| PNull
| PEmpty
| PPositions (rows : list PositionInfo)
| POrderCreated (orderId : string)
| POpenOrders (rows : list OpenOrderRow)
| PTickers (rows : list TickerRow).

Record Envelope : Type := {
  retCode : Z;
  retMsg : string;
  result : Payload
}.

(** An HTTP response; [parsed] is what [JSON.parse] makes of the body,
    [None] when the body is not an object with a numeric [retCode]. *)
Record Response : Type := {
  ok : bool;
  status : Z;
  statusText : string;
  text : string;
  parsed : option Envelope
}.

Inductive FetchResult : Type :=
| Rejected (msg : string)
| Responded (response : Response).

(** What the client does that the exchange can observe. *)
Inductive Event : Type :=
| Sent (request : Request)
| Slept (ms : Z).

Definition History : Type := list Event.

(** The exchange answers a request knowing all that came before. *)
Definition Exchange : Type := History -> Request -> FetchResult.

(** *** The monad of client calls *)

Definition M (A : Type) : Type := History -> History * Completion A.

Definition ret {A : Type} (a : A) : M A := fun h => (h, Returned a).

Definition throw {A : Type} (e : JsError) : M A := fun h => (h, Threw e).

Definition bind {A B : Type} (m : M A) (k : A -> M B) : M B :=
  fun h =>
    match m h with
    | (h1, Returned a) => k a h1
    | (h1, Threw e) => (h1, Threw e)
    end.

Definition tryCatch {A : Type} (m : M A) (handler : JsError -> M A) : M A :=
  fun h =>
    match m h with
    | (h1, Returned a) => (h1, Returned a)
    | (h1, Threw e) => handler e h1
    end.

(** [await new Promise(resolve => setTimeout(resolve, ms))]. *)
Definition sleep (ms : Z) : M unit := fun h => (h ++ [Slept ms], Returned tt).

Declare Scope client_scope.
Delimit Scope client_scope with client.
Notation "'let*' x := m 'in' k" := (bind m (fun x => k))
  (at level 10, x name, m at level 100, k at level 200) : client_scope.
Notation "'do' m 'then' k" := (bind m (fun _ => k))
  (at level 10, m at level 100, k at level 200) : client_scope.

Local Open Scope client_scope.

(** *** Responses *)

(** The result codes that mean the value asked for is already set. *)
Definition LEVERAGE_NOT_MODIFIED : Z := 110043.
Definition NOT_MODIFIED : Z := 34040.

Definition isErrorCode (code : Z) : bool :=
  negb (code =? 0)%Z && negb (code =? LEVERAGE_NOT_MODIFIED)%Z
  && negb (code =? NOT_MODIFIED)%Z.

(** The [try] block of [handleResponse]. *)
Definition readEnvelope (response : Response) : Completion Payload :=
  match parsed response with
  | None => Threw JsonSyntaxError
  | Some data =>
      if isErrorCode (retCode data)
      then Threw (ApiError (retCode data) (retMsg data))
      else Returned (result data)
  end.

(** Whatever the [try] block throws, the code-based error included, is
    replaced in the [catch] by the parse failure. *)
Definition handleResponse (response : Response) : Completion Payload :=
  if negb (ok response)
  then Threw (HttpError (status response) (statusText response) (text response))
  else
    match readEnvelope response with
    | Returned payload => Returned payload
    | Threw _ => Threw (ParseFailed (text response))
    end.

(** [symbol.replace('/', '')]: the first slash is dropped. *)
Fixpoint convertSymbolToBybit (symbol : string) : string :=
  match symbol with
  | EmptyString => EmptyString
  | String c rest =>
      if Ascii.eqb c (Ascii.ascii_of_nat 47) then rest else String c (convertSymbolToBybit rest)
  end.

Section WithExchange.

Variable exchange : Exchange.

(** *** Requests *)

Definition makeRawRequest (request : Request) : M Payload :=
  fun h =>
    (h ++ [Sent request],
     match exchange h request with
     | Rejected msg => Threw (FetchFailed msg)
     | Responded response => handleResponse response
     end).

(** To the caller that awaits it, a call through the queue completes as
    the operation does; the queue itself is the subject of [Dispatcher]. *)
Definition withRateLimit {A : Type} (fn : M A) : M A := fn.

Definition makeRequest (request : Request) : M Payload :=
  withRateLimit (makeRawRequest request).

(** *** Queries *)

Definition getPosition (symbol : string) : M (option PositionInfo) :=
  let bybitSymbol := convertSymbolToBybit symbol in
  let* payload := makeRequest (GetPositionList bybitSymbol) in
  match payload with
  | PPositions rows =>
      ret (snd <$> list_find
             (fun p => String.eqb (info_symbol p) bybitSymbol
                       && JsNumber.gtb (info_size p) (Fin 0) = true) rows)
  | POpenOrders _ | PTickers _ => ret None
  | PNull | PEmpty | POrderCreated _ =>
      throw (TypeError "Cannot read properties of undefined (reading 'find')")
  end.

Definition getMarketPrice (symbol : string) : M number :=
  let bybitSymbol := convertSymbolToBybit symbol in
  let* payload := makeRequest (GetTickers bybitSymbol) in
  match payload with
  | PTickers (ticker :: _) =>
      let price := ticker_lastPrice ticker in
      if JsNumber.isNaN price || JsNumber.leb price (Fin 0)
      then throw (InvalidMarketPrice symbol)
      else ret price
  | PPositions (_ :: _) | POpenOrders (_ :: _) => throw (InvalidMarketPrice symbol)
  | PNull => throw (TypeError "Cannot read properties of null (reading 'list')")
  | _ => throw (MarketPriceNotFound bybitSymbol)
  end.

(** *** Orders *)

Definition setLeverage (symbol : string) (leverage : number) : M unit :=
  let bybitSymbol := convertSymbolToBybit symbol in
  do makeRequest (PostSetLeverage bybitSymbol leverage) then
  ret tt.

Definition marketOrderParams (order : TradeOrder) : CreateOrder :=
  {| co_symbol := convertSymbolToBybit (order_symbol order);
     co_side := order_side order;
     co_orderType := MarketOrder;
     co_qty := JsNumber.floor (order_qty order);
     co_price := None;
     co_timeInForce := IOC;
     co_reduceOnly := false |}.

Definition placeMarketOrder (order : TradeOrder) : M OrderResponse :=
  let bybitSymbol := convertSymbolToBybit (order_symbol order) in
  let* payload := makeRequest (PostCreateOrder (marketOrderParams order)) in
  match payload with
  | PNull => throw (TypeError "Cannot read properties of null (reading 'orderId')")
  | _ =>
      ret {| resp_orderId :=
               match payload with POrderCreated orderId => Some orderId | _ => None end;
             resp_symbol := bybitSymbol;
             resp_side := order_side order;
             resp_orderType := MarketOrder;
             resp_qty := order_qty order;
             resp_status := "Created" |}
  end.

Definition setStopLoss (symbol : string) (side : Direction) (stopLossPrice : number)
  : M unit :=
  let bybitSymbol := convertSymbolToBybit symbol in
  do makeRequest (PostTradingStop bybitSymbol stopLossPrice) then
  ret tt.

(** The loop over the orders that carry a stop-loss. *)
Fixpoint cancelOrders (bybitSymbol : string) (orders : list OpenOrderRow) : M unit :=
  match orders with
  | [] => ret tt
  | order :: rest =>
      do makeRequest (PostCancelOrder bybitSymbol (row_orderId order)) then
      cancelOrders bybitSymbol rest
  end.

Definition isStopLossOrder (order : OpenOrderRow) : bool :=
  negb (String.eqb (row_stopLoss order) "").

Definition cancelStopLoss (symbol : string) : M unit :=
  let bybitSymbol := convertSymbolToBybit symbol in
  tryCatch
    (let* payload := makeRequest (GetOpenOrders bybitSymbol) in
     match payload with
     | POpenOrders rows => cancelOrders bybitSymbol (List.filter isStopLossOrder rows)
     | PPositions _ | PTickers _ => ret tt
     | PNull | PEmpty | POrderCreated _ =>
         throw (TypeError "Cannot read properties of undefined (reading 'filter')")
     end)
    (fun _ => ret tt).

Definition oppositeSide (side : Direction) : OrderSide :=
  match side with LONG => Sell | SHORT => Buy end.

Definition takeProfitParams (symbol : string) (side : Direction)
    (highestTP : TakeProfitLevel) (positionSize : number) : CreateOrder :=
  {| co_symbol := symbol;
     co_side := oppositeSide side;
     co_orderType := LimitOrder;
     co_qty := JsNumber.floor positionSize;
     co_price := Some (price highestTP);
     co_timeInForce := GTC;
     co_reduceOnly := true |}.

Definition setTakeProfits (symbol : string) (side : Direction)
    (takeProfits : list TakeProfitLevel) (positionSize : number) : M unit :=
  match last takeProfits with
  | None => ret tt
  | Some highestTP =>
      tryCatch
        (do makeRequest (PostCreateOrder (takeProfitParams symbol side highestTP positionSize)) then
         ret tt)
        (fun error => throw error)
  end.

(** *** Trade execution *)

Record TradeResult : Type := {
  trade_orderId : option string;
  trade_leverage : number;
  trade_positionSize : number;
  trade_actualEntryPrice : number
}.

Definition emergencyClosePosition (symbol : string) (direction : Direction) : M unit :=
  let* position := getPosition symbol in
  match position with
  | None => ret tt
  | Some position =>
      if JsNumber.eqb (info_size position) (Fin 0) then ret tt
      else
        do placeMarketOrder {| order_symbol := symbol;
                               order_side := oppositeSide direction;
                               order_type := MarketOrder;
                               order_qty := info_size position |} then
        ret tt
  end.

(** The retry loop of the stop-loss, over the attempts still to make. *)
Fixpoint setStopLossAttempts (bybitSymbol : string) (signal : ParsedSignal)
    (attempts : list Z) : M bool :=
  match attempts with
  | [] => ret false
  | attempt :: rest =>
      tryCatch
        (do setStopLoss bybitSymbol (direction signal) (stopLoss signal) then ret true)
        (fun error =>
           if (attempt =? 3)%Z
           then throw (StopLossFailed (message error))
           else do sleep (1000 * attempt) then setStopLossAttempts bybitSymbol signal rest)
  end.

Definition entrySide (direction : Direction) : OrderSide :=
  match direction with LONG => Buy | SHORT => Sell end.

(** The first part of the [try] block, up to the assignment of
    [orderResponse]. *)
Definition openTrade (signal : ParsedSignal) (portfolioValue portfolioPercentage : number)
  : M (number * Sizing.SizeResult * OrderResponse) :=
  let bybitSymbol := convertSymbolToBybit (pair signal) in
  let* currentPrice :=
    match entryZone signal with
    | Market => getMarketPrice bybitSymbol
    | Price p => ret p
    end in
  let sized := Sizing.calculatePositionSize signal portfolioValue portfolioPercentage currentPrice in
  do setLeverage bybitSymbol (Sizing.leverage sized) then
  let* orderResponse :=
    placeMarketOrder {| order_symbol := bybitSymbol;
                        order_side := entrySide (direction signal);
                        order_type := MarketOrder;
                        order_qty := Sizing.size sized |} in
  ret (currentPrice, sized, orderResponse).

(** The rest of the [try] block, run with [orderResponse] assigned. *)
Definition protectTrade (signal : ParsedSignal) (currentPrice : number)
    (sized : Sizing.SizeResult) (orderResponse : OrderResponse) : M TradeResult :=
  let bybitSymbol := convertSymbolToBybit (pair signal) in
  do sleep 3000 then
  let* position := getPosition bybitSymbol in
  match position with
  | None => throw FillNotVerified
  | Some position =>
      if JsNumber.eqb (info_size position) (Fin 0) then throw FillNotVerified
      else
        do setStopLossAttempts bybitSymbol signal [1; 2; 3]%Z then
        do setTakeProfits bybitSymbol (direction signal) (takeProfits signal)
                          (Sizing.size sized) then
        ret {| trade_orderId := resp_orderId orderResponse;
               trade_leverage := Sizing.leverage sized;
               trade_positionSize := info_size position;
               trade_actualEntryPrice := currentPrice |}
  end.

(** The [try] block: how it completes, and the value of the local
    variable [orderResponse] when it is left. *)
Definition executeTradeTry (signal : ParsedSignal)
    (portfolioValue portfolioPercentage : number) (h : History)
  : History * (option OrderResponse * Completion TradeResult) :=
  match openTrade signal portfolioValue portfolioPercentage h with
  | (h1, Threw error) => (h1, (None, Threw error))
  | (h1, Returned (currentPrice, sized, orderResponse)) =>
      match protectTrade signal currentPrice sized orderResponse h1 with
      | (h2, completion) => (h2, (Some orderResponse, completion))
      end
  end.

(** The rollback of the [catch] block; what it throws is logged and
    dropped. *)
Definition rollback (signal : ParsedSignal) (orderResponse : option OrderResponse)
  : M unit :=
  match orderResponse with
  | Some _ =>
      tryCatch
        (emergencyClosePosition (convertSymbolToBybit (pair signal)) (direction signal))
        (fun rollbackError => ret tt)
  | None => ret tt
  end.

Definition executeTrade (signal : ParsedSignal)
    (portfolioValue portfolioPercentage : number) : M TradeResult :=
  fun h =>
    match executeTradeTry signal portfolioValue portfolioPercentage h with
    | (h1, (_, Returned traded)) => (h1, Returned traded)
    | (h1, (orderResponse, Threw error)) =>
        (do rollback signal orderResponse then throw error) h1
    end.

End WithExchange.

(** *** Notions the properties are stated with *)

(** Two calls that do the same from every history. *)
Definition agree {A : Type} (m0 m1 : M A) : Prop := forall h, m0 h = m1 h.

Definition isSetLeverage (request : Request) : bool :=
  match request with PostSetLeverage _ _ => true | _ => false end.

(** The two exchanges answer every request but the leverage request
    alike. *)
Definition agreeButLeverage (ex0 ex1 : Exchange) : Prop :=
  forall h request, isSetLeverage request = false -> ex0 h request = ex1 h request.

(** The exchange answers every leverage request with an envelope of the
    code given, under HTTP status ok. *)
Definition answersLeverageWith (ex : Exchange) (code : Z) : Prop :=
  forall h symbol leverage,
  exists response data,
    ex h (PostSetLeverage symbol leverage) = Responded response /\
    ok response = true /\ parsed response = Some data /\ retCode data = code.

(** The exchange accepts every cancellation of an order. *)
Definition acceptsCancels (ex : Exchange) : Prop :=
  forall h symbol orderId,
  exists payload,
    makeRequest ex (PostCancelOrder symbol orderId) h
    = (h ++ [Sent (PostCancelOrder symbol orderId)], Returned payload).

End Client.

(** ** The position manager ([PositionManager]) *)

Module Manager.
Import Client.

Local Open Scope string_scope.
Local Open Scope list_scope.
Local Open Scope stdpp_scope.

(** The registry [positions: Map<string, Position>].  A position is an
    object shared between the registry and the method that works on it:
    a method below takes the record out of the registry and puts the
    mutated record back under the same key. *)
Abbreviation Registry := (gmap string Position).

Definition trackLevel (tp : TakeProfitLevel) : TrackedLevel :=
  {| tp_level := level tp; tp_price := price tp; tp_filled := false |}.

(** [now] is the reading of [Date.now()] the id is made of. *)
Definition createPosition (signal : ParsedSignal) (orderId : option string)
    (leverage positionSize actualEntryPrice : number) (now : Z)
    (positions : Registry) : Registry * Position :=
  let position :=
    {| pos_id := pair signal +:+ "_" +:+ decimal now;
       pos_symbol := pair signal;
       pos_side := direction signal;
       pos_size := positionSize;
       pos_entryPrice := actualEntryPrice;
       pos_currentPrice := actualEntryPrice;
       pos_stopLoss := stopLoss signal;
       pos_takeProfits := trackLevel <$> takeProfits signal;
       pos_leverage := leverage;
       pos_pnl := Fin 0;
       pos_status := ACTIVE |} in
  (<[pos_id position := position]> positions, position).

(** Field updates of the position object. *)
Definition withStatus (position : Position) (status : TradeStatus) : Position :=
  {| pos_id := pos_id position; pos_symbol := pos_symbol position;
     pos_side := pos_side position; pos_size := pos_size position;
     pos_entryPrice := pos_entryPrice position;
     pos_currentPrice := pos_currentPrice position;
     pos_stopLoss := pos_stopLoss position;
     pos_takeProfits := pos_takeProfits position;
     pos_leverage := pos_leverage position; pos_pnl := pos_pnl position;
     pos_status := status |}.

Definition withMarket (position : Position) (markPrice unrealisedPnl : number)
  : Position :=
  {| pos_id := pos_id position; pos_symbol := pos_symbol position;
     pos_side := pos_side position; pos_size := pos_size position;
     pos_entryPrice := pos_entryPrice position;
     pos_currentPrice := markPrice;
     pos_stopLoss := pos_stopLoss position;
     pos_takeProfits := pos_takeProfits position;
     pos_leverage := pos_leverage position; pos_pnl := unrealisedPnl;
     pos_status := pos_status position |}.

Definition withStopLoss (position : Position) (newStopLoss : number) : Position :=
  {| pos_id := pos_id position; pos_symbol := pos_symbol position;
     pos_side := pos_side position; pos_size := pos_size position;
     pos_entryPrice := pos_entryPrice position;
     pos_currentPrice := pos_currentPrice position;
     pos_stopLoss := newStopLoss;
     pos_takeProfits := pos_takeProfits position;
     pos_leverage := pos_leverage position; pos_pnl := pos_pnl position;
     pos_status := pos_status position |}.

Definition withTakeProfits (position : Position) (levels : list TrackedLevel)
  : Position :=
  {| pos_id := pos_id position; pos_symbol := pos_symbol position;
     pos_side := pos_side position; pos_size := pos_size position;
     pos_entryPrice := pos_entryPrice position;
     pos_currentPrice := pos_currentPrice position;
     pos_stopLoss := pos_stopLoss position;
     pos_takeProfits := levels;
     pos_leverage := pos_leverage position; pos_pnl := pos_pnl position;
     pos_status := pos_status position |}.

Definition markFilled (tp : TrackedLevel) : TrackedLevel :=
  {| tp_level := tp_level tp; tp_price := tp_price tp; tp_filled := true |}.

Definition checkPriceHitLevel (side : Direction) (oldPrice newPrice targetPrice : number)
  : bool :=
  match side with
  | LONG => JsNumber.ltb oldPrice targetPrice && JsNumber.geb newPrice targetPrice
  | SHORT => JsNumber.gtb oldPrice targetPrice && JsNumber.leb newPrice targetPrice
  end.

Definition findLevel (levels : list TrackedLevel) (wanted : Z) : option TrackedLevel :=
  List.find (fun tp => (tp_level tp =? wanted)%Z) levels.

(** The [switch] of [adjustStopLoss]: the stop-loss a hit of level
    [tpLevel] asks for. *)
Definition newStopLoss (position : Position) (tpLevel : Z) : number :=
  if (tpLevel =? 1)%Z then pos_entryPrice position
  else if (tpLevel =? 2)%Z then
    match findLevel (pos_takeProfits position) 1 with
    | Some tp1 => tp_price tp1
    | None => pos_entryPrice position
    end
  else
    match findLevel (pos_takeProfits position) (tpLevel - 1) with
    | Some prevTP => tp_price prevTP
    | None => pos_stopLoss position
    end.

Definition shouldUpdate (position : Position) (candidate : number) : bool :=
  match pos_side position with
  | LONG => JsNumber.gtb candidate (pos_stopLoss position)
  | SHORT => JsNumber.ltb candidate (pos_stopLoss position)
  end.

Section WithExchange.

Variable exchange : Exchange.

(** The methods below catch what they call: they return the position
    object as they leave it. *)
Definition adjustStopLoss (position : Position) (tpLevel : Z) (h : History)
  : History * Position :=
  let candidate := newStopLoss position tpLevel in
  if shouldUpdate position candidate then
    match setStopLoss exchange (pos_symbol position) (pos_side position) candidate h with
    | (h1, Returned _) => (h1, withStopLoss position candidate)
    | (h1, Threw _) => (h1, position)
    end
  else (h, position).

(** The loop of [checkTakeProfitHits] over the indices of the ladder. *)
Fixpoint checkLevels (indices : list nat) (position : Position)
    (oldPrice newPrice : number) (h : History) : History * Position :=
  match indices with
  | [] => (h, position)
  | i :: rest =>
      match pos_takeProfits position !! i with
      | None => checkLevels rest position oldPrice newPrice h
      | Some tp =>
          if tp_filled tp then checkLevels rest position oldPrice newPrice h
          else if checkPriceHitLevel (pos_side position) oldPrice newPrice (tp_price tp)
          then
            let hit := withTakeProfits position
                         (<[i := markFilled tp]> (pos_takeProfits position)) in
            match adjustStopLoss hit (tp_level tp) h with
            | (h1, adjusted) => checkLevels rest adjusted oldPrice newPrice h1
            end
          else checkLevels rest position oldPrice newPrice h
      end
  end.

Definition checkTakeProfitHits (position : Position) (oldPrice newPrice : number)
    (h : History) : History * Position :=
  checkLevels (seq 0 (length (pos_takeProfits position))) position oldPrice newPrice h.

Definition updatePosition (positionId : string) (positions : Registry) (h : History)
  : Registry * History * option Position :=
  match positions !! positionId with
  | None => (positions, h, None)
  | Some position =>
      match getPosition exchange (pos_symbol position) h with
      | (h1, Threw _) => (positions, h1, Some position)
      | (h1, Returned None) =>
          let closed := withStatus position COMPLETED in
          (<[positionId := closed]> positions, h1, Some closed)
      | (h1, Returned (Some bybitPosition)) =>
          let oldPrice := pos_currentPrice position in
          let priced := withMarket position (info_markPrice bybitPosition)
                                   (info_unrealisedPnl bybitPosition) in
          match checkTakeProfitHits priced oldPrice (pos_currentPrice priced) h1 with
          | (h2, checked) => (<[positionId := checked]> positions, h2, Some checked)
          end
      end
  end.

(** A run of poll updates, one [updatePosition] after the other. *)
Fixpoint pollUpdates (positionIds : list string) (positions : Registry) (h : History)
  : Registry * History :=
  match positionIds with
  | [] => (positions, h)
  | positionId :: rest =>
      match updatePosition positionId positions h with
      | (positions1, h1, _) => pollUpdates rest positions1 h1
      end
  end.

Definition closingOrder (position : Position) : TradeOrder :=
  {| order_symbol := pos_symbol position;
     order_side := oppositeSide (pos_side position);
     order_type := MarketOrder;
     order_qty := pos_size position |}.

(** [reason] only goes to the log. *)
Definition closePosition (positionId reason : string) (positions : Registry)
    (h : History) : Registry * History * bool :=
  match positions !! positionId with
  | None => (positions, h, false)
  | Some position =>
      if bool_decide (pos_status position = ACTIVE) then
        match cancelStopLoss exchange (pos_symbol position) h with
        | (h1, Threw _) => (positions, h1, false)
        | (h1, Returned _) =>
            match placeMarketOrder exchange (closingOrder position) h1 with
            | (h2, Threw _) => (positions, h2, false)
            | (h2, Returned _) =>
                (<[positionId := withStatus position COMPLETED]> positions, h2, true)
            end
        end
      else (positions, h, false)
  end.

End WithExchange.

(** *** Notions the properties are stated with *)

(** The stop-loss [new] is strictly more favourable than [old]: higher for
    a LONG position, lower for a SHORT one. *)
Definition improves (side : Direction) (old new : number) : Prop :=
  match side with
  | LONG => JsNumber.lt old new
  | SHORT => JsNumber.lt new old
  end.

(** The stop-loss has not moved backward. *)
Definition notWorse (side : Direction) (old new : number) : Prop :=
  new = old \/ improves side old new.

(** The ladder the signal parser accepts: the level at index [i] is
    [i + 1]. *)
Definition denseLadder (levels : list TrackedLevel) : Prop :=
  forall (i : nat) (tp : TrackedLevel),
    levels !! i = Some tp -> tp_level tp = (Z.of_nat i + 1)%Z.

(** The crossing of the price [target] between two observed prices, as
    the documentation words it. *)
Definition crossed (side : Direction) (oldPrice newPrice target : number) : bool :=
  match side with
  | LONG => JsNumber.ltb oldPrice target && JsNumber.leb target newPrice
  | SHORT => JsNumber.ltb target oldPrice && JsNumber.leb newPrice target
  end.

(** What the check of a level makes of it. *)
Definition checked (side : Direction) (oldPrice newPrice : number) (tp : TrackedLevel)
  : TrackedLevel :=
  if tp_filled tp then tp
  else if crossed side oldPrice newPrice (tp_price tp) then markFilled tp
  else tp.

End Manager.

(** ** The request queue ([withRateLimit], [processRequestQueue]) *)

(** The queue lives on the single-threaded event loop: a task runs without
    interruption up to its next [await].  The state below is the state of
    the client between two such runs, and an event is what starts the next
    run: a call of [withRateLimit], the expiry of the timeout a drain
    sleeps on, or the completion of the operation a drain awaits.  Time is
    the reading of [Date.now()], which only moves forward.

    Operations are named by the order of their call of [withRateLimit]:
    the wrapper pushed by the [n]-th call closes over the operation, the
    [resolve] and the [reject] of that call. *)

Module Dispatcher.
Import Client.

Local Open Scope list_scope.
Local Open Scope stdpp_scope.
Local Open Scope Z_scope.

Definition MIN_REQUEST_INTERVAL : Z := 100.

Definition OpId : Type := nat.

(** An invocation of [processRequestQueue] that got past its guard,
    suspended at one of the two [await]s of the loop. *)
Inductive Drain : Type :=
| Sleeping (wake : Z)
| Awaiting (op : OpId).

Section Queue.

(** The type of what the operations return. *)
Context {T : Type}.

(** What each operation completes with once it is invoked. *)
Variable run : OpId -> Completion T.

Record State : Type := {
  requestQueue : list OpId;
  isProcessingQueue : bool;
  lastRequestTime : Z;
  clock : Z;
  drains : list Drain;
  (** number of calls of [withRateLimit] so far *)
  calls : nat;
  (** the wrappers invoked, each with the time it was started at *)
  dispatched : list (OpId * Z);
  (** the promises of the callers settled so far, each with what it was
      resolved or rejected with *)
  delivered : list (OpId * Completion T)
}.

Definition initial (now : Z) : State :=
  {| requestQueue := []; isProcessingQueue := false; lastRequestTime := 0;
     clock := now; drains := []; calls := 0%nat; dispatched := []; delivered := [] |}.

(** The end of [processRequestQueue]. *)
Definition leaveLoop (s : State) : State * option Drain :=
  ({| requestQueue := requestQueue s; isProcessingQueue := false;
      lastRequestTime := lastRequestTime s; clock := clock s;
      drains := drains s; calls := calls s;
      dispatched := dispatched s; delivered := delivered s |}, None).

(** [requestQueue.shift()] and the invocation of the request, up to the
    [await] on it; with nothing to shift the loop goes back to its test,
    which fails. *)
Definition shiftAndStart (s : State) : State * option Drain :=
  match requestQueue s with
  | [] => leaveLoop s
  | op :: rest =>
      ({| requestQueue := rest; isProcessingQueue := isProcessingQueue s;
          lastRequestTime := clock s; clock := clock s;
          drains := drains s; calls := calls s;
          dispatched := dispatched s ++ [(op, clock s)];
          delivered := delivered s |}, Some (Awaiting op))
  end.

(** One turn of the [while] loop from its test on, up to the first
    [await]. *)
Definition loopTurn (s : State) : State * option Drain :=
  match requestQueue s with
  | [] => leaveLoop s
  | _ :: _ =>
      let timeSinceLastRequest := clock s - lastRequestTime s in
      if timeSinceLastRequest <? MIN_REQUEST_INTERVAL
      then (s, Some (Sleeping (clock s + (MIN_REQUEST_INTERVAL - timeSinceLastRequest))))
      else shiftAndStart s
  end.

Definition setProcessing (s : State) : State :=
  {| requestQueue := requestQueue s; isProcessingQueue := true;
     lastRequestTime := lastRequestTime s; clock := clock s;
     drains := drains s; calls := calls s;
     dispatched := dispatched s; delivered := delivered s |}.

Definition setDrains (s : State) (ds : list Drain) : State :=
  {| requestQueue := requestQueue s; isProcessingQueue := isProcessingQueue s;
     lastRequestTime := lastRequestTime s; clock := clock s;
     drains := ds; calls := calls s;
     dispatched := dispatched s; delivered := delivered s |}.

(** A call of [processRequestQueue]: the guard, then the loop as a new
    drain. *)
Definition processRequestQueue (s : State) : State :=
  if isProcessingQueue s || bool_decide (requestQueue s = []) then s
  else
    match loopTurn (setProcessing s) with
    | (s1, Some d) => setDrains s1 (drains s1 ++ [d])
    | (s1, None) => s1
    end.

(** A call of [withRateLimit]: the wrapper is pushed and
    [processRequestQueue] is called. *)
Definition withRateLimit (s : State) : State :=
  processRequestQueue
    {| requestQueue := requestQueue s ++ [calls s];
       isProcessingQueue := isProcessingQueue s;
       lastRequestTime := lastRequestTime s; clock := clock s;
       drains := drains s; calls := S (calls s);
       dispatched := dispatched s; delivered := delivered s |}.

(** The wrapper passes what the operation completed with to the caller:
    [resolve(result)] or [reject(error)]. *)
Definition settle (s : State) (op : OpId) (outcome : Completion T) : State :=
  {| requestQueue := requestQueue s; isProcessingQueue := isProcessingQueue s;
     lastRequestTime := lastRequestTime s; clock := clock s;
     drains := drains s; calls := calls s;
     dispatched := dispatched s;
     delivered := delivered s ++ [(op, outcome)] |}.

(** A drain that resumes takes the place it had among the drains, or
    leaves them. *)
Definition resume (i : nat) (r : State * option Drain) : State :=
  match r with
  | (s, Some d) => setDrains s (<[i := d]> (drains s))
  | (s, None) => setDrains s (delete i (drains s))
  end.

Inductive Event : Type :=
| Call
| Tick (dt : Z)
| TimerFires (i : nat)
| Settles (i : nat).

Definition advanceClock (s : State) (dt : Z) : State :=
  {| requestQueue := requestQueue s; isProcessingQueue := isProcessingQueue s;
     lastRequestTime := lastRequestTime s; clock := clock s + dt;
     drains := drains s; calls := calls s;
     dispatched := dispatched s; delivered := delivered s |}.

(** The run an event starts; [None] when the event cannot happen in the
    state.  A timeout does not expire before its time.  Whether the
    operation returned or threw, the wrapper settles the caller's promise
    and the loop goes on: what the wrapper rethrows is caught by the empty
    [catch] of the loop. *)
Definition step (s : State) (ev : Event) : option State :=
  match ev with
  | Call => Some (withRateLimit s)
  | Tick dt => if 0 <=? dt then Some (advanceClock s dt) else None
  | TimerFires i =>
      match drains s !! i with
      | Some (Sleeping wake) =>
          if wake <=? clock s then Some (resume i (shiftAndStart s)) else None
      | _ => None
      end
  | Settles i =>
      match drains s !! i with
      | Some (Awaiting op) =>
          match run op with
          | Returned result => Some (resume i (loopTurn (settle s op (Returned result))))
          | Threw error => Some (resume i (loopTurn (settle s op (Threw error))))
          end
      | _ => None
      end
  end.

Fixpoint steps (s : State) (evs : list Event) : option State :=
  match evs with
  | [] => Some s
  | ev :: rest =>
      match step s ev with
      | Some s1 => steps s1 rest
      | None => None
      end
  end.

(** The states the client can be in. *)
Inductive reachable : State -> Prop :=
| reachable_initial (now : Z) : reachable (initial now)
| reachable_step (s s1 : State) (ev : Event) :
    reachable s -> step s ev = Some s1 -> reachable s1.

(** The event the environment owes a state with a suspended drain: time
    passes until the timeout, the timeout expires, the operation
    completes. *)
Definition owed (s : State) : option Event :=
  match drains s with
  | [] => None
  | Sleeping wake :: _ =>
      if clock s <? wake then Some (Tick (wake - clock s)) else Some (TimerFires 0)
  | Awaiting _ :: _ => Some (Settles 0)
  end.

(** The client left to itself for at most [fuel] events. *)
Fixpoint flush (fuel : nat) (s : State) : State :=
  match fuel with
  | O => s
  | S fuel1 =>
      match owed s with
      | None => s
      | Some ev =>
          match step s ev with
          | Some s1 => flush fuel1 s1
          | None => s
          end
      end
  end.

(** Consecutive entries of the dispatch log are at least the minimum
    interval apart. *)
Fixpoint spaced (log : list (OpId * Z)) : Prop :=
  match log with
  | [] => True
  | (_, t1) :: rest =>
      match rest with
      | [] => True
      | (_, t2) :: _ => t1 + MIN_REQUEST_INTERVAL <= t2 /\ spaced rest
      end
  end.

(** The operations the suspended drains await. *)
Definition awaited (ds : list Drain) : list OpId :=
  omap (fun d => match d with Awaiting op => Some op | Sleeping _ => None end) ds.

(** What holds of every state the client can be in. *)
Record Inv (s : State) : Prop := {
  inv_single : (length (drains s) <= 1)%nat;
  inv_flag : isProcessingQueue s = bool_decide (drains s <> []);
  inv_fifo : (fst <$> dispatched s) ++ requestQueue s = seq 0 (calls s);
  inv_spaced : spaced (dispatched s);
  inv_last : forall op t, last (dispatched s) = Some (op, t) -> lastRequestTime s = t;
  inv_sleep : forall wake, Sleeping wake ∈ drains s ->
              lastRequestTime s + MIN_REQUEST_INTERVAL <= wake /\ requestQueue s <> [];
  inv_idle : drains s = [] -> requestQueue s = [];
  inv_delivered : (fst <$> delivered s) ++ awaited (drains s) = fst <$> dispatched s;
  inv_results : forall op outcome, (op, outcome) ∈ delivered s -> outcome = run op
}.

(** The events a state still owes before it is idle, at most. *)
Definition owing (s : State) : nat :=
  (3 * length (requestQueue s)
   + match drains s with
     | [] => 0
     | Sleeping wake :: _ => if (clock s <? wake)%Z then 1 else 0
     | Awaiting _ :: _ => 2
     end)%nat.

End Queue.

End Dispatcher.

(** ** Exchanges and runs the properties are evaluated on *)

Module Scenarios.
Import Client.

Local Open Scope string_scope.
Local Open Scope list_scope.
Local Open Scope stdpp_scope.

(** A response with HTTP status 200 whose body is the envelope given. *)
Definition envelopeResponse (code : Z) (msg : string) (payload : Payload) : Response :=
  {| ok := true; status := 200; statusText := "OK";
     text := "{...}";
     parsed := Some {| retCode := code; retMsg := msg; result := payload |} |}.

Definition accepted (payload : Payload) : FetchResult :=
  Responded (envelopeResponse 0 "OK" payload).

Definition refused (code : Z) (msg : string) : FetchResult :=
  Responded (envelopeResponse code msg PEmpty).

Definition liveRow (symbol : string) (size markPrice : number) : PositionInfo :=
  {| info_symbol := symbol; info_side := "Buy"; info_size := size;
     info_entryPrice := markPrice; info_markPrice := markPrice;
     info_unrealisedPnl := Fin 0; info_leverage := JsNumber.ofZ 20;
     info_positionStatus := "Normal" |}.

Definition isTradingStop (ev : Event) : bool :=
  match ev with Sent (PostTradingStop _ _) => true | _ => false end.

Definition isPositionQuery (ev : Event) : bool :=
  match ev with Sent (GetPositionList _) => true | _ => false end.

(** An exchange that fills every order and refuses every stop-loss.  The
    position it reports has size 3333.5; with [vanishes] set, the position
    is gone from the first stop-loss request on. *)
Definition refusesStopLoss (vanishes : bool) : Exchange :=
  fun h request =>
    match request with
    | GetPositionList symbol =>
        if vanishes && existsb isTradingStop h
        then accepted (PPositions [])
        else accepted (PPositions [liveRow symbol (Fin (33335 # 10)) (Fin (3 # 10))])
    | PostCreateOrder _ => accepted (POrderCreated "order-1")
    | PostTradingStop _ _ => refused 10001 "params error"
    | _ => accepted PEmpty
    end.

(** An exchange that accepts everything but the creation of orders. *)
Definition refusesOrders : Exchange :=
  fun h request =>
    match request with
    | GetOpenOrders _ => accepted (POpenOrders [])
    | PostCreateOrder _ => refused 110007 "insufficient balance"
    | _ => accepted PEmpty
    end.

(** An exchange that accepts everything; it reports one open order with a
    stop-loss and one without. *)
Definition acceptsAll : Exchange :=
  fun h request =>
    match request with
    | GetPositionList symbol =>
        accepted (PPositions [liveRow symbol (JsNumber.ofZ 10) (JsNumber.ofZ 100)])
    | GetOpenOrders _ =>
        accepted (POpenOrders [ {| row_orderId := "sl-1"; row_orderType := "Market";
                                   row_stopLoss := "98" |};
                                {| row_orderId := "tp-1"; row_orderType := "Limit";
                                   row_stopLoss := "" |} ])
    | PostCreateOrder _ => accepted (POrderCreated "order-1")
    | _ => accepted PEmpty
    end.

(** An exchange that accepts everything and reports, at the [n]-th query
    of the position, the [n]-th of the mark prices given (the last one
    from then on). *)
Definition markFeed (marks : list number) : Exchange :=
  fun h request =>
    match request with
    | GetPositionList symbol =>
        let n := length (List.filter isPositionQuery h) in
        accepted (PPositions [liveRow symbol (JsNumber.ofZ 10)
                                      (nth n marks (List.last marks (Fin 0)))])
    | PostCreateOrder _ => accepted (POrderCreated "order-1")
    | _ => accepted PEmpty
    end.

(** An exchange that answers the leverage request with the code given and
    accepts everything else. *)
Definition leverageAnswered (code : Z) : Exchange :=
  fun h request =>
    match request with
    | PostSetLeverage _ _ => Responded (envelopeResponse code "leverage" PEmpty)
    | GetPositionList symbol =>
        accepted (PPositions [liveRow symbol (JsNumber.ofZ 3333) (Fin (3 # 10))])
    | PostCreateOrder _ => accepted (POrderCreated "order-1")
    | _ => accepted PEmpty
    end.

(** The position of the worked example of the trailing stop: LONG, entry
    100, stop-loss 98, take-profits at 102, 104 and 106. *)
Definition trailingSignal : ParsedSignal :=
  {| pair := "SOL/USDT"; direction := LONG;
     entryZone := Price (JsNumber.ofZ 100);
     stopLoss := JsNumber.ofZ 98;
     takeProfits := [ {| level := 1; price := JsNumber.ofZ 102 |};
                      {| level := 2; price := JsNumber.ofZ 104 |};
                      {| level := 3; price := JsNumber.ofZ 106 |} ];
     confidence := JsNumber.ofZ 90 |}.

Definition trailingId : string := "SOL/USDT_1700000000000".

Definition trailingRegistry : gmap string Position :=
  fst (Manager.createPosition trailingSignal (Some "order-1") (JsNumber.ofZ 20)
         (JsNumber.ofZ 10) (JsNumber.ofZ 100) 1700000000000 ∅).

(** The mark prices of the worked example. *)
Definition exampleMarks : list number :=
  [JsNumber.ofZ 102; JsNumber.ofZ 103; JsNumber.ofZ 104; JsNumber.ofZ 105].

(** Operations of which every other one fails. *)
Definition flakyRun : Dispatcher.OpId -> Completion Payload :=
  fun op =>
    if Nat.even op then Threw (FetchFailed "socket hang up")
    else Returned (POrderCreated "order-1").

(** Three calls in one burst at time 1000; the first operation fails, and
    the second is started when its timeout expires. *)
Definition burstEvents : list Dispatcher.Event :=
  [Dispatcher.Call; Dispatcher.Call; Dispatcher.Call; Dispatcher.Settles 0;
   Dispatcher.Tick 100; Dispatcher.TimerFires 0].

Definition burstState : Dispatcher.State :=
  default (Dispatcher.initial 1000)
          (Dispatcher.steps flakyRun (Dispatcher.initial 1000) burstEvents).

End Scenarios.

(** ** The signal parser ([SignalParser]) *)

(** The parser reads a message with regular expressions and validates what
    they captured.  The regular expressions over the text of the message
    are not modelled; the take-profit ladder is modelled from the matches
    of [/(\d+)\s*-\s*([\d.,]+)/g] on, each match given by the level
    [parseInt] reads from its first capture and the price [parseFloat]
    reads from its second. *)

Module SignalParser.

Local Open Scope string_scope.
Local Open Scope list_scope.
Local Open Scope stdpp_scope.

(** *** [parseTakeProfits] *)

(** The failures of [parseTakeProfits], with the values its messages
    print. *)
Inductive TakeProfitsError : Type :=
| InvalidLevel (level : Z)
| InvalidPrice (price : number)
| NoLevels
| NotSequential (level : Z) (position : nat).

(** The loop over the matches: the first invalid level or price ends the
    parsing, a valid match is pushed on [takeProfits].  A level is a run
    of digits, which [parseInt] reads as an integer, never as [NaN]. *)
Fixpoint readMatches (matches : list (Z * number)) (takeProfits : list TakeProfitLevel)
  : TakeProfitsError + list TakeProfitLevel :=
  match matches with
  | [] => inr takeProfits
  | (level, price) :: rest =>
      if (level <=? 0)%Z then inl (InvalidLevel level)
      else if JsNumber.isNaN price || JsNumber.leb price (Fin 0)
      then inl (InvalidPrice price)
      else readMatches rest (takeProfits ++ [ {| level := level; price := price |} ])
  end.

(** [takeProfits.sort((a, b) => a.level - b.level)]: the sort of an array
    is stable, an entry stays before the later entries of its level. *)
Fixpoint insertByLevel (tp : TakeProfitLevel) (sorted : list TakeProfitLevel)
  : list TakeProfitLevel :=
  match sorted with
  | [] => [tp]
  | next :: rest =>
      if (level tp <=? level next)%Z then tp :: sorted
      else next :: insertByLevel tp rest
  end.

Definition sortByLevel (takeProfits : list TakeProfitLevel) : list TakeProfitLevel :=
  foldr insertByLevel [] takeProfits.

(** The loop that checks the levels from index [i] on: the first entry
    whose level is not its index plus one, with its position. *)
Fixpoint firstGap (i : nat) (takeProfits : list TakeProfitLevel) : option (Z * nat) :=
  match takeProfits with
  | [] => None
  | tp :: rest =>
      if (level tp =? Z.of_nat i + 1)%Z then firstGap (S i) rest
      else Some (level tp, S i)
  end.

Definition parseTakeProfits (matches : list (Z * number))
  : TakeProfitsError + list TakeProfitLevel :=
  match readMatches matches [] with
  | inl error => inl error
  | inr [] => inl NoLevels
  | inr takeProfits =>
      let sorted := sortByLevel takeProfits in
      match firstGap 0 sorted with
      | Some (level, position) => inl (NotSequential level position)
      | None => inr sorted
      end
  end.

(** *** [validateSignal] *)

Definition isUpper (c : Ascii.ascii) : bool :=
  (65 <=? Ascii.nat_of_ascii c)%nat && (Ascii.nat_of_ascii c <=? 90)%nat.

Fixpoint allUpper (s : string) : bool :=
  match s with
  | EmptyString => true
  | String c rest => isUpper c && allUpper rest
  end.

(** What is left of [s] after its longest prefix of capital letters. *)
Fixpoint afterUpper (s : string) : string :=
  match s with
  | EmptyString => EmptyString
  | String c rest => if isUpper c then afterUpper rest else s
  end.

(** [/^[A-Z]+\/[A-Z]+$/.test(pair)]: capital letters, a slash, capital
    letters, and nothing else. *)
Definition pairFormat (pair : string) : bool :=
  match pair with
  | EmptyString => false
  | String c rest =>
      isUpper c &&
      match afterUpper rest with
      | EmptyString => false
      | String slash quote =>
          Ascii.eqb slash (Ascii.ascii_of_nat 47)
          && negb (String.eqb quote "") && allUpper quote
      end
  end.

(** The entries of [errors], with the levels their messages print. *)
Inductive ValidationError : Type :=
| InvalidPairFormat
| EntryZoneNotPositive
| StopLossNotPositive
| ConfidenceOutOfRange
| LongNotLess (tp next : TakeProfitLevel)
| ShortNotGreater (tp next : TakeProfitLevel).

(** The loop over the pairs of neighbours of the ladder. *)
Fixpoint orderErrors (direction : Direction) (takeProfits : list TakeProfitLevel)
  : list ValidationError :=
  match takeProfits with
  | [] => []
  | tp :: rest =>
      match rest with
      | [] => []
      | next :: _ =>
          (match direction with
           | LONG => if JsNumber.geb (price tp) (price next) then [LongNotLess tp next] else []
           | SHORT => if JsNumber.leb (price tp) (price next) then [ShortNotGreater tp next] else []
           end) ++ orderErrors direction rest
      end
  end.

Definition signalErrors (signal : ParsedSignal) : list ValidationError :=
  (if pairFormat (pair signal) then [] else [InvalidPairFormat])
  ++ (match entryZone signal with
      | Market => []
      | Price entry => if JsNumber.leb entry (Fin 0) then [EntryZoneNotPositive] else []
      end)
  ++ (if JsNumber.leb (stopLoss signal) (Fin 0) then [StopLossNotPositive] else [])
  ++ (if JsNumber.ltb (confidence signal) (Fin 0)
         || JsNumber.gtb (confidence signal) (JsNumber.ofZ 100)
      then [ConfidenceOutOfRange] else [])
  ++ orderErrors (direction signal) (takeProfits signal).

Inductive Validation : Type :=
| Valid
| Invalid (errors : list ValidationError).

Definition validateSignal (signal : ParsedSignal) : Validation :=
  match signalErrors signal with
  | [] => Valid
  | errors => Invalid errors
  end.

(** *** Notions the properties are stated with *)

(** The level and the price of a match are ones the parser accepts. *)
Definition acceptable (m : Z * number) : Prop :=
  (0 < fst m)%Z /\ JsNumber.lt (Fin 0) (snd m).

Definition ofMatch (m : Z * number) : TakeProfitLevel :=
  {| level := fst m; price := snd m |}.

(** The prices of the ladder go strictly the way of the trade: up for
    LONG, down for SHORT. *)
Fixpoint ordered (direction : Direction) (takeProfits : list TakeProfitLevel) : Prop :=
  match takeProfits with
  | [] => True
  | tp :: rest =>
      match rest with
      | [] => True
      | next :: _ =>
          match direction with
          | LONG => JsNumber.geb (price tp) (price next) = false
          | SHORT => JsNumber.leb (price tp) (price next) = false
          end /\ ordered direction rest
      end
  end.

(** Every entry is at most the entries after it. *)
Fixpoint ascending (levels : list Z) : Prop :=
  match levels with
  | [] => True
  | l :: rest => Forall (Z.le l) rest /\ ascending rest
  end.

(** The levels that count up from the index [i]. *)
Definition countingFrom (i n : nat) : list Z :=
  (fun j => (Z.of_nat j + 1)%Z) <$> seq i n.

(** The price [next] is further the way of the trade than [price]. *)
Definition further (direction : Direction) (price next : number) : Prop :=
  match direction with
  | LONG => JsNumber.lt price next
  | SHORT => JsNumber.lt next price
  end.

End SignalParser.

(** ** What a call leaves in the history *)

Module Trace.
Import Client.

Local Open Scope list_scope.
Local Open Scope stdpp_scope.

(** The requests of a history, in the order they were sent. *)
Definition requests (h : History) : list Request :=
  omap (fun ev => match ev with Sent request => Some request | Slept _ => None end) h.

(** The time of the timeouts a history holds: the ones the methods of
    the client set themselves.  The waits of the request queue are not
    events of the history (module [Dispatcher] has them). *)
Definition slept (h : History) : Z :=
  foldr (fun ev total => match ev with Slept ms => (ms + total)%Z | Sent _ => total end)
        0%Z h.

(** From every history, the call adds at most [n] requests and at most
    [ms] milliseconds of timeouts of its own to it, and removes nothing
    from it. *)
Definition within {A : Type} (n : nat) (ms : Z) (m : M A) : Prop :=
  forall h, exists added,
    fst (m h) = h ++ added /\
    (length (requests added) <= n)%nat /\ (0 <= slept added <= ms)%Z.

(** The event is a stop-loss request for the symbol. *)
Definition isStopFor (bybitSymbol : string) (ev : Event) : Prop :=
  exists stopLoss, ev = Sent (PostTradingStop bybitSymbol stopLoss).





(** The query of the position and the stop-loss request of
    [executeTrade]. *)
Definition positionQuery (signal : ParsedSignal) : Event :=
  Sent (GetPositionList (convertSymbolToBybit (convertSymbolToBybit (pair signal)))).


(** The request of the market order that flattens the position [live]. *)
Definition flattenOrder (signal : ParsedSignal) (live : PositionInfo) : CreateOrder :=
  {| co_symbol := convertSymbolToBybit (convertSymbolToBybit (pair signal));
     co_side := oppositeSide (direction signal);
     co_orderType := MarketOrder;
     co_qty := JsNumber.floor (info_size live);
     co_price := None;
     co_timeInForce := IOC;
     co_reduceOnly := false |}.

(** What the rollback of [executeTrade] sends, by what its query of the
    position completes with. *)
Definition rollbackEvents (signal : ParsedSignal) (requery : Completion (option PositionInfo))
  : History :=
  match requery with
  | Returned (Some live) =>
      [positionQuery signal; Sent (PostCreateOrder (flattenOrder signal live))]
  | Returned None | Threw _ => [positionQuery signal]
  end.


End Trace.

(** ** What stays of a tracked position *)

Module Lifecycle.
Import Client Manager Trace.

Local Open Scope list_scope.
Local Open Scope stdpp_scope.

Definition rung (tp : TrackedLevel) : Z * number := (tp_level tp, tp_price tp).

Definition filledCount (position : Position) : nat :=
  length (List.filter tp_filled (pos_takeProfits position)).

(** [after] is the record of the trade [before] is the record of: the
    identity of the position, what was traded and the levels and prices of
    the ladder are the same, a level that was filled is filled, and a
    position that was COMPLETED is COMPLETED. *)
Record sameTrade (before after : Position) : Prop := {
  same_id : pos_id after = pos_id before;
  same_symbol : pos_symbol after = pos_symbol before;
  same_side : pos_side after = pos_side before;
  same_size : pos_size after = pos_size before;
  same_entryPrice : pos_entryPrice after = pos_entryPrice before;
  same_leverage : pos_leverage after = pos_leverage before;
  same_rungs : rung <$> pos_takeProfits after = rung <$> pos_takeProfits before;
  same_filled :
    forall (i : nat) (tp : TrackedLevel),
      pos_takeProfits before !! i = Some tp -> tp_filled tp = true ->
      exists tp1, pos_takeProfits after !! i = Some tp1 /\ tp_filled tp1 = true;
  same_completed : pos_status before = COMPLETED -> pos_status after = COMPLETED
}.

(** The prices the trailing of the stop-loss of [origin] can ask for, and
    the stop-loss it starts from. *)
Definition anchored (origin : Position) (stopLoss : number) : Prop :=
  stopLoss = pos_stopLoss origin \/ stopLoss = pos_entryPrice origin \/
  exists tp, tp ∈ pos_takeProfits origin /\ stopLoss = tp_price tp.

(** The stop-loss the hit of the level at index [i] of a dense ladder
    asks for: the entry price at the first level, the price of the level
    before at the others. *)
Definition trailTarget (position : Position) (i : nat) : number :=
  match i with
  | O => pos_entryPrice position
  | S j => default (pos_stopLoss position) (tp_price <$> pos_takeProfits position !! j)
  end.

(** The ladder with its first [k] levels marked filled. *)
Definition filledUpTo (levels : list TrackedLevel) (k : nat) : list TrackedLevel :=
  (markFilled <$> take k levels) ++ drop k levels.

(** The exchange accepts every stop-loss request. *)
Definition acceptsStops (ex : Exchange) : Prop :=
  forall h symbol stopLoss,
  exists payload,
    makeRequest ex (PostTradingStop symbol stopLoss) h
    = (h ++ [Sent (PostTradingStop symbol stopLoss)], Returned payload).

(** What a run of a method of the manager on a position leaves: the
    record of the same trade, a history longer by stop-loss requests for
    the symbol only, at most one for each level it marked filled, and a
    stop-loss that is the one before or a price the trailing asks for. *)
Record Traced (before : Position) (h : History) (after : Position) (h1 : History)
  : Prop := {
  traced_same : sameTrade before after;
  traced_status : pos_status after = pos_status before;
  traced_market : pos_currentPrice after = pos_currentPrice before /\
                  pos_pnl after = pos_pnl before;
  traced_anchored : anchored before (pos_stopLoss after);
  traced_stops :
    exists stops,
      h1 = h ++ stops /\
      Forall (isStopFor (convertSymbolToBybit (pos_symbol before))) stops /\
      (length stops + filledCount before <= filledCount after)%nat
}.

(** The registries the manager can come to hold: it starts with none,
    and positions are created, updated, closed and, by the cleanup,
    deleted. *)
Inductive managed : Registry -> Prop :=
| managed_empty : managed ∅
| managed_create (signal : ParsedSignal) (orderId : option string)
    (leverage positionSize actualEntryPrice : number) (now : Z) (positions : Registry) :
    managed positions ->
    managed (fst (createPosition signal orderId leverage positionSize actualEntryPrice
                    now positions))
| managed_update (ex : Exchange) (positionId : string) (positions : Registry)
    (h : History) :
    managed positions ->
    managed (fst (fst (updatePosition ex positionId positions h)))
| managed_close (ex : Exchange) (positionId reason : string) (positions : Registry)
    (h : History) :
    managed positions ->
    managed (fst (fst (closePosition ex positionId reason positions h)))
| managed_delete (positionId : string) (positions : Registry) :
    managed positions -> managed (delete positionId positions).

End Lifecycle.

(** ** The cleanup of old positions ([PositionManager.cleanupOldPositions]) *)

Module Cleanup.
Import Client Manager.

Local Open Scope list_scope.
Local Open Scope stdpp_scope.
Local Open Scope Z_scope.

(** A position object with its two [Date] fields, as milliseconds since
    the epoch. *)
Record DatedPosition : Type := {
  dated : Position;
  createdAt : Z;
  updatedAt : Z
}.

(** The default of [maxAge]: 24 hours. *)
Definition defaultMaxAge : Z := 24 * 60 * 60 * 1000.

(** The test of the loop. *)
Definition expired (cutoffTime : Z) (position : DatedPosition) : bool :=
  bool_decide (pos_status (dated position) = COMPLETED)
  && (updatedAt position <? cutoffTime).

(** The loop over the entries of the map, which deletes from the map it
    iterates. *)
Fixpoint sweep (cutoffTime : Z) (entries : list (string * DatedPosition))
    (positions : gmap string DatedPosition) (removedCount : nat)
  : gmap string DatedPosition * nat :=
  match entries with
  | [] => (positions, removedCount)
  | (id, position) :: rest =>
      if expired cutoffTime position
      then sweep cutoffTime rest (delete id positions) (S removedCount)
      else sweep cutoffTime rest positions removedCount
  end.

(** [now] is the reading of [Date.now()]. *)
Definition cleanupOldPositions (maxAge now : Z) (positions : gmap string DatedPosition)
  : gmap string DatedPosition * nat :=
  let cutoffTime := now - maxAge in
  sweep cutoffTime (map_to_list positions) positions 0.

End Cleanup.

(** ** The rate of the request queue *)

Module Rate.
Import Client Dispatcher.

Local Open Scope list_scope.
Local Open Scope stdpp_scope.
Local Open Scope Z_scope.

(** The number of operations of the dispatch log started at a time from
    [from] on and before [from + width]. *)
Definition startedWithin (log : list (OpId * Z)) (from width : Z) : nat :=
  length (List.filter (fun entry => (from <=? snd entry) && (snd entry <? from + width))
                      log).

End Rate.

(** ** More exchanges and inputs the properties are evaluated on *)

Module MoreScenarios.
Import Client Scenarios.

Local Open Scope string_scope.
Local Open Scope list_scope.
Local Open Scope stdpp_scope.


(** An exchange that fills market orders and refuses limit orders. *)
Definition refusesLimitOrders : Exchange :=
  fun h request =>
    match request with
    | PostCreateOrder params =>
        match co_orderType params with
        | MarketOrder => accepted (POrderCreated "order-1")
        | LimitOrder => refused 110017 "reduce-only rule not satisfied"
        end
    | GetPositionList symbol =>
        accepted (PPositions [liveRow symbol (Fin (33335 # 10)) (Fin (3 # 10))])
    | _ => accepted PEmpty
    end.


(** An exchange that reports, for every symbol, an empty position of the
    symbol, a position of another symbol and a position of the symbol of
    size 5, in this order. *)
Definition reportsThreeRows : Exchange :=
  fun h request =>
    match request with
    | GetPositionList symbol =>
        accepted (PPositions [liveRow symbol (Fin 0) (JsNumber.ofZ 100);
                              liveRow "ETHUSDT" (JsNumber.ofZ 7) (JsNumber.ofZ 2000);
                              liveRow symbol (JsNumber.ofZ 5) (JsNumber.ofZ 100)])
    | GetTickers symbol =>
        accepted (PTickers [ {| ticker_symbol := symbol;
                                ticker_lastPrice := JsNumber.ofZ 100 |} ])
    | _ => accepted PEmpty
    end.

(** An exchange that lists three open orders, two of them with a
    stop-loss, and refuses the cancellation of the order [sl-2]. *)
Definition refusesSecondCancel : Exchange :=
  fun h request =>
    match request with
    | GetOpenOrders _ =>
        accepted (POpenOrders [ {| row_orderId := "sl-1"; row_orderType := "Market";
                                   row_stopLoss := "98" |};
                                {| row_orderId := "tp-1"; row_orderType := "Limit";
                                   row_stopLoss := "" |};
                                {| row_orderId := "sl-2"; row_orderType := "Market";
                                   row_stopLoss := "97" |} ])
    | PostCancelOrder _ orderId =>
        if String.eqb orderId "sl-2" then refused 110001 "order not exists"
        else accepted PEmpty
    | _ => accepted PEmpty
    end.

(** An exchange the network fails to reach. *)
Definition unreachable : Exchange :=
  fun h request => Rejected "fetch failed".

(** An exchange that reports no position. *)
Definition reportsNoPosition : Exchange :=
  fun h request =>
    match request with
    | GetPositionList symbol => accepted (PPositions [])
    | GetOpenOrders _ => accepted (POpenOrders [])
    | PostCreateOrder _ => accepted (POrderCreated "order-1")
    | _ => accepted PEmpty
    end.

(** A registry of three dated positions, read 100 hours after the epoch:
    one COMPLETED and last updated 25 hours before, one COMPLETED and last
    updated 1 hour before, one ACTIVE and last updated 48 hours before. *)
Definition hour : Z := 60 * 60 * 1000.

Definition readingTime : Z := 100 * hour.

Definition trailingPosition : Position :=
  snd (Manager.createPosition trailingSignal (Some "order-1") (JsNumber.ofZ 20)
         (JsNumber.ofZ 10) (JsNumber.ofZ 100) 1700000000000 ∅).

Definition datedRegistry : gmap string Cleanup.DatedPosition :=
  <["stale" := {| Cleanup.dated := Manager.withStatus trailingPosition COMPLETED;
                  Cleanup.createdAt := 0; Cleanup.updatedAt := 75 * hour |}]>
  (<["fresh" := {| Cleanup.dated := Manager.withStatus trailingPosition COMPLETED;
                   Cleanup.createdAt := 0; Cleanup.updatedAt := 99 * hour |}]>
   (<["open" := {| Cleanup.dated := trailingPosition;
                   Cleanup.createdAt := 0; Cleanup.updatedAt := 52 * hour |}]> ∅)).

End MoreScenarios.

(** ** Poll updates that overlap ([PositionManager.startMonitoring]) *)

(** The monitor calls [updatePosition] from the callback of a timer, every
    10 seconds, and nothing keeps a tick from starting while the calls of
    the tick before still wait for the exchange: the calls then take turns
    at their [await]s, on the one position object of the registry.  A call
    waits at two places, for the position it asks the exchange for and for
    the stop-loss request of [adjustStopLoss].  Both are requests of the
    client, which sends the requests made to it one at a time, in the
    order they were made, and hands each answer to its caller before it
    sends the next (module [Dispatcher]); between two of its requests a
    call runs without interruption. *)

Module Overlap.
Import Client Manager.

Local Open Scope string_scope.
Local Open Scope list_scope.
Local Open Scope stdpp_scope.

(** What a call of [updatePosition] holds while its request waits: at
    [await this.bybitClient.getPosition(position.symbol)] the position it
    was called for; at [await this.bybitClient.setStopLoss(...)] also the
    two prices [checkTakeProfitHits] was called with, the index its loop
    is at, and the [newStopLoss] of [adjustStopLoss]. *)
Inductive Poll : Type :=
| AwaitsPosition (positionId : string)
| AwaitsStopLoss (positionId : string) (oldPrice newPrice : number) (index : nat)
    (newStopLoss : number).


(** The registry, what was sent to the exchange, and the calls whose
    requests wait, in the order the requests were made. *)
Record State : Type := {
  registry : Registry;
  sent : History;
  waiting : list Poll
}.


(** The loop of [checkTakeProfitHits] over the indices given, up to the
    first stop-loss request: the position as the loop leaves it and, when
    it leaves for a request, the index of the level hit and the stop-loss
    asked for.  A hit whose stop-loss [adjustStopLoss] does not ask for
    goes on with the loop. *)
Fixpoint checkFrom (indices : list nat) (position : Position)
    (oldPrice newPrice : number) : Position * option (nat * number) :=
  match indices with
  | [] => (position, None)
  | i :: rest =>
      match pos_takeProfits position !! i with
      | None => checkFrom rest position oldPrice newPrice
      | Some tp =>
          if tp_filled tp then checkFrom rest position oldPrice newPrice
          else if checkPriceHitLevel (pos_side position) oldPrice newPrice (tp_price tp)
          then
            let hit := withTakeProfits position
                         (<[i := markFilled tp]> (pos_takeProfits position)) in
            let candidate := newStopLoss hit (tp_level tp) in
            if shouldUpdate hit candidate then (hit, Some (i, candidate))
            else checkFrom rest hit oldPrice newPrice
          else checkFrom rest position oldPrice newPrice
      end
  end.

(** The call goes on with the loop from the index [from]: the position as
    it leaves it, and the call itself if it waits again. *)
Definition resume (positionId : string) (position : Position)
    (oldPrice newPrice : number) (from : nat) : Position * list Poll :=
  match checkFrom (seq from (length (pos_takeProfits position) - from))
                  position oldPrice newPrice with
  | (checked, Some (i, candidate)) =>
      (checked, [AwaitsStopLoss positionId oldPrice newPrice i candidate])
  | (checked, None) => (checked, [])
  end.

(** What happens: the monitor calls [updatePosition], or the client sends
    the request that waits first and hands its answer to the call. *)
Inductive Action : Type :=
| Starts (positionId : string)
| Answers.

Section WithExchange.

Variable exchange : Exchange.

(** The call that waits for the position is answered: it fails, or no
    position is open, or the position is priced and the loop of
    [checkTakeProfitHits] begins. *)
Definition positionAnswered (positionId : string) (rest : list Poll) (s : State) : State :=
  match registry s !! positionId with
  | None => {| registry := registry s; sent := sent s; waiting := rest |}
  | Some position =>
      match getPosition exchange (pos_symbol position) (sent s) with
      | (h1, Threw _) => {| registry := registry s; sent := h1; waiting := rest |}
      | (h1, Returned None) =>
          {| registry := <[positionId := withStatus position COMPLETED]> (registry s);
             sent := h1; waiting := rest |}
      | (h1, Returned (Some bybitPosition)) =>
          let oldPrice := pos_currentPrice position in
          let priced := withMarket position (info_markPrice bybitPosition)
                                   (info_unrealisedPnl bybitPosition) in
          match resume positionId priced oldPrice (pos_currentPrice priced) 0 with
          | (checked, next) =>
              {| registry := <[positionId := checked]> (registry s);
                 sent := h1; waiting := rest ++ next |}
          end
      end
  end.

(** The call that waits in [adjustStopLoss] is answered: when the request
    succeeded it stores its [newStopLoss], without comparing it again;
    then the loop goes on after the level it was at. *)
Definition stopLossAnswered (positionId : string) (oldPrice newPrice : number)
    (index : nat) (candidate : number) (rest : list Poll) (s : State) : State :=
  match registry s !! positionId with
  | None => {| registry := registry s; sent := sent s; waiting := rest |}
  | Some position =>
      match setStopLoss exchange (pos_symbol position) (pos_side position) candidate
                        (sent s) with
      | (h1, completion) =>
          let stored :=
            match completion with
            | Returned _ => withStopLoss position candidate
            | Threw _ => position
            end in
          match resume positionId stored oldPrice newPrice (S index) with
          | (checked, next) =>
              {| registry := <[positionId := checked]> (registry s);
                 sent := h1; waiting := rest ++ next |}
          end
      end
  end.

Definition react (s : State) (action : Action) : State :=
  match action with
  | Starts positionId =>
      match registry s !! positionId with
      | None => s
      | Some _ =>
          {| registry := registry s; sent := sent s;
             waiting := waiting s ++ [AwaitsPosition positionId] |}
      end
  | Answers =>
      match waiting s with
      | [] => s
      | AwaitsPosition positionId :: rest => positionAnswered positionId rest s
      | AwaitsStopLoss positionId oldPrice newPrice index candidate :: rest =>
          stopLossAnswered positionId oldPrice newPrice index candidate rest s
      end
  end.

Definition run (actions : list Action) (s : State) : State :=
  foldl react s actions.


End WithExchange.

(** *** Notions the properties are stated with *)


End Overlap.

(** Two calls of [updatePosition] for the position of the worked example,
    the second started while the first waits for the exchange; the first
    is answered with the mark price 105, the second with 107. *)
Module OverlapScenarios.
Import Client Manager Overlap Scenarios.

Local Open Scope list_scope.
Local Open Scope stdpp_scope.






End OverlapScenarios.

(** * Properties *)

(** ** Numbers *)

Module JsNumberFacts.
Import JsNumber.

Local Open Scope Q_scope.

Lemma Qeq_bool_false (a b : Q) : ~ a == b -> Qeq_bool a b = false.
Proof.
  intros H. destruct (Qeq_bool a b) eqn:E; [|reflexivity].
  apply Qeq_bool_iff in E. contradiction.
Qed.

Lemma Qle_bool_false (a b : Q) : b < a -> Qle_bool a b = false.
Proof.
  intros H. destruct (Qle_bool a b) eqn:E; [|reflexivity].
  apply Qle_bool_iff in E. lra.
Qed.

Lemma Qle_bool_true (a b : Q) : a <= b -> Qle_bool a b = true.
Proof. apply Qle_bool_iff. Qed.

Lemma Qcompare_gt (a b : Q) : b < a -> (a ?= b) = Gt.
Proof. apply Qgt_alt. Qed.

Lemma div_fin (a b : Q) : ~ b == 0 -> div (Fin a) (Fin b) = Fin (a / b).
Proof. intros H. unfold div. now rewrite Qeq_bool_false. Qed.

Lemma div_fin_zero_pos (a b : Q) : b == 0 -> 0 < a -> div (Fin a) (Fin b) = PosInf.
Proof.
  intros Hb Ha. unfold div.
  assert (E : Qeq_bool b 0 = true) by now apply Qeq_bool_iff.
  rewrite E, Qcompare_gt by assumption. reflexivity.
Qed.

Lemma min_fin (a b : Q) :
  min (Fin a) (Fin b) = Fin (if Qle_bool a b then a else b).
Proof. unfold min, leb. now destruct (Qle_bool a b). Qed.

Lemma max_fin (a b : Q) :
  max (Fin a) (Fin b) = Fin (if Qle_bool a b then b else a).
Proof. unfold max, leb. now destruct (Qle_bool a b). Qed.

Lemma roundHalfUp_comp (x y : Q) : x == y -> roundHalfUp x = roundHalfUp y.
Proof. intros H. unfold roundHalfUp. apply Qfloor_comp. now rewrite H. Qed.

Lemma toFixed6Q_comp (x y : Q) : x == y -> toFixed6Q x = toFixed6Q y.
Proof.
  intros H. unfold toFixed6Q.
  assert (Ha : Qabs x == Qabs y) by now rewrite H.
  rewrite (Qleb_comp _ _ (reflexivity (10 ^ 21)) _ _ Ha).
  rewrite (Qleb_comp _ _ (reflexivity 0) _ _ H).
  assert (Hn : - x == - y) by now rewrite H.
  rewrite (roundHalfUp_comp _ _ H), (roundHalfUp_comp _ _ Hn).
  destruct (Qle_bool (10 ^ 21) (Qabs y)); [now apply Qred_complete|].
  reflexivity.
Qed.

Lemma roundHalfUp_nonneg (x : Q) : 0 <= x -> (0 <= roundHalfUp x)%Z.
Proof.
  intros H. unfold roundHalfUp, fixedScale.
  change 0%Z with (Qfloor 0). apply Qfloor_resp_le. lra.
Qed.

(** The rounding gives a positive integer exactly from half a unit of the
    sixth decimal on. *)
Lemma roundHalfUp_pos_iff (x : Q) :
  (0 < roundHalfUp x)%Z <-> (1 # 2000000) <= x.
Proof.
  unfold roundHalfUp, fixedScale. split.
  - intros H.
    assert (H1 : inject_Z 1 <= inject_Z (Qfloor (x * 1000000 + (1 # 2)))).
    { rewrite <- Zle_Qle. lia. }
    pose proof (Qfloor_le (x * 1000000 + (1 # 2))) as H2.
    change (inject_Z 1) with 1 in H1. lra.
  - intros H.
    assert (H1 : (Qfloor 1 <= Qfloor (x * 1000000 + (1 # 2)))%Z).
    { apply Qfloor_resp_le. lra. }
    change (Qfloor 1) with 1%Z in H1. lia.
Qed.

Lemma toFixed6Q_nonneg (x : Q) : 0 <= x -> 0 <= toFixed6Q x.
Proof.
  intros H. unfold toFixed6Q.
  destruct (Qle_bool (10 ^ 21) (Qabs x)); [rewrite Qred_correct; exact H|].
  rewrite (Qle_bool_true 0 x H), Qred_correct.
  pose proof (roundHalfUp_nonneg x H) as Hz.
  apply Qle_shift_div_l; [reflexivity|].
  rewrite Zle_Qle in Hz. change (inject_Z 0) with 0 in Hz.
  unfold fixedScale. lra.
Qed.

Lemma toFixed6Q_pos_iff (x : Q) :
  0 <= x -> (0 < toFixed6Q x <-> (1 # 2000000) <= x).
Proof.
  intros H. unfold toFixed6Q.
  destruct (Qle_bool (10 ^ 21) (Qabs x)) eqn:E.
  - rewrite Qred_correct. apply Qle_bool_iff in E.
    rewrite Qabs_pos in E by exact H.
    assert (1 <= 10 ^ 21) by (vm_compute; discriminate).
    split; intros; lra.
  - rewrite (Qle_bool_true 0 x H), Qred_correct.
    rewrite <- roundHalfUp_pos_iff.
    split.
    + intros Hp.
      destruct (Z_lt_le_dec 0 (roundHalfUp x)) as [Hz|Hz]; [exact Hz|].
      exfalso. rewrite Zle_Qle in Hz. change (inject_Z 0) with 0 in Hz.
      assert (inject_Z (roundHalfUp x) / fixedScale <= 0).
      { apply Qle_shift_div_r; [reflexivity|]. lra. }
      lra.
    + intros Hz. apply Qlt_shift_div_l; [reflexivity|].
      rewrite Zlt_Qlt in Hz. change (inject_Z 0) with 0 in Hz. lra.
Qed.

Lemma ltb_trans (x y z : number) :
  ltb x y = true -> ltb y z = true -> ltb x z = true.
Proof.
  destruct x as [a| | |], y as [b| | |], z as [c| | |]; cbn;
    try discriminate; try reflexivity.
  rewrite !negb_true_iff. intros Hab Hbc.
  apply Qle_bool_false.
  destruct (Qlt_le_dec a b) as [L1|L1];
    [|apply Qle_bool_iff in L1; congruence].
  destruct (Qlt_le_dec b c) as [L2|L2];
    [|apply Qle_bool_iff in L2; congruence].
  lra.
Qed.

End JsNumberFacts.

(** * The arithmetic of binary64 *)

Module FloatFacts.
Import Binary64.
Local Open Scope float_scope.
Local Set Warnings "-inexact-float".

Lemma SFcompare_refl (s : spec_float) :
  s <> S754_nan -> SFcompare s s = Some Eq.
Proof.
  destruct s as [[]|[]| |[] m e]; intros H; try reflexivity; try congruence;
    cbn; rewrite Z.compare_refl, Pos.compare_cont_refl; reflexivity.
Qed.

Lemma is_nan_true (x : float) : is_nan x = true <-> Prim2SF x = S754_nan.
Proof.
  unfold is_nan. rewrite eqb_spec. unfold SFeqb. split.
  - intros H. destruct (Prim2SF x) eqn:E; try reflexivity;
      rewrite SFcompare_refl in H by discriminate; discriminate.
  - intros ->. reflexivity.
Qed.

Lemma is_nan_false (x : float) : is_nan x = false <-> Prim2SF x <> S754_nan.
Proof.
  rewrite <- is_nan_true. destruct (is_nan x); split; congruence.
Qed.

Lemma nan_eq (x : float) : Prim2SF x = S754_nan -> x = nan.
Proof. intros H. apply Prim2SF_inj. rewrite H. reflexivity. Qed.

Lemma infinity_eq (x : float) : Prim2SF x = S754_infinity false -> x = infinity.
Proof. intros H. apply Prim2SF_inj. rewrite H. reflexivity. Qed.

Lemma zero_eq (x : float) : Prim2SF x = S754_zero false -> x = 0.
Proof. intros H. apply Prim2SF_inj. rewrite H. reflexivity. Qed.

Lemma round_unsigned (m e : Z) (l : location) :
  unsignedSF (binary_round_aux prec emax false m e l).
Proof.
  unfold binary_round_aux.
  destruct (shr_fexp prec emax m e l) as [mrs1 e1].
  destruct (shr_fexp prec emax _ e1 loc_Exact) as [mrs2 e2].
  destruct (shr_m mrs2); [exact I| |exact I].
  destruct (e2 <=? emax - prec)%Z; exact I.
Qed.

Lemma mul_unsigned (x y : float) : unsigned x -> unsigned y -> unsigned (x * y).
Proof.
  unfold unsigned. rewrite mul_spec.
  destruct (Prim2SF x) as [[]|[]| |[] mx ex], (Prim2SF y) as [[]|[]| |[] my ey];
    intros Hx Hy; try contradiction; try exact I.
  apply round_unsigned.
Qed.

Lemma div_unsigned (x y : float) : unsigned x -> unsigned y -> unsigned (x / y).
Proof.
  unfold unsigned. rewrite div_spec.
  destruct (Prim2SF x) as [[]|[]| |[] mx ex], (Prim2SF y) as [[]|[]| |[] my ey];
    intros Hx Hy; try contradiction; try exact I.
  unfold SF64div, SFdiv.
  destruct (SFdiv_core_binary prec emax (Z.pos mx) ex (Z.pos my) ey) as [[mz ez] lz].
  apply round_unsigned.
Qed.


Lemma positive_unsigned (x : float) : (0 <? x) = true -> unsigned x.
Proof.
  unfold unsigned. rewrite ltb_spec. change (Prim2SF 0) with (S754_zero false).
  destruct (Prim2SF x) as [[]|[]| |[] m e]; cbn; intros H; try discriminate; exact I.
Qed.

Lemma unsigned_not_below_zero (x : float) : unsigned x -> (x <? 0) = false.
Proof.
  unfold unsigned. rewrite ltb_spec. change (Prim2SF 0) with (S754_zero false).
  destruct (Prim2SF x) as [[]|[]| |[] m e]; cbn; intros H; try contradiction; reflexivity.
Qed.

Lemma unsigned_nan_or_nonneg (x : float) :
  unsigned x -> is_nan x = true \/ (0 <=? x) = true.
Proof.
  unfold unsigned. rewrite is_nan_true, leb_spec. change (Prim2SF 0) with (S754_zero false).
  destruct (Prim2SF x) as [[]|[]| |[] m e]; cbn; intros H; try contradiction; auto.
Qed.


(** *** Tests on finite numbers *)

Lemma finite_tests (x : float) (s : bool) (m : positive) (e : Z) :
  Prim2SF x = S754_finite s m e ->
  is_nan x = false /\ is_infinity x = false /\ PrimFloat.is_zero x = false.
Proof.
  intros E. split; [apply is_nan_false; congruence|].
  unfold is_infinity, PrimFloat.is_zero. rewrite !eqb_spec, abs_spec, E.
  split; [reflexivity|]. change (Prim2SF zero) with (S754_zero false).
  destruct s; reflexivity.
Qed.

Lemma finite_isFinite (x : float) (s : bool) (m : positive) (e : Z) :
  Prim2SF x = S754_finite s m e -> isFinite x = true.
Proof.
  intros E. destruct (finite_tests x s m e E) as (Hn & Hi & _).
  unfold isFinite. now rewrite Hn, Hi.
Qed.

Lemma isFinite_cases (x : float) :
  isFinite x = true ->
  (exists s, Prim2SF x = S754_zero s) \/ (exists s m e, Prim2SF x = S754_finite s m e).
Proof.
  unfold isFinite, is_infinity. rewrite andb_true_iff, !negb_true_iff, is_nan_false.
  rewrite eqb_spec, abs_spec. change (Prim2SF infinity) with (S754_infinity false).
  destruct (Prim2SF x) as [s|s| |s m e]; intros [Hn Hi].
  - left. now exists s.
  - discriminate.
  - congruence.
  - right. now exists s, m, e.
Qed.

(** *** [Math.min] and [Math.max] *)






Lemma min_nan_l (y : float) : min nan y = nan.
Proof. reflexivity. Qed.

Lemma min_nan_r (x : float) : min x nan = nan.
Proof. unfold min. now rewrite orb_true_r. Qed.

Lemma max_nan_r (x : float) : max x nan = nan.
Proof. unfold max. now rewrite orb_true_r. Qed.

(** Two numbers neither of which is NaN or below the other are the same
    number or two zeros. *)
Lemma SFcompare_finite_eq (s1 s2 : bool) (m1 m2 : positive) (e1 e2 : Z) :
  SFcompare (S754_finite s1 m1 e1) (S754_finite s2 m2 e2) = Some Eq ->
  S754_finite s1 m1 e1 = S754_finite s2 m2 e2.
Proof.
  cbn. destruct s1, s2; try discriminate;
    destruct (Z.compare_spec e1 e2) as [->|?|?]; try discriminate;
    intros H; injection H as H.
  - apply (f_equal CompOpp) in H. rewrite CompOpp_involutive in H. cbn in H.
    apply Pos.compare_eq in H. now subst.
  - apply Pos.compare_eq in H. now subst.
Qed.

Lemma SFcompare_trichotomy (a b : spec_float) :
  a <> S754_nan -> b <> S754_nan ->
  SFcompare a b = Some Lt \/ SFcompare b a = Some Lt \/ SFcompare a b = Some Eq.
Proof.
  destruct a as [[]|[]| |[] ma ea], b as [[]|[]| |[] mb eb]; intros Ha Hb;
    try congruence; cbn; auto;
    destruct (Z.compare_spec ea eb) as [->|?|?];
    try (rewrite Z.compare_refl);
    try (destruct (Z.compare_spec eb ea); try lia); auto;
    rewrite !Pos.compare_cont_spec; cbn [Pos.switch_Eq];
    rewrite (Pos.compare_antisym ma mb); destruct (Pos.compare ma mb); cbn; auto.
Qed.

(** Of two numbers that are not NaN, the second a finite one that is not
    zero: one is below the other, or they are the same. *)
Lemma not_below_eq (x y : float) (s : bool) (m : positive) (e : Z) :
  Prim2SF y = S754_finite s m e -> is_nan x = false ->
  (x <? y) = false -> (y <? x) = false -> x = y.
Proof.
  intros Ey Hx H1 H2. apply Prim2SF_inj. apply is_nan_false in Hx.
  rewrite ltb_spec in H1, H2. unfold SFltb in H1, H2. rewrite Ey in *.
  destruct (SFcompare_trichotomy (Prim2SF x) (S754_finite s m e) Hx ltac:(discriminate))
    as [C|[C|C]]; rewrite C in *; try discriminate.
  destruct (Prim2SF x) as [[]|[]| |sx mx ex]; try discriminate;
    try (destruct s; discriminate).
  now apply SFcompare_finite_eq.
Qed.

Lemma max_one_cases (r : float) :
  max 1 r = nan \/ max 1 r = 1 \/ (max 1 r = r /\ (1 <? r) = true).
Proof.
  unfold max. destruct (is_nan 1 || is_nan r); [now left|].
  destruct (1 <? r); [now right; right|].
  destruct (r <? 1); now right; left.
Qed.

Lemma min_twenty_cases (m : float) :
  min 20 m = nan \/ min 20 m = 20 \/ (min 20 m = m /\ (m <? 20) = true).
Proof.
  unfold min. destruct (is_nan 20 || is_nan m) eqn:Hn; [now left|].
  destruct (20 <? m) eqn:H1; [now right; left|].
  destruct (m <? 20) eqn:H2; [now right; right|].
  right; left. change (classify 20) with FloatClass.PNormal. cbv iota.
  apply (not_below_eq m 20 false 5629499534213120 (-48)); auto.
Qed.


(** *** NaN through the operations *)

Lemma mul_nan_l (y : float) : nan * y = nan.
Proof. apply Prim2SF_inj. rewrite mul_spec. reflexivity. Qed.

Lemma mul_nan_r (x : float) : x * nan = nan.
Proof.
  apply Prim2SF_inj. rewrite mul_spec. change (Prim2SF nan) with S754_nan.
  now destruct (Prim2SF x).
Qed.

Lemma div_nan_l (y : float) : nan / y = nan.
Proof. apply Prim2SF_inj. rewrite div_spec. reflexivity. Qed.

Lemma div_nan_r (x : float) : x / nan = nan.
Proof.
  apply Prim2SF_inj. rewrite div_spec. change (Prim2SF nan) with S754_nan.
  now destruct (Prim2SF x).
Qed.

Lemma sub_nan_l (y : float) : nan - y = nan.
Proof. apply Prim2SF_inj. rewrite sub_spec. reflexivity. Qed.

Lemma sub_nan_r (x : float) : x - nan = nan.
Proof.
  apply Prim2SF_inj. rewrite sub_spec. change (Prim2SF nan) with S754_nan.
  now destruct (Prim2SF x).
Qed.

(** *** Integers *)

Lemma ofZ_unsigned (n : Z) : (0 <= n)%Z -> unsigned (ofZ n).
Proof.
  destruct n as [|p|p]; [intros _; exact I| |lia]. intros _.
  unfold unsigned, ofZ. rewrite of_uint63_spec.
  pose proof (Uint63.to_Z_bounded (Uint63.of_Z (Z.pos p))) as [Hb _].
  destruct (Uint63.to_Z (Uint63.of_Z (Z.pos p))) as [|q|q]; [exact I| |lia].
  unfold binary_normalize, binary_round.
  destruct (shl_align q 0 _) as [mz ez]. apply round_unsigned.
Qed.

Lemma toFixed6_unsigned (x : float) : unsigned x -> unsigned (toFixed6 x).
Proof.
  intros Hx. unfold toFixed6.
  destruct (negb (isFinite x)); [exact Hx|].
  destruct (0x1p33 <=? abs x); [exact Hx|].
  rewrite (unsigned_not_below_zero x Hx).
  apply div_unsigned; [|exact I]. apply ofZ_unsigned, JsNumberFacts.roundHalfUp_nonneg, Qabs_nonneg.
Qed.

(** *** The order of finite numbers *)

Lemma SFltb_finite (s1 s2 : bool) (m1 m2 : positive) (e1 e2 : Z) :
  SFltb (S754_finite s1 m1 e1) (S754_finite s2 m2 e2) = true ->
  match s1, s2 with
  | false, false => (e1 < e2 \/ e1 = e2 /\ Z.pos m1 < Z.pos m2)%Z
  | true, true => (e2 < e1 \/ e1 = e2 /\ Z.pos m2 < Z.pos m1)%Z
  | true, false => True
  | false, true => False
  end.
Proof.
  unfold SFltb. cbn. destruct s1, s2; try discriminate; try (intros _; exact I);
    destruct (Z.compare_spec e1 e2) as [->|?|?]; try discriminate; auto;
    rewrite Pos.compare_cont_spec; cbn [Pos.switch_Eq];
    destruct (Pos.compare_spec m1 m2); cbn; try discriminate; intros _; right; lia.
Qed.

Lemma SFleb_finite (m1 m2 : positive) (e1 e2 : Z) :
  SFleb (S754_finite false m1 e1) (S754_finite false m2 e2) = true -> (e1 <= e2)%Z.
Proof.
  unfold SFleb. cbn. destruct (Z.compare_spec e1 e2); try discriminate; lia.
Qed.

Lemma digits2_pos_bounds (m : positive) :
  (2 ^ (Z.pos (digits2_pos m) - 1) <= Z.pos m < 2 ^ Z.pos (digits2_pos m))%Z.
Proof.
  induction m as [m IH|m IH|]; cbn [digits2_pos]; [| |cbn; lia];
    rewrite Pos2Z.inj_succ;
    replace (Z.succ (Z.pos (digits2_pos m)) - 1)%Z
      with (Z.succ (Z.pos (digits2_pos m) - 1)) by lia;
    rewrite !Z.pow_succ_r by lia; lia.
Qed.

(** A finite number above the subnormal ones has a mantissa of 53 bits. *)
Lemma valid_normal (x : float) (s : bool) (m : positive) (e : Z) :
  Prim2SF x = S754_finite s m e -> (-1074 < e)%Z ->
  (4503599627370496 <= Z.pos m < 9007199254740992)%Z.
Proof.
  intros E He. pose proof (Prim2SF_valid x) as V. rewrite E in V.
  unfold SpecFloat.valid_binary, bounded, canonical_mantissa, fexp in V.
  change (SpecFloat.emin prec emax) with (-1074)%Z in V. change prec with 53%Z in V.
  apply andb_true_iff in V as [V _]. apply Z.eqb_eq in V.
  assert (D : Z.pos (digits2_pos m) = 53%Z) by lia.
  pose proof (digits2_pos_bounds m) as B. rewrite D in B.
  change (2 ^ (53 - 1))%Z with 4503599627370496%Z in B.
  change (2 ^ 53)%Z with 9007199254740992%Z in B. exact B.
Qed.

(** A number above 1 and below 20. *)
Lemma between_finite (r : float) :
  (1 <? r) = true -> (r <? 20) = true ->
  exists m e, Prim2SF r = S754_finite false m e /\
              (e < -48 \/ e = -48 /\ Z.pos m < 5629499534213120)%Z /\ (-52 <= e)%Z.
Proof.
  intros H1 H20. rewrite ltb_spec in H1, H20.
  change (Prim2SF 1) with (S754_finite false 4503599627370496 (-52)) in H1.
  change (Prim2SF 20) with (S754_finite false 5629499534213120 (-48)) in H20.
  destruct (Prim2SF r) as [[]|[]| |s m e] eqn:E; try discriminate.
  apply SFltb_finite in H1, H20. destruct s; [contradiction|].
  exists m, e. split; [reflexivity|]. split; [|lia]. destruct H20 as [?|[? ?]]; [left; lia|right; lia].
Qed.

(** [Math.floor] of a number above 1 and below 20. *)
Lemma floor_between (r : float) :
  (1 <? r) = true -> (r <? 20) = true ->
  exists k : Z, (1 <= k <= 19)%Z /\ floor r = ofZ k.
Proof.
  intros H1 H20. destruct (between_finite r H1 H20) as (m & e & E & Hup & Hlow).
  pose proof (valid_normal r false m e E ltac:(lia)) as Hm.
  destruct (finite_tests r false m e E) as (Hn & Hi & Hz).
  unfold floor, isFinite. rewrite Hn, Hi, Hz. cbn [negb andb].
  assert (Hbig : (0x1p52 <=? abs r) = false).
  { rewrite leb_spec, abs_spec, E.
    change (Prim2SF 0x1p52) with (S754_finite false 4503599627370496 0).
    destruct (SFleb _ _) eqn:L; [|reflexivity]. apply SFleb_finite in L. lia. }
  rewrite Hbig. unfold exact. rewrite E.
  destruct e as [|p|p]; try lia.
  exists (Z.pos m / Z.pos (2 ^ p))%Z. split; [|reflexivity].
  assert (Hp : (p = 48 \/ p = 49 \/ p = 50 \/ p = 51 \/ p = 52)%positive) by lia.
  destruct Hp as [->|[->|[->|[->| ->]]]];
    match goal with
    | |- context [Z.pos (2 ^ ?q)] =>
        let c := eval vm_compute in (Z.pos (2 ^ q)) in change (Z.pos (2 ^ q)) with c
    end;
    (split; [apply Z.div_le_lower_bound|apply Z.lt_succ_r, Z.div_lt_upper_bound]); lia.
Qed.


(** *** Zero and infinity through the operations *)

Lemma sub_self (x : float) : isFinite x = true -> x - x = 0.
Proof.
  intros H. apply Prim2SF_inj. rewrite sub_spec.
  destruct (isFinite_cases x H) as [[s ->]|(s & m & e & ->)].
  - now destruct s.
  - unfold SF64sub, SFsub. now rewrite Z.sub_diag.
Qed.

Lemma positive_cases (x : float) :
  (0 <? x) = true ->
  Prim2SF x = S754_infinity false \/ exists m e, Prim2SF x = S754_finite false m e.
Proof.
  rewrite ltb_spec. change (Prim2SF 0) with (S754_zero false).
  destruct (Prim2SF x) as [[]|[]| |[] m e]; cbn; intros H; try discriminate; eauto.
Qed.

Lemma unsigned_not_positive (x : float) :
  unsigned x -> (0 <? x) = false -> Prim2SF x = S754_nan \/ Prim2SF x = S754_zero false.
Proof.
  unfold unsigned. rewrite ltb_spec. change (Prim2SF 0) with (S754_zero false).
  destruct (Prim2SF x) as [[]|[]| |[] m e]; cbn; intros H1 H2;
    try contradiction; try discriminate; auto.
Qed.


Lemma div_zero_positive (x : float) : (0 <? x) = true -> x / 0 = infinity.
Proof.
  intros H. apply Prim2SF_inj. rewrite div_spec.
  now destruct (positive_cases x H) as [->|(m & e & ->)].
Qed.

Lemma div_zero_not_positive (x : float) :
  unsigned x -> (0 <? x) = false -> x / 0 = nan.
Proof.
  intros Hu H. apply Prim2SF_inj. rewrite div_spec.
  now destruct (unsigned_not_positive x Hu H) as [->| ->].
Qed.

Lemma infinity_mul_positive (x : float) : (0 <? x) = true -> infinity * x = infinity.
Proof.
  intros H. apply Prim2SF_inj. rewrite mul_spec.
  now destruct (positive_cases x H) as [->|(m & e & ->)].
Qed.

Lemma min_infinity_l (x : float) : min infinity x = x.
Proof.
  unfold min. change (is_nan infinity) with false. cbn [orb].
  destruct (is_nan x) eqn:Hn.
  - apply is_nan_true, nan_eq in Hn. now subst.
  - assert (H : (infinity <? x) = false).
    { rewrite ltb_spec. apply is_nan_false in Hn.
      change (Prim2SF infinity) with (S754_infinity false).
      destruct (Prim2SF x) as [[]|[]| |[] m e]; try reflexivity; congruence. }
    rewrite H. now destruct (x <? infinity).
Qed.

Lemma infinity_div_finite (x : float) :
  unsigned x -> isFinite x = true -> infinity / x = infinity.
Proof.
  unfold unsigned. intros Hu H. apply Prim2SF_inj. rewrite div_spec.
  destruct (isFinite_cases x H) as [[s E]|(s & m & e & E)]; rewrite E in *;
    destruct s; try contradiction; reflexivity.
Qed.

Lemma infinity_div_not_finite (x : float) :
  unsigned x -> isFinite x = false -> infinity / x = nan.
Proof.
  unfold unsigned. intros Hu H. apply Prim2SF_inj. rewrite div_spec.
  destruct (Prim2SF x) as [[]|[]| |[] m e] eqn:E; try contradiction; try reflexivity.
  - apply zero_eq in E. subst. discriminate.
  - rewrite (finite_isFinite x false m e E) in H. discriminate.
Qed.

(** *** [toFixed(6)] of a small number *)



(** *** Rounding gives a number *)














End FloatFacts.

(** * The sizing *)

Module Binary64Facts.
Import Binary64 FloatFacts.
Local Open Scope float_scope.
Local Set Warnings "-inexact-float".

Ltac nan_steps :=
  repeat first
    [ rewrite mul_nan_l | rewrite mul_nan_r | rewrite div_nan_l | rewrite div_nan_r
    | rewrite sub_nan_l | rewrite sub_nan_r | rewrite min_nan_l | rewrite min_nan_r
    | rewrite max_nan_r | progress change (abs nan) with nan ].

(** *** The leverage *)

Lemma ofZ_small_not_nan (k : Z) : (1 <= k <= 20)%Z -> is_nan (ofZ k) = false.
Proof.
  intros Hk.
  assert (H : (k = 1 \/ k = 2 \/ k = 3 \/ k = 4 \/ k = 5 \/ k = 6 \/ k = 7 \/ k = 8 \/
               k = 9 \/ k = 10 \/ k = 11 \/ k = 12 \/ k = 13 \/ k = 14 \/ k = 15 \/
               k = 16 \/ k = 17 \/ k = 18 \/ k = 19 \/ k = 20)%Z) by lia.
  repeat (destruct H as [->|H]; [reflexivity|]). now subst.
Qed.

(** What [Math.floor] makes of [Math.min(20, Math.max(1, r))]. *)
Lemma leverage_cases (r : float) :
  (min 20 (max 1 r) = nan /\ floor (min 20 (max 1 r)) = nan) \/
  (exists m e, Prim2SF (min 20 (max 1 r)) = S754_finite false m e) /\
  exists k : Z, (1 <= k <= 20)%Z /\ floor (min 20 (max 1 r)) = ofZ k.
Proof.
  destruct (max_one_cases r) as [->|[->|[-> H1]]].
  - left. split; reflexivity.
  - right. split; [now eexists _, _|]. exists 1%Z. split; [lia|reflexivity].
  - destruct (min_twenty_cases r) as [->|[->|[-> H20]]].
    + left. split; reflexivity.
    + right. split; [now eexists _, _|]. exists 20%Z. split; [lia|reflexivity].
    + destruct (floor_between r H1 H20) as (k & Hk & ->).
      destruct (between_finite r H1 H20) as (m & e & E & _).
      right. split; [now exists m, e|]. exists k. split; [lia|reflexivity].
Qed.

Section Steps.

Variables (entryZone : option float)
          (stopLoss portfolioValue portfolioPercentage currentPrice : float).

Lemma leverage_range :
  is_nan (snd (calculatePositionSize entryZone stopLoss portfolioValue portfolioPercentage
                 currentPrice)) = true \/
  exists k : Z,
    (1 <= k <= 20)%Z /\
    snd (calculatePositionSize entryZone stopLoss portfolioValue portfolioPercentage
           currentPrice) = ofZ k.
Proof.
  unfold calculatePositionSize, leverage, maxLeverage. cbn [snd].
  destruct (leverage_cases
              (positionValueUSDT entryZone stopLoss portfolioValue portfolioPercentage
                 currentPrice
               / actualMargin entryZone stopLoss portfolioValue portfolioPercentage
                   currentPrice))
    as [[_ ->]|[_ (k & Hk & ->)]].
  - now left.
  - right. now exists k.
Qed.

Lemma leverage_nan_size_nan :
  is_nan (snd (calculatePositionSize entryZone stopLoss portfolioValue portfolioPercentage
                 currentPrice)) = true ->
  fst (calculatePositionSize entryZone stopLoss portfolioValue portfolioPercentage
         currentPrice) = nan.
Proof.
  unfold calculatePositionSize, finalPositionSize, leverage, maxLeverage. cbn [fst snd].
  destruct (leverage_cases
              (positionValueUSDT entryZone stopLoss portfolioValue portfolioPercentage
                 currentPrice
               / actualMargin entryZone stopLoss portfolioValue portfolioPercentage
                   currentPrice))
    as [[-> _]|[_ (k & Hk & ->)]].
  - intros _. now nan_steps.
  - rewrite ofZ_small_not_nan by exact Hk. discriminate.
Qed.

(** NaN for [positionSizeInUnits] is NaN for the size and the leverage. *)
Lemma units_nan :
  positionSizeInUnits entryZone stopLoss portfolioValue portfolioPercentage currentPrice
  = nan ->
  calculatePositionSize entryZone stopLoss portfolioValue portfolioPercentage currentPrice
  = (nan, nan).
Proof.
  intros H.
  unfold calculatePositionSize, finalPositionSize, leverage, actualMargin, requiredMargin,
    positionValueUSDT.
  rewrite H. nan_steps. reflexivity.
Qed.

Lemma nan_input :
  is_nan portfolioValue = true \/ is_nan portfolioPercentage = true \/
  is_nan (entryPrice entryZone currentPrice) = true \/ is_nan stopLoss = true ->
  calculatePositionSize entryZone stopLoss portfolioValue portfolioPercentage currentPrice
  = (nan, nan).
Proof.
  intros H. apply units_nan.
  unfold positionSizeInUnits, riskPerUnit, stopLossDistance, riskAmount.
  rewrite !is_nan_true in H.
  destruct H as [H|[H|[H|H]]]; apply nan_eq in H; rewrite H.
  all: now nan_steps.
Qed.




End Steps.



(** The sizing with the stop-loss at the entry price. *)
Lemma zero_distance_steps (entryZone : option float)
    (portfolioValue portfolioPercentage currentPrice : float) :
  let entry := entryPrice entryZone currentPrice in
  isFinite entry = true -> (0 <? entry) = true ->
  unsigned portfolioValue -> unsigned portfolioPercentage ->
  riskPerUnit entryZone entry currentPrice = 0 /\
  if (0 <? riskAmount portfolioValue portfolioPercentage)
     && isFinite (availableForMargin portfolioValue)
  then positionSizeInUnits entryZone entry portfolioValue portfolioPercentage currentPrice
       = infinity /\
       calculatePositionSize entryZone entry portfolioValue portfolioPercentage currentPrice
       = (toFixed6 ((availableForMargin portfolioValue * 20) / entry), 20)
  else calculatePositionSize entryZone entry portfolioValue portfolioPercentage currentPrice
       = (nan, nan).
Proof.
  intros entry Hf He Hv Hp.
  assert (Hd : riskPerUnit entryZone entry currentPrice = 0).
  { unfold riskPerUnit, stopLossDistance. fold entry. now rewrite (sub_self entry Hf). }
  split; [exact Hd|].
  assert (Hr : unsigned (riskAmount portfolioValue portfolioPercentage)).
  { unfold riskAmount. apply div_unsigned; [|exact I]. now apply mul_unsigned. }
  assert (Ha : unsigned (availableForMargin portfolioValue)).
  { unfold availableForMargin. apply mul_unsigned; [exact Hv|exact I]. }
  destruct (0 <? riskAmount portfolioValue portfolioPercentage) eqn:Hpos; cbn [andb].
  - assert (Hu : positionSizeInUnits entryZone entry portfolioValue portfolioPercentage
                   currentPrice = infinity).
    { unfold positionSizeInUnits. rewrite Hd. now apply div_zero_positive. }
    assert (Hm : actualMargin entryZone entry portfolioValue portfolioPercentage currentPrice
                 = availableForMargin portfolioValue).
    { unfold actualMargin, requiredMargin, positionValueUSDT. fold entry.
      rewrite Hu, (infinity_mul_positive entry He).
      change (infinity / maxLeverage) with infinity. apply min_infinity_l. }
    assert (Hval : positionValueUSDT entryZone entry portfolioValue portfolioPercentage
                     currentPrice = infinity).
    { unfold positionValueUSDT. fold entry. now rewrite Hu, (infinity_mul_positive entry He). }
    destruct (isFinite (availableForMargin portfolioValue)) eqn:Hfin.
    + split; [exact Hu|].
      unfold calculatePositionSize, finalPositionSize, leverage. fold entry.
      rewrite Hm, Hval, (infinity_div_finite _ Ha Hfin). reflexivity.
    + unfold calculatePositionSize, finalPositionSize, leverage. fold entry.
      rewrite Hm, Hval, (infinity_div_not_finite _ Ha Hfin). nan_steps. reflexivity.
  - apply units_nan. unfold positionSizeInUnits. rewrite Hd.
    now apply div_zero_not_positive.
Qed.

End Binary64Facts.

Section SizingClaims.
Import Binary64 FloatFacts Binary64Facts.

Local Open Scope float_scope.

(* A decimal literal of binary64 stands for the float next to it. *)
Local Set Warnings "-inexact-float".

(** C3, as the code has it: [calculatePositionSize] has no failure path
    and no test of the risk distance.  With the stop-loss at an entry
    price that is finite and above zero, and portfolio value and risk
    percentage above zero, [riskPerUnit] is 0 and the division by it is
    performed.  When the risk amount is above zero and
    [availableForMargin] is finite, the quotient [positionSizeInUnits] is
    Infinity, and the function returns the leverage 20 and the size of
    the whole available margin at that leverage,
    [availableForMargin * 20 / entryPrice] with six decimals; otherwise
    (the risk amount has underflowed to 0, or [availableForMargin] is
    Infinity) it returns NaN for both. *)
Theorem calculatePositionSize_zero_distance
    (entryZone : option float) (portfolioValue portfolioPercentage currentPrice : float) :
  let entry := entryPrice entryZone currentPrice in
  isFinite entry = true -> (0 <? entry) = true ->
  (0 <? portfolioValue) = true -> (0 <? portfolioPercentage) = true ->
  riskPerUnit entryZone entry currentPrice = 0 /\
  if (0 <? riskAmount portfolioValue portfolioPercentage)
     && isFinite (availableForMargin portfolioValue)
  then positionSizeInUnits entryZone entry portfolioValue portfolioPercentage currentPrice
       = infinity /\
       calculatePositionSize entryZone entry portfolioValue portfolioPercentage currentPrice
       = (toFixed6 ((availableForMargin portfolioValue * 20) / entry), 20)
  else calculatePositionSize entryZone entry portfolioValue portfolioPercentage currentPrice
       = (nan, nan).
Proof.
  intros entry Hf He Hv Hp.
  apply zero_distance_steps; auto using positive_unsigned.
Qed.

(** A market entry at 100 with the stop-loss at 100, portfolio 1000 and
    risk 1%: the size is 800 * 20 / 100. *)
Lemma calculatePositionSize_zero_distance_witness :
  riskPerUnit None 100 100 = 0 /\
  positionSizeInUnits None 100 1000 1 100 = infinity /\
  calculatePositionSize None 100 1000 1 100 = (toFixed6 ((800 * 20) / 100), 20).
Proof.
  exact (calculatePositionSize_zero_distance None 1000 1 100
           eq_refl eq_refl eq_refl eq_refl).
Defined.

(** C3, the claim as stated fails.  With the stop-loss at the market
    price the risk distance is zero, the division is performed (the
    quotient is Infinity) and the function returns size 160 and leverage
    20 instead of failing; with portfolio value 0 on top it returns NaN
    for both, and with portfolio value 2^1023 and risk 2% the size
    Infinity. *)
Lemma calculatePositionSize_zero_distance_returns :
  riskPerUnit None 100 100 = 0 /\
  positionSizeInUnits None 100 1000 1 100 = infinity /\
  calculatePositionSize None 100 1000 1 100 = (160, 20) /\
  calculatePositionSize None 100 0 1 100 = (nan, nan) /\
  calculatePositionSize None 100 0x1p1023 2 100 = (infinity, 20).
Proof. repeat split; reflexivity. Qed.




(** The worked example of the documentation; the decimals stand for the
    floats next to them. *)
Example calculatePositionSize_documented_example :
  calculatePositionSize (Some 0.3) 0.297 1000 1 0 = (3333.333333, 20).
Proof. reflexivity. Qed.

End SizingClaims.

(** ** The exchange client *)

Module ClientFacts.
Import Client.

Local Open Scope list_scope.
Local Open Scope stdpp_scope.

(** *** Responses *)

Lemma isErrorCode_false_iff (code : Z) :
  isErrorCode code = false <->
  code = 0%Z \/ code = LEVERAGE_NOT_MODIFIED \/ code = NOT_MODIFIED.
Proof.
  unfold isErrorCode, LEVERAGE_NOT_MODIFIED, NOT_MODIFIED.
  destruct (Z.eqb_spec code 0), (Z.eqb_spec code 110043), (Z.eqb_spec code 34040);
    cbn; intuition (try lia; try discriminate).
Qed.

Lemma handleResponse_envelope (response : Response) (data : Envelope) :
  ok response = true -> parsed response = Some data ->
  handleResponse response =
    if isErrorCode (retCode data) then Threw (ParseFailed (text response))
    else Returned (result data).
Proof.
  intros Hok Hparsed. unfold handleResponse, readEnvelope.
  rewrite Hok, Hparsed. cbn. now destruct (isErrorCode (retCode data)).
Qed.

(** *** Calls that agree *)

Lemma agree_refl {A : Type} (m : M A) : agree m m.
Proof. intros h. reflexivity. Qed.

Lemma agree_bind {A B : Type} (m0 m1 : M A) (k0 k1 : A -> M B) :
  agree m0 m1 -> (forall a, agree (k0 a) (k1 a)) -> agree (bind m0 k0) (bind m1 k1).
Proof.
  intros Hm Hk h. unfold bind. rewrite Hm.
  destruct (m1 h) as [h1 [a|e]]; [apply Hk|reflexivity].
Qed.

Lemma agree_tryCatch {A : Type} (m0 m1 : M A) (k0 k1 : JsError -> M A) :
  agree m0 m1 -> (forall e, agree (k0 e) (k1 e)) ->
  agree (tryCatch m0 k0) (tryCatch m1 k1).
Proof.
  intros Hm Hk h. unfold tryCatch. rewrite Hm.
  destruct (m1 h) as [h1 [a|e]]; [reflexivity|apply Hk].
Qed.

Section Agreement.

Variables ex0 ex1 : Exchange.
Hypothesis Hagree : agreeButLeverage ex0 ex1.

Lemma makeRequest_agree (request : Request) :
  isSetLeverage request = false ->
  agree (makeRequest ex0 request) (makeRequest ex1 request).
Proof using Hagree.
  intros Hr h. unfold makeRequest, withRateLimit, makeRawRequest.
  now rewrite Hagree.
Qed.

Ltac agreement :=
  repeat first
    [ apply agree_refl
    | apply agree_bind; [|intros ?]
    | apply agree_tryCatch; [|intros ?]
    | apply makeRequest_agree; reflexivity
    | progress cbv beta zeta
    | match goal with
      | |- agree (match ?x with _ => _ end) (match ?x with _ => _ end) => destruct x
      | |- agree (if ?x then _ else _) (if ?x then _ else _) => destruct x
      end ].

Lemma getPosition_agree (symbol : string) :
  agree (getPosition ex0 symbol) (getPosition ex1 symbol).
Proof using Hagree. unfold getPosition. agreement. Qed.

Lemma getMarketPrice_agree (symbol : string) :
  agree (getMarketPrice ex0 symbol) (getMarketPrice ex1 symbol).
Proof using Hagree. unfold getMarketPrice. agreement. Qed.

Lemma placeMarketOrder_agree (order : TradeOrder) :
  agree (placeMarketOrder ex0 order) (placeMarketOrder ex1 order).
Proof using Hagree. unfold placeMarketOrder. agreement. Qed.

Lemma setStopLoss_agree (symbol : string) (side : Direction) (p : number) :
  agree (setStopLoss ex0 symbol side p) (setStopLoss ex1 symbol side p).
Proof using Hagree. unfold setStopLoss. agreement. Qed.

Lemma setTakeProfits_agree (symbol : string) (side : Direction)
    (tps : list TakeProfitLevel) (positionSize : number) :
  agree (setTakeProfits ex0 symbol side tps positionSize)
        (setTakeProfits ex1 symbol side tps positionSize).
Proof using Hagree. unfold setTakeProfits. agreement. Qed.

Lemma emergencyClosePosition_agree (symbol : string) (side : Direction) :
  agree (emergencyClosePosition ex0 symbol side)
        (emergencyClosePosition ex1 symbol side).
Proof using Hagree.
  unfold emergencyClosePosition.
  apply agree_bind; [apply getPosition_agree|intros position].
  destruct position; [|apply agree_refl].
  destruct (JsNumber.eqb _ _); [apply agree_refl|].
  apply agree_bind; [apply placeMarketOrder_agree|intros ?; apply agree_refl].
Qed.

Lemma setStopLossAttempts_agree (symbol : string) (signal : ParsedSignal)
    (attempts : list Z) :
  agree (setStopLossAttempts ex0 symbol signal attempts)
        (setStopLossAttempts ex1 symbol signal attempts).
Proof using Hagree.
  induction attempts as [|attempt rest IH]; [apply agree_refl|].
  cbn [setStopLossAttempts].
  apply agree_tryCatch.
  - apply agree_bind; [apply setStopLoss_agree|intros ?; apply agree_refl].
  - intros e. destruct (attempt =? 3)%Z; [apply agree_refl|].
    apply agree_bind; [apply agree_refl|intros ?; exact IH].
Qed.

Lemma protectTrade_agree (signal : ParsedSignal) (currentPrice : number)
    (sized : Sizing.SizeResult) (orderResponse : OrderResponse) :
  agree (protectTrade ex0 signal currentPrice sized orderResponse)
        (protectTrade ex1 signal currentPrice sized orderResponse).
Proof using Hagree.
  unfold protectTrade. cbv zeta.
  apply agree_bind; [apply agree_refl|intros _].
  apply agree_bind; [apply getPosition_agree|intros position].
  destruct position; [|apply agree_refl].
  destruct (JsNumber.eqb _ _); [apply agree_refl|].
  apply agree_bind; [apply setStopLossAttempts_agree|intros _].
  apply agree_bind; [apply setTakeProfits_agree|intros _].
  apply agree_refl.
Qed.

Lemma rollback_agree (signal : ParsedSignal) (orderResponse : option OrderResponse) :
  agree (rollback ex0 signal orderResponse) (rollback ex1 signal orderResponse).
Proof using Hagree.
  unfold rollback. destruct orderResponse; [|apply agree_refl].
  apply agree_tryCatch; [apply emergencyClosePosition_agree|intros ?; apply agree_refl].
Qed.

End Agreement.

(** A leverage request answered under HTTP status ok with a code that is
    not an error code completes normally. *)
Lemma setLeverage_accepted (ex : Exchange) (code : Z) (symbol : string)
    (leverage : number) (h : History) :
  answersLeverageWith ex code -> isErrorCode code = false ->
  setLeverage ex symbol leverage h
  = (h ++ [Sent (PostSetLeverage (convertSymbolToBybit symbol) leverage)], Returned tt).
Proof.
  intros Hans Hcode.
  destruct (Hans h (convertSymbolToBybit symbol) leverage)
    as (response & data & Hex & Hok & Hparsed & Hret).
  unfold setLeverage, bind, makeRequest, withRateLimit, makeRawRequest.
  rewrite Hex, (handleResponse_envelope _ _ Hok Hparsed), Hret, Hcode.
  reflexivity.
Qed.

(** *** What a call sends *)

Section ClientRuns.
Variable ex : Exchange.

Lemma makeRequest_run (request : Request) (h : History) :
  exists c, makeRequest ex request h = (h ++ [Sent request], c).
Proof. eexists. reflexivity. Qed.

Lemma setStopLoss_run (symbol : string) (side : Direction) (p : number) (h : History) :
  exists c,
    setStopLoss ex symbol side p h
    = (h ++ [Sent (PostTradingStop (convertSymbolToBybit symbol) p)], c).
Proof.
  unfold setStopLoss, bind.
  destruct (makeRequest_run (PostTradingStop (convertSymbolToBybit symbol) p) h)
    as [c Hc].
  rewrite Hc. destruct c; eexists; reflexivity.
Qed.

Lemma placeMarketOrder_run (order : TradeOrder) (h : History) :
  exists c,
    placeMarketOrder ex order h
    = (h ++ [Sent (PostCreateOrder (marketOrderParams order))], c).
Proof.
  unfold placeMarketOrder, bind.
  destruct (makeRequest_run (PostCreateOrder (marketOrderParams order)) h) as [c Hc].
  rewrite Hc. destruct c as [[]|]; eexists; reflexivity.
Qed.

Lemma getPosition_run (symbol : string) (h : History) :
  exists c,
    getPosition ex symbol h
    = (h ++ [Sent (GetPositionList (convertSymbolToBybit symbol))], c).
Proof.
  unfold getPosition, bind.
  destruct (makeRequest_run (GetPositionList (convertSymbolToBybit symbol)) h)
    as [c Hc].
  rewrite Hc. destruct c as [[]|]; eexists; reflexivity.
Qed.

(** A position [getPosition] returns has a size above zero. *)
Lemma getPosition_live (symbol : string) (h h1 : History) (live : PositionInfo) :
  getPosition ex symbol h = (h1, Returned (Some live)) ->
  JsNumber.eqb (info_size live) (Fin 0) = false.
Proof.
  unfold getPosition, bind.
  destruct (makeRequest ex _ h) as [h0 [payload|e]]; [|discriminate].
  destruct payload; cbn; try discriminate.
  intros H. injection H as _ H.
  destruct (list_find _ rows) as [[i p]|] eqn:E; [|discriminate].
  cbn in H. injection H as ->.
  apply list_find_Some in E as (_ & Hp & _).
  apply andb_true_iff in Hp as [_ Hp].
  destruct (info_size live) as [q| | |]; try reflexivity; try discriminate.
  unfold JsNumber.gtb, JsNumber.ltb in Hp. unfold JsNumber.eqb.
  apply negb_true_iff in Hp.
  destruct (Qeq_bool q 0) eqn:Eq; [|reflexivity].
  apply Qeq_bool_iff in Eq.
  assert (Qle_bool q 0 = true) by (apply Qle_bool_iff; rewrite Eq; apply Qle_refl).
  congruence.
Qed.

Lemma setStopLossAttempts_step (symbol : string) (signal : ParsedSignal)
    (attempt : Z) (rest : list Z) (h : History) :
  setStopLossAttempts ex symbol signal (attempt :: rest) h =
    match setStopLoss ex symbol (direction signal) (stopLoss signal) h with
    | (h1, Returned _) => (h1, Returned true)
    | (h1, Threw e) =>
        if (attempt =? 3)%Z then (h1, Threw (StopLossFailed (message e)))
        else setStopLossAttempts ex symbol signal rest (h1 ++ [Slept (1000 * attempt)])
    end.
Proof.
  cbn [setStopLossAttempts]. unfold tryCatch, bind.
  destruct (setStopLoss ex symbol (direction signal) (stopLoss signal) h)
    as [h1 [[]|e]]; [reflexivity|].
  destruct (attempt =? 3)%Z; reflexivity.
Qed.

(** The retry loop throws only after three failed attempts, one second
    and two seconds apart, and then throws the stop-loss failure made of
    the message of the last one. *)
Lemma setStopLossAttempts_threw (symbol : string) (signal : ParsedSignal)
    (h h3 : History) (e : JsError) :
  setStopLossAttempts ex symbol signal [1; 2; 3]%Z h = (h3, Threw e) ->
  let request := Sent (PostTradingStop (convertSymbolToBybit symbol) (stopLoss signal)) in
  let hA := h ++ [request; Slept 1000] in
  let hB := h ++ [request; Slept 1000; request; Slept 2000] in
  exists e1 e2 e3,
    setStopLoss ex symbol (direction signal) (stopLoss signal) h
    = (h ++ [request], Threw e1) /\
    setStopLoss ex symbol (direction signal) (stopLoss signal) hA
    = (hA ++ [request], Threw e2) /\
    setStopLoss ex symbol (direction signal) (stopLoss signal) hB
    = (hB ++ [request], Threw e3) /\
    h3 = h ++ [request; Slept 1000; request; Slept 2000; request] /\
    e = StopLossFailed (message e3).
Proof.
  intros H request hA hB.
  destruct (setStopLoss_run symbol (direction signal) (stopLoss signal) h) as [c1 H1].
  fold request in H1. rewrite setStopLossAttempts_step, H1 in H.
  destruct c1 as [|e1]; [discriminate|].
  change (1 =? 3)%Z with false in H. cbv iota in H.
  replace ((h ++ [request]) ++ [Slept (1000 * 1)]) with hA in H
    by (unfold hA; now rewrite <- (assoc_L (++))).
  destruct (setStopLoss_run symbol (direction signal) (stopLoss signal) hA) as [c2 H2].
  fold request in H2. rewrite setStopLossAttempts_step, H2 in H.
  destruct c2 as [|e2]; [discriminate|].
  change (2 =? 3)%Z with false in H. cbv iota in H.
  replace ((hA ++ [request]) ++ [Slept (1000 * 2)]) with hB in H
    by (unfold hA, hB; now rewrite <- !(assoc_L (++))).
  destruct (setStopLoss_run symbol (direction signal) (stopLoss signal) hB) as [c3 H3].
  fold request in H3. rewrite setStopLossAttempts_step, H3 in H.
  destruct c3 as [|e3]; [discriminate|].
  change (3 =? 3)%Z with true in H. cbv iota in H.
  injection H as <- <-.
  exists e1, e2, e3. repeat split; try assumption.
  unfold hB. now rewrite <- (assoc_L (++)).
Qed.

End ClientRuns.

End ClientFacts.


Section ClientClaims.
Import Client ClientFacts Scenarios SizingExamples.

Local Open Scope list_scope.
Local Open Scope stdpp_scope.

(** C4: for a response that carries an envelope (HTTP status ok, a body
    that parses), [handleResponse] returns the payload of the envelope if
    and only if the result code is 0, 110043 or 34040, and throws for
    every other code; and [executeTrade] does the same, request for
    request and to the same completion, against two exchanges that differ
    only in answering the leverage request with code 0 or with the
    "leverage not modified" code 110043. *)
Theorem handleResponse_idempotent_codes :
  (forall (response : Response) (data : Envelope),
     ok response = true -> parsed response = Some data ->
     ((exists payload, handleResponse response = Returned payload) <->
      (retCode data = 0%Z \/ retCode data = 110043%Z \/ retCode data = 34040%Z)) /\
     (retCode data = 0%Z \/ retCode data = 110043%Z \/ retCode data = 34040%Z ->
      handleResponse response = Returned (result data)) /\
     (~ (retCode data = 0%Z \/ retCode data = 110043%Z \/ retCode data = 34040%Z) ->
      exists e, handleResponse response = Threw e)) /\
  (forall (ex0 ex1 : Exchange) (signal : ParsedSignal) (pv pct : number) (h : History),
     agreeButLeverage ex0 ex1 ->
     answersLeverageWith ex0 0 -> answersLeverageWith ex1 110043 ->
     executeTrade ex0 signal pv pct h = executeTrade ex1 signal pv pct h).
Proof.
  split.
  - intros response data Hok Hparsed.
    rewrite (handleResponse_envelope _ _ Hok Hparsed).
    pose proof (isErrorCode_false_iff (retCode data)) as Hcode.
    unfold LEVERAGE_NOT_MODIFIED, NOT_MODIFIED in Hcode.
    destruct (isErrorCode (retCode data)).
    + assert (Hn : ~ (retCode data = 0%Z \/ retCode data = 110043%Z
                      \/ retCode data = 34040%Z)).
      { intros H. apply Hcode in H. discriminate. }
      split; [|split].
      * split; [intros [payload H]; discriminate|intros H; contradiction].
      * intros H. contradiction.
      * intros _. eexists. reflexivity.
    + assert (Hy : retCode data = 0%Z \/ retCode data = 110043%Z
                   \/ retCode data = 34040%Z) by now apply Hcode.
      split; [|split].
      * split; [intros _; exact Hy|intros _; eexists; reflexivity].
      * intros _. reflexivity.
      * intros H. contradiction.
  - intros ex0 ex1 signal pv pct h Hagree H0 H1.
    unfold executeTrade, executeTradeTry.
    assert (Hlev : forall symbol leverage,
              agree (setLeverage ex0 symbol leverage) (setLeverage ex1 symbol leverage)).
    { intros symbol leverage h0.
      rewrite (setLeverage_accepted ex0 0) by (assumption || reflexivity).
      rewrite (setLeverage_accepted ex1 110043) by (assumption || reflexivity).
      reflexivity. }
    assert (Hopen : openTrade ex0 signal pv pct h = openTrade ex1 signal pv pct h).
    { revert h. change (agree (openTrade ex0 signal pv pct) (openTrade ex1 signal pv pct)).
      unfold openTrade. cbv zeta. apply agree_bind.
      - destruct (entryZone signal);
          [apply getMarketPrice_agree; exact Hagree|apply agree_refl].
      - intros currentPrice. apply agree_bind; [apply Hlev|intros _].
        apply agree_bind; [apply placeMarketOrder_agree; exact Hagree|].
        intros orderResponse. apply agree_refl. }
    rewrite Hopen.
    destruct (openTrade ex1 signal pv pct h) as [h1 [[[currentPrice sized] orderResponse]|e]].
    + rewrite (protectTrade_agree ex0 ex1 Hagree).
      destruct (protectTrade ex1 signal currentPrice sized orderResponse h1)
        as [h2 [traded|e]]; [reflexivity|].
      unfold bind. rewrite (rollback_agree ex0 ex1 Hagree). reflexivity.
    + reflexivity.
Qed.

Lemma leverageAnswered_agree (code0 code1 : Z) :
  agreeButLeverage (leverageAnswered code0) (leverageAnswered code1).
Proof. intros h request Hr. destruct request; (discriminate || reflexivity). Defined.

Lemma leverageAnswered_answers (code : Z) :
  answersLeverageWith (leverageAnswered code) code.
Proof.
  intros h symbol leverage. eexists. eexists.
  split; [reflexivity|]. split; [reflexivity|]. split; reflexivity.
Defined.

Lemma handleResponse_idempotent_codes_witness :
  handleResponse (envelopeResponse 110043 "leverage not modified" PEmpty)
  = Returned PEmpty /\
  executeTrade (leverageAnswered 0) ladderLong (JsNumber.ofZ 1000) (JsNumber.ofZ 1) []
  = executeTrade (leverageAnswered 110043) ladderLong (JsNumber.ofZ 1000) (JsNumber.ofZ 1) [].
Proof.
  destruct handleResponse_idempotent_codes as [Hcodes Hpath]. split.
  - destruct (Hcodes (envelopeResponse 110043 "leverage not modified" PEmpty)
                {| retCode := 110043; retMsg := "leverage not modified"; result := PEmpty |}
                eq_refl eq_refl) as (_ & Hreturned & _).
    apply Hreturned. right. left. reflexivity.
  - apply Hpath.
    + apply leverageAnswered_agree.
    + apply leverageAnswered_answers.
    + apply leverageAnswered_answers.
Defined.

(** C10: for a ladder that is not empty [setTakeProfits] sends exactly one
    request, the creation of a reduce-only limit order at the price of the
    last entry of the ladder for the floor of the position size, on the
    side that closes the position, and completes as that request does;
    for the empty ladder it sends nothing and returns. *)
Theorem setTakeProfits_single_order
    (ex : Exchange) (symbol : string) (side : Direction)
    (tps : list TakeProfitLevel) (positionSize : number) (h : History) :
  (tps = [] ->
   setTakeProfits ex symbol side tps positionSize h = (h, Returned tt)) /\
  (forall (lower : list TakeProfitLevel) (highestTP : TakeProfitLevel),
     tps = lower ++ [highestTP] ->
     let order :=
       {| co_symbol := symbol;
          co_side := match side with LONG => Sell | SHORT => Buy end;
          co_orderType := LimitOrder;
          co_qty := JsNumber.floor positionSize;
          co_price := Some (price highestTP);
          co_timeInForce := GTC;
          co_reduceOnly := true |} in
     fst (setTakeProfits ex symbol side tps positionSize h)
     = h ++ [Sent (PostCreateOrder order)] /\
     snd (setTakeProfits ex symbol side tps positionSize h)
     = match snd (makeRequest ex (PostCreateOrder order) h) with
       | Returned _ => Returned tt
       | Threw e => Threw e
       end).
Proof.
  split.
  - intros ->. reflexivity.
  - intros lower highestTP -> order.
    unfold setTakeProfits. rewrite last_snoc.
    unfold tryCatch, bind, takeProfitParams, oppositeSide. fold order.
    destruct (makeRequest_run ex (PostCreateOrder order) h) as [c Hc].
    rewrite Hc. destruct c; split; reflexivity.
Qed.

Lemma setTakeProfits_single_order_witness :
  setTakeProfits acceptsAll "XRPUSDT" LONG [] (Fin (33335 # 10)) []
  = ([], Returned tt) /\
  fst (setTakeProfits acceptsAll "XRPUSDT" LONG (takeProfits ladderLong)
         (Fin (33335 # 10)) [])
  = [Sent (PostCreateOrder
             {| co_symbol := "XRPUSDT"; co_side := Sell; co_orderType := LimitOrder;
                co_qty := JsNumber.ofZ 3333; co_price := Some (Fin (320 # 1000));
                co_timeInForce := GTC; co_reduceOnly := true |})].
Proof.
  split.
  - apply (setTakeProfits_single_order acceptsAll "XRPUSDT" LONG []
             (Fin (33335 # 10)) []). reflexivity.
  - destruct (setTakeProfits_single_order acceptsAll "XRPUSDT" LONG
                (takeProfits ladderLong) (Fin (33335 # 10)) []) as [_ Hsome].
    destruct (Hsome [ {| level := 1; price := Fin (310 # 1000) |} ]
                {| level := 2; price := Fin (320 # 1000) |} eq_refl) as [Hsent _].
    exact Hsent.
Defined.

End ClientClaims.

Section RollbackClaim.
Import Client ClientFacts Scenarios SizingExamples.

Local Open Scope list_scope.
Local Open Scope stdpp_scope.

(** C1, as the code has it: when the market order has been placed, the
    fill has been verified and the stop-loss has failed three times,
    [executeTrade] runs the rollback once: it queries the live position
    once more and, if that query returns a position, sends a single market
    order on the opposite side for the floor of the size just queried; if
    the query returns no position or throws, it sends no order.  Whatever
    the rollback does, and whether its order succeeds or not, the error
    thrown to the caller is the stop-loss failure. *)
Theorem executeTrade_stop_loss_rollback
    (ex : Exchange) (signal : ParsedSignal) (pv pct : number)
    (h h1 h2 h3 : History) (currentPrice : number) (sized : Sizing.SizeResult)
    (orderResponse : OrderResponse) (position : PositionInfo) (e : JsError) :
  let bybitSymbol := convertSymbolToBybit (pair signal) in
  let stop := Sent (PostTradingStop (convertSymbolToBybit bybitSymbol) (stopLoss signal)) in
  let query := Sent (GetPositionList (convertSymbolToBybit bybitSymbol)) in
  openTrade ex signal pv pct h = (h1, Returned (currentPrice, sized, orderResponse)) ->
  getPosition ex bybitSymbol (h1 ++ [Slept 3000]) = (h2, Returned (Some position)) ->
  setStopLossAttempts ex bybitSymbol signal [1; 2; 3]%Z h2 = (h3, Threw e) ->
  (exists lastError, e = StopLossFailed lastError) /\
  h3 = h2 ++ [stop; Slept 1000; stop; Slept 2000; stop] /\
  exists requery,
    getPosition ex bybitSymbol h3 = (h3 ++ [query], requery) /\
    executeTrade ex signal pv pct h =
      (match requery with
       | Returned (Some live) =>
           h3 ++ [query;
                  Sent (PostCreateOrder
                          {| co_symbol := convertSymbolToBybit bybitSymbol;
                             co_side := match direction signal with
                                        | LONG => Sell
                                        | SHORT => Buy
                                        end;
                             co_orderType := MarketOrder;
                             co_qty := JsNumber.floor (info_size live);
                             co_price := None;
                             co_timeInForce := IOC;
                             co_reduceOnly := false |})]
       | Returned None | Threw _ => h3 ++ [query]
       end, Threw e).
Proof.
  intros bybitSymbol stop query Hopen Hfill Hstop.
  destruct (setStopLossAttempts_threw ex bybitSymbol signal h2 h3 e Hstop)
    as (e1 & e2 & e3 & _ & _ & _ & Hh3 & He).
  split; [exists (message e3); exact He|].
  split; [exact Hh3|].
  destruct (getPosition_run ex bybitSymbol h3) as [requery Hq].
  exists requery. split; [exact Hq|].
  unfold executeTrade, executeTradeTry. rewrite Hopen.
  unfold protectTrade. cbv zeta. unfold bind at 1. unfold sleep.
  fold bybitSymbol. unfold bind at 1. rewrite Hfill.
  rewrite (getPosition_live ex _ _ _ _ Hfill).
  unfold bind at 1. rewrite Hstop.
  unfold bind at 1. unfold rollback, tryCatch, emergencyClosePosition.
  fold bybitSymbol. unfold bind at 1. rewrite Hq. fold query.
  destruct requery as [[live|]|eq]; try reflexivity.
  rewrite (getPosition_live ex _ _ _ _ Hq).
  unfold bind at 1.
  match goal with
  | |- context [placeMarketOrder ex ?o ?hh] =>
      destruct (placeMarketOrder_run ex o hh) as [c Hc]; rewrite Hc
  end.
  unfold marketOrderParams, oppositeSide. cbn [order_symbol order_side order_qty].
  rewrite <- (assoc_L (++)). cbn [app].
  destruct c; reflexivity.
Qed.

(** The run of the documented example against an exchange that refuses
    every stop-loss and keeps reporting the position: the flattening order
    is a Sell of 3333, the floor of the size 3333.5 reported. *)
Lemma executeTrade_stop_loss_rollback_witness :
  let bybitSymbol := "XRPUSDT"%string in
  let stop := Sent (PostTradingStop bybitSymbol (Fin (297 # 1000))) in
  let query := Sent (GetPositionList bybitSymbol) in
  let entry :=
    {| co_symbol := bybitSymbol; co_side := Buy; co_orderType := MarketOrder;
       co_qty := JsNumber.ofZ 3333; co_price := None; co_timeInForce := IOC;
       co_reduceOnly := false |} in
  let flatten :=
    {| co_symbol := bybitSymbol; co_side := Sell; co_orderType := MarketOrder;
       co_qty := JsNumber.ofZ 3333; co_price := None; co_timeInForce := IOC;
       co_reduceOnly := false |} in
  executeTrade (refusesStopLoss false) ladderLong (JsNumber.ofZ 1000) (JsNumber.ofZ 1) []
  = ([Sent (PostSetLeverage bybitSymbol (JsNumber.ofZ 20));
      Sent (PostCreateOrder entry); Slept 3000; query;
      stop; Slept 1000; stop; Slept 2000; stop;
      query; Sent (PostCreateOrder flatten)],
     Threw (StopLossFailed "Failed to parse Bybit API response: {...}")).
Proof.
  cbv zeta.
  destruct (executeTrade_stop_loss_rollback (refusesStopLoss false) ladderLong
              (JsNumber.ofZ 1000) (JsNumber.ofZ 1) []
              (fst (openTrade (refusesStopLoss false) ladderLong
                      (JsNumber.ofZ 1000) (JsNumber.ofZ 1) []))
              (fst (getPosition (refusesStopLoss false) "XRPUSDT"
                      (fst (openTrade (refusesStopLoss false) ladderLong
                              (JsNumber.ofZ 1000) (JsNumber.ofZ 1) []) ++ [Slept 3000])))
              (fst (setStopLossAttempts (refusesStopLoss false) "XRPUSDT" ladderLong
                      [1; 2; 3]%Z
                      (fst (getPosition (refusesStopLoss false) "XRPUSDT"
                              (fst (openTrade (refusesStopLoss false) ladderLong
                                      (JsNumber.ofZ 1000) (JsNumber.ofZ 1) [])
                               ++ [Slept 3000])))))
              (Fin (300 # 1000))
              (Sizing.calculatePositionSize ladderLong (JsNumber.ofZ 1000)
                 (JsNumber.ofZ 1) (Fin (300 # 1000)))
              {| resp_orderId := Some "order-1"%string; resp_symbol := "XRPUSDT";
                 resp_side := Buy; resp_orderType := MarketOrder;
                 resp_qty := Fin (3333333333 # 1000000); resp_status := "Created" |}
              (liveRow "XRPUSDT" (Fin (33335 # 10)) (Fin (3 # 10)))
              (StopLossFailed "Failed to parse Bybit API response: {...}")
              eq_refl eq_refl eq_refl)
    as (_ & _ & requery & Hq & Hrun).
  vm_compute in Hq. injection Hq as <-.
  rewrite Hrun. reflexivity.
Defined.

(** C1, the claim as stated fails: against an exchange that fills the
    order, refuses the stop-loss three times and reports no position when
    it is queried again, [executeTrade] throws the stop-loss failure and
    the rollback has sent the query only: no order on the opposite side
    is in the history. *)
Lemma executeTrade_rollback_without_order :
  let bybitSymbol := "XRPUSDT"%string in
  let stop := Sent (PostTradingStop bybitSymbol (Fin (297 # 1000))) in
  let query := Sent (GetPositionList bybitSymbol) in
  let entry :=
    {| co_symbol := bybitSymbol; co_side := Buy; co_orderType := MarketOrder;
       co_qty := JsNumber.ofZ 3333; co_price := None; co_timeInForce := IOC;
       co_reduceOnly := false |} in
  executeTrade (refusesStopLoss true) ladderLong (JsNumber.ofZ 1000) (JsNumber.ofZ 1) []
  = ([Sent (PostSetLeverage bybitSymbol (JsNumber.ofZ 20));
      Sent (PostCreateOrder entry); Slept 3000; query;
      stop; Slept 1000; stop; Slept 2000; stop;
      query],
     Threw (StopLossFailed "Failed to parse Bybit API response: {...}")).
Proof. reflexivity. Qed.

End RollbackClaim.

(** ** The position manager *)

Module ManagerFacts.
Import Client Manager JsNumberFacts.

Local Open Scope list_scope.
Local Open Scope stdpp_scope.

Lemma improves_trans (side : Direction) (a b c : number) :
  improves side a b -> improves side b c -> improves side a c.
Proof.
  destruct side; unfold improves, JsNumber.lt; intros Hab Hbc.
  - exact (ltb_trans _ _ _ Hab Hbc).
  - exact (ltb_trans _ _ _ Hbc Hab).
Qed.

Lemma notWorse_refl (side : Direction) (a : number) : notWorse side a a.
Proof. now left. Qed.

Lemma notWorse_trans (side : Direction) (a b c : number) :
  notWorse side a b -> notWorse side b c -> notWorse side a c.
Proof.
  intros [->|Hab] [->|Hbc].
  - now left.
  - now right.
  - now right.
  - right. exact (improves_trans _ _ _ _ Hab Hbc).
Qed.

Lemma shouldUpdate_improves (position : Position) (candidate : number) :
  shouldUpdate position candidate = true <->
  improves (pos_side position) (pos_stopLoss position) candidate.
Proof. unfold shouldUpdate, improves. now destruct (pos_side position). Qed.


Section Runs.

Variable ex : Exchange.

(** What [adjustStopLoss] leaves behind: unless the candidate is strictly
    more favourable nothing is sent and nothing changes; otherwise one
    stop-loss request is sent, and the candidate is stored if and only
    if the exchange accepted it. *)
Lemma adjustStopLoss_cases (position : Position) (tpLevel : Z) (h : History) :
  let candidate := newStopLoss position tpLevel in
  let request :=
    Sent (PostTradingStop (convertSymbolToBybit (pos_symbol position)) candidate) in
  (~ improves (pos_side position) (pos_stopLoss position) candidate /\
   adjustStopLoss ex position tpLevel h = (h, position)) \/
  (improves (pos_side position) (pos_stopLoss position) candidate /\
   (adjustStopLoss ex position tpLevel h = (h ++ [request], withStopLoss position candidate) \/
    adjustStopLoss ex position tpLevel h = (h ++ [request], position))).
Proof.
  intros candidate request. unfold adjustStopLoss. fold candidate.
  destruct (shouldUpdate position candidate) eqn:E.
  - right. split; [now apply shouldUpdate_improves|].
    destruct (ClientFacts.setStopLoss_run ex (pos_symbol position) (pos_side position)
                candidate h) as [c Hc].
    fold request in Hc. rewrite Hc. destruct c; [now left|now right].
  - left. split; [|reflexivity].
    intros H. apply shouldUpdate_improves in H. congruence.
Qed.

(** [adjustStopLoss] touches the stop-loss only. *)
Lemma adjustStopLoss_frame (position : Position) (tpLevel : Z) (h : History) :
  let adjusted := snd (adjustStopLoss ex position tpLevel h) in
  pos_side adjusted = pos_side position /\
  pos_takeProfits adjusted = pos_takeProfits position /\
  notWorse (pos_side position) (pos_stopLoss position) (pos_stopLoss adjusted).
Proof.
  cbv zeta.
  destruct (adjustStopLoss_cases position tpLevel h) as [[_ ->]|[Hi [->| ->]]]; cbn.
  - repeat split. apply notWorse_refl.
  - repeat split. now right.
  - repeat split. apply notWorse_refl.
Qed.

Lemma checkLevels_frame (indices : list nat) (position : Position)
    (oldPrice newPrice : number) (h : History) :
  let after := snd (checkLevels ex indices position oldPrice newPrice h) in
  pos_side after = pos_side position /\
  notWorse (pos_side position) (pos_stopLoss position) (pos_stopLoss after).
Proof.
  revert position h.
  induction indices as [|i rest IH]; intros position h; cbn [checkLevels].
  - split; [reflexivity|apply notWorse_refl].
  - destruct (pos_takeProfits position !! i) as [tp|]; [|apply IH].
    destruct (tp_filled tp); [apply IH|].
    destruct (checkPriceHitLevel _ _ _ _); [|apply IH].
    set (hit := withTakeProfits position _).
    destruct (adjustStopLoss_frame hit (tp_level tp) h) as (Hs & _ & Hn).
    destruct (adjustStopLoss ex hit (tp_level tp) h) as [h1 adjusted].
    cbn [snd] in Hs, Hn.
    destruct (IH adjusted h1) as [Hs1 Hn1]. cbv zeta in Hs1, Hn1.
    change (pos_side hit) with (pos_side position) in *.
    change (pos_stopLoss hit) with (pos_stopLoss position) in *.
    rewrite Hs in Hs1, Hn1.
    split; [exact Hs1|]. exact (notWorse_trans _ _ _ _ Hn Hn1).
Qed.



(** A poll update of [positionId] leaves the other positions alone. *)
Lemma updatePosition_other (positionId other : string) (positions : gmap string Position)
    (h : History) :
  other <> positionId ->
  fst (fst (updatePosition ex positionId positions h)) !! other = positions !! other.
Proof.
  intros Hne. unfold updatePosition.
  destruct (positions !! positionId) as [position|]; [|reflexivity].
  destruct (getPosition ex (pos_symbol position) h) as [h1 [[live|]|e]]; cbv zeta.
  - match goal with
    | |- context [checkTakeProfitHits ex ?p ?o ?n h1] =>
        destruct (checkTakeProfitHits ex p o n h1) as [h2 after]
    end.
    cbn [fst]. now rewrite lookup_insert_ne.
  - cbn [fst]. now rewrite lookup_insert_ne.
  - reflexivity.
Qed.

Lemma updatePosition_same (positionId : string) (positions : gmap string Position)
    (h : History) (position : Position) :
  positions !! positionId = Some position ->
  exists after,
    fst (fst (updatePosition ex positionId positions h)) !! positionId = Some after /\
    pos_side after = pos_side position /\
    notWorse (pos_side position) (pos_stopLoss position) (pos_stopLoss after).
Proof.
  intros Hp. unfold updatePosition. rewrite Hp.
  destruct (getPosition ex (pos_symbol position) h) as [h1 [[live|]|e]]; cbv zeta.
  - set (priced := withMarket position _ _).
    destruct (checkLevels_frame (seq 0 (length (pos_takeProfits priced))) priced
                (pos_currentPrice position) (pos_currentPrice priced) h1) as [Hs Hn].
    cbv zeta in Hs, Hn. unfold checkTakeProfitHits.
    destruct (checkLevels ex _ priced _ _ h1) as [h2 after]. cbn [fst snd] in *.
    change (pos_side priced) with (pos_side position) in *.
    change (pos_stopLoss priced) with (pos_stopLoss position) in *.
    exists after. rewrite lookup_insert_eq. repeat split; assumption.
  - cbn [fst]. eexists. rewrite lookup_insert_eq.
    split; [reflexivity|]. split; [reflexivity|]. apply notWorse_refl.
  - exists position. repeat split; [exact Hp|apply notWorse_refl].
Qed.


Lemma pollUpdates_monotonic (positionIds : list string) (positions : gmap string Position)
    (h : History) (positionId : string) (position : Position) :
  positions !! positionId = Some position ->
  exists after,
    fst (pollUpdates ex positionIds positions h) !! positionId = Some after /\
    pos_side after = pos_side position /\
    notWorse (pos_side position) (pos_stopLoss position) (pos_stopLoss after).
Proof.
  revert positions h position.
  induction positionIds as [|updated rest IH]; intros positions h position Hp;
    cbn [pollUpdates].
  - exists position. repeat split; [exact Hp|apply notWorse_refl].
  - destruct (decide (positionId = updated)) as [->|Hne].
    + destruct (updatePosition_same updated positions h position Hp)
        as (mid & Hmid & Hs & Hn).
      destruct (updatePosition ex updated positions h) as [[positions1 h1] r].
      cbn [fst] in Hmid.
      destruct (IH positions1 h1 mid Hmid) as (after & Hafter & Hs1 & Hn1).
      exists after. rewrite Hs in Hn1.
      repeat split; [exact Hafter|congruence|].
      exact (notWorse_trans _ _ _ _ Hn Hn1).
    + pose proof (updatePosition_other updated positionId positions h Hne) as Ho.
      destruct (updatePosition ex updated positions h) as [[positions1 h1] r].
      cbn [fst] in Ho. apply IH. now rewrite Ho.
Qed.

(** [cancelStopLoss] catches what it throws. *)
Lemma cancelStopLoss_returns (symbol : string) (h : History) :
  exists h1, cancelStopLoss ex symbol h = (h1, Returned tt).
Proof.
  unfold cancelStopLoss, tryCatch.
  match goal with |- context [match ?m h with _ => _ end] => destruct (m h) as [h1 [[]|e]] end;
    eexists; reflexivity.
Qed.

Lemma cancelOrders_all (symbol : string) (orders : list OpenOrderRow) (h : History) :
  acceptsCancels ex ->
  cancelOrders ex symbol orders h
  = (h ++ ((fun order => Sent (PostCancelOrder symbol (row_orderId order))) <$> orders),
     Returned tt).
Proof.
  intros Hacc. revert h.
  induction orders as [|order rest IH]; intros h; cbn [cancelOrders fmap list_fmap].
  - now rewrite app_nil_r.
  - unfold bind. destruct (Hacc h symbol (row_orderId order)) as [payload ->].
    rewrite IH. now rewrite <- (assoc_L (++)).
Qed.

(** Against an exchange that lists the open orders and accepts the
    cancellations, every listed order that carries a stop-loss is
    cancelled, in the order of the list. *)
Lemma cancelStopLoss_cancels (symbol : string) (rows : list OpenOrderRow) (h : History) :
  acceptsCancels ex ->
  snd (makeRequest ex (GetOpenOrders (convertSymbolToBybit symbol)) h)
  = Returned (POpenOrders rows) ->
  cancelStopLoss ex symbol h
  = (h ++ Sent (GetOpenOrders (convertSymbolToBybit symbol))
       :: ((fun order => Sent (PostCancelOrder (convertSymbolToBybit symbol)
                                  (row_orderId order)))
           <$> List.filter isStopLossOrder rows),
     Returned tt).
Proof.
  intros Hacc Hlist. unfold cancelStopLoss, tryCatch, bind.
  destruct (ClientFacts.makeRequest_run ex (GetOpenOrders (convertSymbolToBybit symbol)) h)
    as [c Hc].
  rewrite Hc in Hlist |- *. cbn [snd] in Hlist. subst c.
  rewrite cancelOrders_all by exact Hacc.
  now rewrite <- (assoc_L (++)).
Qed.

End Runs.

End ManagerFacts.

Section ManagerClaims.
Import Client Manager ManagerFacts Scenarios.

Local Open Scope list_scope.
Local Open Scope stdpp_scope.

Lemma findLevel_offset (levels : list TrackedLevel) (offset : Z) (i : nat)
    (tp : TrackedLevel) :
  (forall j t, levels !! j = Some t -> tp_level t = (Z.of_nat j + offset)%Z) ->
  levels !! i = Some tp ->
  findLevel levels (Z.of_nat i + offset) = Some tp.
Proof.
  revert offset i.
  induction levels as [|first rest IH]; intros offset i Hdense Hi; [discriminate|].
  unfold findLevel. cbn [find].
  pose proof (Hdense 0%nat first eq_refl) as Hfirst.
  destruct i as [|i].
  - cbn in Hi. injection Hi as ->.
    rewrite Hfirst. now rewrite Z.eqb_refl.
  - destruct (Z.eqb_spec (tp_level first) (Z.of_nat (S i) + offset)) as [E|_]; [lia|].
    replace (Z.of_nat (S i) + offset)%Z with (Z.of_nat i + (offset + 1))%Z by lia.
    apply IH; [|exact Hi].
    intros j t Hj. rewrite (Hdense (S j) t Hj). lia.
Qed.

Lemma findLevel_dense (levels : list TrackedLevel) (i : nat) (tp : TrackedLevel) :
  denseLadder levels -> levels !! i = Some tp ->
  findLevel levels (Z.of_nat i + 1) = Some tp.
Proof. apply findLevel_offset. Qed.




(** C9, as the code has it: [closePosition] returns false, sends nothing
    and changes nothing when the position is missing or not ACTIVE.  For
    an ACTIVE position it runs [cancelStopLoss], which never throws (and
    which, against an exchange that lists the open orders and accepts the
    cancellations, cancels every listed order carrying a stop-loss), then
    sends one market order on the opposite side for the floor of the
    tracked size; it marks the position COMPLETED and returns true exactly
    when that order is accepted, and returns false with the position left
    ACTIVE when it is not. *)
Theorem closePosition_result
    (ex : Exchange) (positionId reason : string) (positions : gmap string Position)
    (h : History) :
  (positions !! positionId = None ->
   closePosition ex positionId reason positions h = (positions, h, false)) /\
  (forall position,
     positions !! positionId = Some position -> pos_status position <> ACTIVE ->
     closePosition ex positionId reason positions h = (positions, h, false)) /\
  (forall position,
     positions !! positionId = Some position -> pos_status position = ACTIVE ->
     let order :=
       {| co_symbol := convertSymbolToBybit (pos_symbol position);
          co_side := match pos_side position with LONG => Sell | SHORT => Buy end;
          co_orderType := MarketOrder;
          co_qty := JsNumber.floor (pos_size position);
          co_price := None;
          co_timeInForce := IOC;
          co_reduceOnly := false |} in
     exists h1 c,
       cancelStopLoss ex (pos_symbol position) h = (h1, Returned tt) /\
       (forall rows,
          acceptsCancels ex ->
          snd (makeRequest ex (GetOpenOrders (convertSymbolToBybit (pos_symbol position))) h)
          = Returned (POpenOrders rows) ->
          h1 = h ++ Sent (GetOpenOrders (convertSymbolToBybit (pos_symbol position)))
                 :: ((fun row => Sent (PostCancelOrder
                                         (convertSymbolToBybit (pos_symbol position))
                                         (row_orderId row)))
                     <$> List.filter isStopLossOrder rows)) /\
       placeMarketOrder ex (closingOrder position) h1
       = (h1 ++ [Sent (PostCreateOrder order)], c) /\
       closePosition ex positionId reason positions h
       = match c with
         | Returned _ =>
             (<[positionId := withStatus position COMPLETED]> positions,
              h1 ++ [Sent (PostCreateOrder order)], true)
         | Threw _ => (positions, h1 ++ [Sent (PostCreateOrder order)], false)
         end).
Proof.
  split; [|split].
  - intros Hnone. unfold closePosition. now rewrite Hnone.
  - intros position Hp Hs. unfold closePosition. rewrite Hp.
    now rewrite bool_decide_eq_false_2.
  - intros position Hp Hs order.
    destruct (cancelStopLoss_returns ex (pos_symbol position) h) as [h1 Hcancel].
    destruct (ClientFacts.placeMarketOrder_run ex (closingOrder position) h1) as [c Hc].
    exists h1, c. split; [exact Hcancel|]. split; [|split].
    + intros rows Hacc Hlist.
      rewrite (cancelStopLoss_cancels ex _ rows h Hacc Hlist) in Hcancel.
      now injection Hcancel as <-.
    + exact Hc.
    + unfold closePosition. rewrite Hp, bool_decide_eq_true_2 by exact Hs.
      rewrite Hcancel, Hc. destruct c; reflexivity.
Qed.

Lemma acceptsAll_cancels : acceptsCancels acceptsAll.
Proof. intros h symbol orderId. eexists. reflexivity. Defined.

Lemma closePosition_result_witness :
  closePosition acceptsAll "none" "manual" trailingRegistry [] = (trailingRegistry, [], false) /\
  closePosition acceptsAll trailingId "manual" trailingRegistry []
  = (<[trailingId := withStatus
                       (snd (createPosition trailingSignal (Some "order-1"%string)
                               (JsNumber.ofZ 20) (JsNumber.ofZ 10) (JsNumber.ofZ 100)
                               1700000000000 ∅)) COMPLETED]> trailingRegistry,
     [Sent (GetOpenOrders "SOLUSDT"); Sent (PostCancelOrder "SOLUSDT" "sl-1");
      Sent (PostCreateOrder
              {| co_symbol := "SOLUSDT"; co_side := Sell; co_orderType := MarketOrder;
                 co_qty := JsNumber.ofZ 10; co_price := None; co_timeInForce := IOC;
                 co_reduceOnly := false |})],
     true).
Proof.
  split.
  - apply (closePosition_result acceptsAll "none" "manual" trailingRegistry []). reflexivity.
  - destruct (closePosition_result acceptsAll trailingId "manual" trailingRegistry [])
      as (_ & _ & Hactive).
    destruct (Hactive _ eq_refl eq_refl) as (h1 & c & Hcancel & Hall & Hplace & Hclose).
    pose proof (Hall _ acceptsAll_cancels eq_refl) as Hh1.
    cbn in Hh1. subst h1.
    vm_compute in Hplace. injection Hplace as <-.
    rewrite Hclose. reflexivity.
Defined.

(** C9, the claim as stated fails: for an ACTIVE position of the registry
    and an exchange that refuses the closing order, [closePosition]
    returns false and leaves the position ACTIVE. *)
Lemma closePosition_active_returns_false :
  (exists position,
     trailingRegistry !! trailingId = Some position /\ pos_status position = ACTIVE) /\
  closePosition refusesOrders trailingId "manual" trailingRegistry []
  = (trailingRegistry,
     [Sent (GetOpenOrders "SOLUSDT");
      Sent (PostCreateOrder
              {| co_symbol := "SOLUSDT"; co_side := Sell; co_orderType := MarketOrder;
                 co_qty := JsNumber.ofZ 10; co_price := None; co_timeInForce := IOC;
                 co_reduceOnly := false |})],
     false).
Proof.
  split.
  - eexists. split; [vm_compute; reflexivity|reflexivity].
  - vm_compute. reflexivity.
Qed.

End ManagerClaims.

(** ** The request queue *)

Module DispatcherFacts.
Import Client Dispatcher.

Local Open Scope list_scope.
Local Open Scope stdpp_scope.
Local Open Scope Z_scope.

Lemma spaced_snoc (log : list (OpId * Z)) (op : OpId) (t : Z) :
  spaced log ->
  (forall op1 t1, last log = Some (op1, t1) -> t1 + MIN_REQUEST_INTERVAL <= t) ->
  spaced (log ++ [(op, t)]).
Proof.
  induction log as [|[op0 t0] rest IH]; intros Hs Hl; [exact I|].
  destruct rest as [|[op1 t1] rest].
  - cbn. split; [|exact I]. now apply (Hl op0).
  - cbn in Hs. destruct Hs as [H01 Hs].
    change (spaced ((op0, t0) :: (op1, t1) :: rest ++ [(op, t)]))
      with (t0 + MIN_REQUEST_INTERVAL <= t1 /\ spaced (((op1, t1) :: rest) ++ [(op, t)])).
    split; [exact H01|]. apply IH; [exact Hs|].
    intros op2 t2 H2. apply (Hl op2). exact H2.
Qed.

Lemma spaced_lookup (log : list (OpId * Z)) (i : nat) (op1 op2 : OpId) (t1 t2 : Z) :
  spaced log -> log !! i = Some (op1, t1) -> log !! S i = Some (op2, t2) ->
  t1 + MIN_REQUEST_INTERVAL <= t2.
Proof.
  revert i. induction log as [|[op0 t0] rest IH]; intros i Hs H1 H2; [discriminate|].
  destruct rest as [|[op3 t3] rest]; [discriminate|].
  cbn in Hs. destruct Hs as [H03 Hs].
  destruct i as [|i].
  - cbn in H1, H2. now injection H1 as -> ->; injection H2 as -> ->.
  - apply (IH i Hs); assumption.
Qed.

Section Queue.

Context {T : Type}.
Variable run : OpId -> Completion T.

Local Abbreviation State := (@State T).
Local Abbreviation Inv := (Inv run).
Local Abbreviation step := (step run).
Local Abbreviation reachable := (reachable run).
Local Abbreviation flush := (flush run).

Lemma initial_inv (now : Z) : Inv (initial now).
Proof.
  split; cbn; try reflexivity; try done.
  - lia.
  - intros wake H. now apply elem_of_nil in H.
  - intros op outcome H. now apply elem_of_nil in H.
Qed.

Lemma inv_shape (s : State) :
  Inv s ->
  (drains s = [] /\ isProcessingQueue s = false /\ requestQueue s = []) \/
  (exists d, drains s = [d] /\ isProcessingQueue s = true).
Proof.
  intros [Hsingle Hflag _ _ _ _ Hidle _ _].
  destruct (drains s) as [|d [|d' ds]] eqn:E.
  - left. repeat split; [exact Hflag|now apply Hidle].
  - right. exists d. split; [reflexivity|exact Hflag].
  - cbn in Hsingle. lia.
Qed.

Lemma withRateLimit_inv (s : State) : Inv s -> Inv (withRateLimit s).
Proof.
  intros HI. destruct (inv_shape s HI) as [(Hd & Hf & Hq)|(d & Hd & Hf)];
    destruct HI as [Hsingle Hflag Hfifo Hspaced Hlast Hsleep Hidle Hdel Hres];
    destruct s as [q flag lst clk ds n disp del]; cbn in *; subst.
  - unfold withRateLimit, processRequestQueue. cbn.
    unfold loopTurn. cbn.
    destruct (clk - lst <? MIN_REQUEST_INTERVAL) eqn:E; cbn.
    + split; cbn; try done; try lia.
      * rewrite app_nil_r in Hfifo. rewrite Hfifo.
        change (0%nat :: seq 1 n) with (seq 0 (S n)). now rewrite seq_S.
      * intros wake Hw%list_elem_of_singleton. injection Hw as ->.
        split; [unfold MIN_REQUEST_INTERVAL; lia|done].
    + apply Z.ltb_ge in E. split; cbn; try done; try lia.
      * rewrite app_nil_r in Hfifo |- *. rewrite fmap_app. cbn. rewrite Hfifo.
        change (0%nat :: seq 1 n) with (seq 0 (S n)). now rewrite seq_S.
      * apply spaced_snoc; [exact Hspaced|].
        intros op1 t1 H1. rewrite (Hlast op1 t1 H1) in E. lia.
      * intros op t. rewrite last_snoc. now intros [= _ ->].
      * intros wake Hw%list_elem_of_singleton. discriminate.
      * rewrite fmap_app. cbn. rewrite app_nil_r in Hdel. now rewrite Hdel.
  - unfold withRateLimit, processRequestQueue. cbn.
    split; cbn; try done; try lia.
    + rewrite (assoc_L (++)), Hfifo.
      change (0%nat :: seq 1 n) with (seq 0 (S n)). now rewrite seq_S.
    + intros wake Hw. destruct (Hsleep wake Hw) as [H1 H2]. split; [exact H1|].
      now destruct q.
Qed.

(** The loop entered or resumed by the only drain. *)
Lemma shiftAndStart_inv (s : State) (wake : Z) :
  Inv s -> drains s = [Sleeping wake] -> wake <= clock s ->
  Inv (resume 0 (shiftAndStart s)).
Proof.
  intros HI Hd Hw.
  destruct HI as [Hsingle Hflag Hfifo Hspaced Hlast Hsleep Hidle Hdel Hres].
  destruct s as [q flag lst clk ds n disp del]; cbn in *; subst.
  destruct (Hsleep wake ltac:(now apply list_elem_of_singleton)) as [Hlw Hq].
  destruct q as [|op rest]; [done|].
  unfold shiftAndStart, resume. cbn.
  split; cbn; try done; try lia.
  - rewrite fmap_app. cbn. now rewrite <- (assoc_L (++)).
  - apply spaced_snoc; [exact Hspaced|].
    intros op1 t1 H1. rewrite (Hlast op1 t1 H1) in Hlw. lia.
  - intros op1 t1. rewrite last_snoc. now intros [= _ ->].
  - intros w Hin%list_elem_of_singleton. discriminate.
  - rewrite fmap_app. cbn. rewrite app_nil_r in Hdel. now rewrite Hdel.
Qed.

Lemma loopTurn_inv (s : State) (op : OpId) :
  Inv s -> drains s = [Awaiting op] ->
  Inv (resume 0 (loopTurn (settle s op (run op)))).
Proof.
  intros HI Hd.
  destruct HI as [Hsingle Hflag Hfifo Hspaced Hlast Hsleep Hidle Hdel Hres].
  destruct s as [q flag lst clk ds n disp del]; cbn in *; subst.
  assert (Hres1 : forall op1 outcome,
            (op1, outcome) ∈ del ++ [(op, run op)] -> outcome = run op1).
  { intros op1 outcome [Hin|Hin%list_elem_of_singleton]%elem_of_app.
    - now apply Hres.
    - now injection Hin as -> ->. }
  assert (Hdel1 : (del ++ [(op, run op)]).*1 = disp.*1).
  { rewrite fmap_app. exact Hdel. }
  unfold loopTurn, settle. cbn.
  destruct q as [|next rest]; cbn.
  - split; cbn; try done; try lia.
    + intros w Hin. now apply elem_of_nil in Hin.
    + now rewrite app_nil_r.
  - destruct (clk - lst <? MIN_REQUEST_INTERVAL) eqn:E; cbn.
    + split; cbn; try done; try lia.
      * intros w Hin%list_elem_of_singleton. injection Hin as ->.
        split; [unfold MIN_REQUEST_INTERVAL; lia|done].
      * now rewrite app_nil_r.
    + apply Z.ltb_ge in E. split; cbn; try done; try lia.
      * rewrite fmap_app. cbn. now rewrite <- (assoc_L (++)).
      * apply spaced_snoc; [exact Hspaced|].
        intros op1 t1 H1. rewrite (Hlast op1 t1 H1) in E. lia.
      * intros op1 t1. rewrite last_snoc. now intros [= _ ->].
      * intros w Hin%list_elem_of_singleton. discriminate.
      * rewrite Hdel1. now rewrite fmap_app.
Qed.

Lemma step_inv (s s1 : State) (ev : Event) :
  Inv s -> step s ev = Some s1 -> Inv s1.
Proof.
  intros HI Hstep. destruct ev as [|dt|i|i]; cbn in Hstep.
  - injection Hstep as <-. now apply withRateLimit_inv.
  - destruct (0 <=? dt); [|discriminate]. injection Hstep as <-.
    destruct HI. now split.
  - destruct (inv_shape s HI) as [(Hd & _)|(d & Hd & _)]; rewrite Hd in Hstep.
    + discriminate.
    + destruct i as [|i]; [|discriminate]. cbn in Hstep.
      destruct d as [wake|op]; [|discriminate].
      destruct (wake <=? clock s) eqn:E; [|discriminate].
      injection Hstep as <-. apply Z.leb_le in E.
      now apply (shiftAndStart_inv s wake).
  - destruct (inv_shape s HI) as [(Hd & _)|(d & Hd & _)]; rewrite Hd in Hstep.
    + discriminate.
    + destruct i as [|i]; [|discriminate]. cbn in Hstep.
      destruct d as [wake|op]; [discriminate|].
      assert (Hs1 : s1 = resume 0 (loopTurn (settle s op (run op)))).
      { destruct (run op); now injection Hstep as <-. }
      subst s1. now apply loopTurn_inv.
Qed.

Lemma reachable_inv (s : State) : reachable s -> Inv s.
Proof.
  induction 1 as [now|s s1 ev _ IH Hstep]; [apply initial_inv|].
  exact (step_inv s s1 ev IH Hstep).
Qed.



Lemma steps_reachable (evs : list Event) (s s1 : State) :
  reachable s -> steps run s evs = Some s1 -> reachable s1.
Proof.
  revert s. induction evs as [|ev rest IH]; intros s Hr Hsteps; cbn in Hsteps.
  - now injection Hsteps as <-.
  - destruct (step s ev) as [s2|] eqn:E; [|discriminate].
    apply (IH s2); [|exact Hsteps]. exact (reachable_step run s s2 ev Hr E).
Qed.

(** The event a state owes can happen, and brings the state closer to
    idle. *)
Lemma owed_step (s : State) (ev : Event) :
  Inv s -> owed s = Some ev ->
  exists s1, step s ev = Some s1 /\ (owing s1 < owing s)%nat /\ calls s1 = calls s.
Proof.
  intros HI Hev.
  destruct (inv_shape s HI) as [(Hd & _)|(d & Hd & _)];
    unfold owed in Hev; rewrite Hd in Hev; [discriminate|].
  destruct HI as [Hsingle Hflag Hfifo Hspaced Hlast Hsleep Hidle Hdel Hres].
  destruct s as [q flag lst clk ds n disp del]; cbn in *; subst.
  destruct d as [wake|op].
  - destruct (Hsleep wake ltac:(now apply list_elem_of_singleton)) as [_ Hq].
    destruct (clk <? wake) eqn:E; injection Hev as <-; cbn.
    + apply Z.ltb_lt in E.
      assert (E1 : (0 <=? wake - clk) = true) by (apply Z.leb_le; lia).
      rewrite E1. eexists. split; [reflexivity|]. unfold owing. cbn -[Z.ltb].
      replace (clk + (wake - clk)) with wake by lia.
      rewrite Z.ltb_irrefl. split; [lia|reflexivity].
    + apply Z.ltb_ge in E.
      rewrite (proj2 (Z.leb_le wake clk) E).
      eexists. split; [reflexivity|].
      destruct q as [|op rest]; [done|].
      unfold owing. cbn -[Z.ltb]. split; [lia|reflexivity].
  - injection Hev as <-. cbn.
    exists (resume 0 (loopTurn (settle
              {| requestQueue := q; isProcessingQueue := bool_decide ([Awaiting op] <> []);
                 lastRequestTime := lst; clock := clk; drains := [Awaiting op];
                 calls := n; dispatched := disp; delivered := del |} op (run op)))).
    split; [now destruct (run op)|].
    unfold loopTurn, settle, owing. cbn -[Z.ltb].
    destruct q as [|next rest]; cbn -[Z.ltb]; [split; [lia|reflexivity]|].
    destruct (clk - lst <? MIN_REQUEST_INTERVAL) eqn:E; cbn -[Z.ltb].
    + apply Z.ltb_lt in E.
      assert (E1 : (clk <? clk + (MIN_REQUEST_INTERVAL - (clk - lst))) = true)
        by (apply Z.ltb_lt; lia).
      rewrite E1. split; [lia|reflexivity].
    + split; [lia|reflexivity].
Qed.

Lemma owed_none (s : State) : owed s = None -> drains s = [].
Proof.
  unfold owed. destruct (drains s) as [|[wake|op] ds]; [reflexivity| |discriminate].
  now destruct (clock s <? wake).
Qed.

Lemma owing_zero (s : State) : Inv s -> owing s = 0%nat -> drains s = [].
Proof.
  intros HI Hz. unfold owing in Hz.
  destruct (drains s) as [|[wake|op] ds] eqn:Ed; [reflexivity| |lia].
  destruct (inv_sleep run s HI wake) as [_ Hq]; [rewrite Ed; now left|].
  destruct (requestQueue s); [done|cbn in Hz; lia].
Qed.

(** Left to itself for as many events as it owes, the client ends idle
    with an empty queue. *)
Lemma flush_idle (fuel : nat) (s : State) :
  reachable s -> (owing s <= fuel)%nat ->
  reachable (flush fuel s) /\ drains (flush fuel s) = [] /\
  calls (flush fuel s) = calls s.
Proof.
  revert s. induction fuel as [|fuel IH]; intros s Hr Hfuel; cbn [Dispatcher.flush].
  - split; [exact Hr|]. split; [|reflexivity].
    apply owing_zero; [now apply reachable_inv|lia].
  - destruct (owed s) as [ev|] eqn:Eo.
    + destruct (owed_step s ev (reachable_inv s Hr) Eo) as (s1 & Hstep & Hlt & Hcalls).
      rewrite Hstep.
      destruct (IH s1 (reachable_step run s s1 ev Hr Hstep) ltac:(lia))
        as (Hr1 & Hd1 & Hc1).
      split; [exact Hr1|]. split; [exact Hd1|congruence].
    + split; [exact Hr|]. split; [now apply owed_none|reflexivity].
Qed.

End Queue.

End DispatcherFacts.

Section DispatcherClaims.
Import Client Dispatcher DispatcherFacts Scenarios.

Local Open Scope list_scope.
Local Open Scope stdpp_scope.
Local Open Scope Z_scope.

Lemma own_results {T : Type} (run : OpId -> Completion T)
    (log : list (OpId * Completion T)) (ids : list OpId) :
  log.*1 = ids ->
  (forall op outcome, (op, outcome) ∈ log -> outcome = run op) ->
  log = (fun op => (op, run op)) <$> ids.
Proof.
  revert ids. induction log as [|[op outcome] rest IH]; intros ids Hids Hres.
  - now subst ids.
  - subst ids. cbn. f_equal.
    + f_equal. apply Hres. now left.
    + apply IH; [reflexivity|]. intros op1 o1 Hin. apply Hres. now right.
Qed.

(** C6: in every state the client can be in, the operations started so
    far followed by the operations waiting are the operations in the order
    of their calls; two consecutive starts are at least
    [MIN_REQUEST_INTERVAL] = 100 ms apart; at most one drain is active,
    and a call of [withRateLimit] made while a drain is active leaves that
    drain the only one. *)
Theorem dispatcher_fifo_spacing_single_drain
    {T : Type} (run : OpId -> Completion T) (s : State) :
  reachable run s ->
  (dispatched s).*1 ++ requestQueue s = seq 0 (calls s) /\
  (forall (i : nat) (op1 op2 : OpId) (t1 t2 : Z),
     dispatched s !! i = Some (op1, t1) -> dispatched s !! S i = Some (op2, t2) ->
     t1 + 100 <= t2) /\
  (length (drains s) <= 1)%nat /\
  (drains s <> [] ->
   isProcessingQueue s = true /\ drains (withRateLimit s) = drains s).
Proof.
  intros Hr. pose proof (reachable_inv run s Hr) as HI.
  split; [exact (inv_fifo run s HI)|]. split; [|split].
  - intros i op1 op2 t1 t2 H1 H2.
    exact (spaced_lookup _ i op1 op2 t1 t2 (inv_spaced run s HI) H1 H2).
  - exact (inv_single run s HI).
  - intros Hd. destruct (inv_shape run s HI) as [(Hd0 & _)|(d & Hd1 & Hf)];
      [contradiction|].
    split; [exact Hf|]. unfold withRateLimit, processRequestQueue. cbn.
    now rewrite Hf.
Qed.

Lemma burstState_reachable : reachable flakyRun burstState.
Proof.
  apply (steps_reachable flakyRun burstEvents (initial 1000));
    [apply reachable_initial|reflexivity].
Defined.

Lemma dispatcher_fifo_spacing_single_drain_witness :
  (dispatched burstState).*1 ++ requestQueue burstState = [0; 1; 2]%nat /\
  dispatched burstState = [(0%nat, 1000); (1%nat, 1100)] /\
  (forall (i : nat) (op1 op2 : OpId) (t1 t2 : Z),
     dispatched burstState !! i = Some (op1, t1) ->
     dispatched burstState !! S i = Some (op2, t2) ->
     t1 + 100 <= t2) /\
  (length (drains burstState) <= 1)%nat.
Proof.
  destruct (dispatcher_fifo_spacing_single_drain flakyRun burstState burstState_reachable)
    as (Hfifo & Hspaced & Hsingle & _).
  split; [exact Hfifo|]. split; [reflexivity|]. split; [exact Hspaced|exact Hsingle].
Defined.

(** C5: whatever each operation completes with, the promise of a caller
    is settled with the completion of its own operation, a value if the
    operation returned and the error if it threw, and at most once; and a
    client left to itself drains the queue: every operation called so far
    is started and its completion delivered to its caller, the failures of
    other operations notwithstanding. *)
Theorem dispatcher_delivers_own_results
    {T : Type} (run : OpId -> Completion T) (s : State) :
  reachable run s ->
  (forall (op : OpId) (outcome : Completion T),
     (op, outcome) ∈ delivered s -> outcome = run op) /\
  NoDup (delivered s).*1 /\
  (forall fuel : nat,
     (owing s <= fuel)%nat ->
     requestQueue (flush run fuel s) = [] /\
     drains (flush run fuel s) = [] /\
     delivered (flush run fuel s) = (fun op => (op, run op)) <$> seq 0 (calls s)).
Proof.
  intros Hr. pose proof (reachable_inv run s Hr) as HI.
  split; [exact (inv_results run s HI)|]. split.
  - pose proof (NoDup_seq 0 (calls s)) as Hnd.
    rewrite <- (inv_fifo run s HI), <- (inv_delivered run s HI) in Hnd.
    apply NoDup_app in Hnd as [Hnd _]. now apply NoDup_app in Hnd as [Hnd _].
  - intros fuel Hfuel.
    destruct (flush_idle run fuel s Hr Hfuel) as (Hr1 & Hd1 & Hc1).
    pose proof (reachable_inv run _ Hr1) as HI1.
    pose proof (inv_idle run _ HI1 Hd1) as Hq1.
    split; [exact Hq1|]. split; [exact Hd1|].
    apply own_results; [|exact (inv_results run _ HI1)].
    pose proof (inv_delivered run _ HI1) as Hdel.
    pose proof (inv_fifo run _ HI1) as Hfifo.
    rewrite Hd1 in Hdel. cbn in Hdel. rewrite app_nil_r in Hdel.
    rewrite Hq1, app_nil_r, <- Hdel, Hc1 in Hfifo. exact Hfifo.
Qed.

Lemma dispatcher_delivers_own_results_witness :
  delivered burstState = [(0%nat, Threw (FetchFailed "socket hang up"))] /\
  requestQueue (flush flakyRun 5 burstState) = [] /\
  drains (flush flakyRun 5 burstState) = [] /\
  delivered (flush flakyRun 5 burstState)
  = [(0%nat, Threw (FetchFailed "socket hang up"));
     (1%nat, Returned (POrderCreated "order-1"));
     (2%nat, Threw (FetchFailed "socket hang up"))].
Proof.
  destruct (dispatcher_delivers_own_results flakyRun burstState burstState_reachable)
    as (_ & _ & Hflush).
  split; [reflexivity|].
  exact (Hflush 5%nat ltac:(vm_compute; lia)).
Defined.

End DispatcherClaims.

(** * More about the exchange client *)

Module TraceFacts.
Import Client ClientFacts Trace.

Local Open Scope list_scope.
Local Open Scope stdpp_scope.

Lemma requests_app (h1 h2 : History) : requests (h1 ++ h2) = requests h1 ++ requests h2.
Proof. unfold requests. apply omap_app. Qed.

Lemma slept_app (h1 h2 : History) : slept (h1 ++ h2) = (slept h1 + slept h2)%Z.
Proof.
  unfold slept. induction h1 as [|[request|ms] rest IH]; cbn; [reflexivity|exact IH|].
  rewrite IH. lia.
Qed.

Lemma within_ret {A : Type} (a : A) : within 0 0 (ret a).
Proof. intros h. exists []. cbn. rewrite app_nil_r. split; [reflexivity|lia]. Qed.

Lemma within_throw {A : Type} (e : JsError) : within 0 0 (@throw A e).
Proof. intros h. exists []. cbn. rewrite app_nil_r. split; [reflexivity|lia]. Qed.

Lemma within_weaken {A : Type} (n n1 : nat) (ms ms1 : Z) (m : M A) :
  within n ms m -> (n <= n1)%nat -> (ms <= ms1)%Z -> within n1 ms1 m.
Proof.
  intros Hm Hn Hms h. destruct (Hm h) as (added & E & Hr & Hs).
  exists added. split; [exact E|lia].
Qed.

Lemma within_bind {A B : Type} (n1 n2 : nat) (ms1 ms2 : Z) (m : M A) (k : A -> M B) :
  (0 <= ms2)%Z -> within n1 ms1 m -> (forall a, within n2 ms2 (k a)) ->
  within (n1 + n2) (ms1 + ms2) (bind m k).
Proof.
  intros Hms2 Hm Hk h. unfold bind.
  destruct (Hm h) as (added1 & E1 & Hr1 & Hs1).
  destruct (m h) as [h1 [a|e]]; cbn in E1; subst h1.
  - destruct (Hk a (h ++ added1)) as (added2 & E2 & Hr2 & Hs2).
    exists (added1 ++ added2).
    split; [rewrite E2; now rewrite (assoc_L (++))|].
    rewrite requests_app, slept_app, length_app. lia.
  - exists added1. split; [reflexivity|lia].
Qed.

Lemma within_tryCatch {A : Type} (n1 n2 : nat) (ms1 ms2 : Z) (m : M A)
    (handler : JsError -> M A) :
  (0 <= ms2)%Z -> within n1 ms1 m -> (forall e, within n2 ms2 (handler e)) ->
  within (n1 + n2) (ms1 + ms2) (tryCatch m handler).
Proof.
  intros Hms2 Hm Hk h. unfold tryCatch.
  destruct (Hm h) as (added1 & E1 & Hr1 & Hs1).
  destruct (m h) as [h1 [a|e]]; cbn in E1; subst h1.
  - exists added1. split; [reflexivity|lia].
  - destruct (Hk e (h ++ added1)) as (added2 & E2 & Hr2 & Hs2).
    exists (added1 ++ added2).
    split; [rewrite E2; now rewrite (assoc_L (++))|].
    rewrite requests_app, slept_app, length_app. lia.
Qed.

Lemma within_sleep (ms : Z) : (0 <= ms)%Z -> within 0 ms (sleep ms).
Proof. intros H h. exists [Slept ms]. cbn. split; [reflexivity|lia]. Qed.

Section Runs.
Variable ex : Exchange.

Lemma within_makeRequest (request : Request) : within 1 0 (makeRequest ex request).
Proof. intros h. exists [Sent request]. cbn. split; [reflexivity|lia]. Qed.

Ltac bound :=
  repeat first
    [ apply within_makeRequest
    | apply within_ret
    | apply within_throw
    | apply within_sleep; lia
    | apply (within_bind 0 0 0 0); [lia| |intros ?]
    | apply (within_tryCatch 0 0 0 0); [lia| |intros ?] ].

Lemma within_getPosition (symbol : string) : within 1 0 (getPosition ex symbol).
Proof.
  unfold getPosition. cbv zeta.
  apply (within_bind 1 0 0 0); [lia|apply within_makeRequest|intros payload].
  destruct payload; bound.
Qed.

Lemma within_getMarketPrice (symbol : string) : within 1 0 (getMarketPrice ex symbol).
Proof.
  unfold getMarketPrice. cbv zeta.
  apply (within_bind 1 0 0 0); [lia|apply within_makeRequest|intros payload].
  destruct payload as [| |[|? ?]| |[|? ?]|[|ticker ?]]; bound.
  destruct (_ || _); bound.
Qed.

Lemma within_setLeverage (symbol : string) (leverage : number) :
  within 1 0 (setLeverage ex symbol leverage).
Proof. unfold setLeverage. apply (within_bind 1 0 0 0); [lia|bound..]. Qed.

Lemma within_placeMarketOrder (order : TradeOrder) : within 1 0 (placeMarketOrder ex order).
Proof.
  unfold placeMarketOrder. cbv zeta.
  apply (within_bind 1 0 0 0); [lia|apply within_makeRequest|intros payload].
  destruct payload; bound.
Qed.

Lemma within_setStopLoss (symbol : string) (side : Direction) (p : number) :
  within 1 0 (setStopLoss ex symbol side p).
Proof. unfold setStopLoss. apply (within_bind 1 0 0 0); [lia|bound..]. Qed.

Lemma within_setTakeProfits (symbol : string) (side : Direction)
    (tps : list TakeProfitLevel) (positionSize : number) :
  within 1 0 (setTakeProfits ex symbol side tps positionSize).
Proof.
  unfold setTakeProfits. destruct (last tps).
  - apply (within_tryCatch 1 0 0 0); [lia| |intros ?; apply within_throw].
    apply (within_bind 1 0 0 0); [lia|bound..].
  - eapply within_weaken; [apply within_ret|lia|lia].
Qed.

Lemma within_emergencyClosePosition (symbol : string) (side : Direction) :
  within 2 0 (emergencyClosePosition ex symbol side).
Proof.
  unfold emergencyClosePosition.
  apply (within_bind 1 1 0 0); [lia|apply within_getPosition|intros [live|]].
  - destruct (JsNumber.eqb _ _).
    + eapply within_weaken; [apply within_ret|lia|lia].
    + apply (within_bind 1 0 0 0); [lia|apply within_placeMarketOrder|intros ?; apply within_ret].
  - eapply within_weaken; [apply within_ret|lia|lia].
Qed.

Lemma within_setStopLossAttempts (symbol : string) (signal : ParsedSignal) :
  within 3 3000 (setStopLossAttempts ex symbol signal [1; 2; 3]%Z).
Proof.
  assert (Hone : within 1 0 (do setStopLoss ex symbol (direction signal) (stopLoss signal)
                             then ret true)%client).
  { apply (within_bind 1 0 0 0); [lia|apply within_setStopLoss|intros ?; apply within_ret]. }
  cbn [setStopLossAttempts].
  apply (within_tryCatch 1 2 0 3000); [lia|exact Hone|intros e1].
  change (1 =? 3)%Z with false. cbv iota.
  apply (within_bind 0 2 1000 2000); [lia|apply within_sleep; lia|intros _].
  apply (within_tryCatch 1 1 0 2000); [lia|exact Hone|intros e2].
  change (2 =? 3)%Z with false. cbv iota.
  apply (within_bind 0 1 2000 0); [lia|apply within_sleep; lia|intros _].
  apply (within_tryCatch 1 0 0 0); [lia|exact Hone|intros e3].
  change (3 =? 3)%Z with true. cbv iota. apply within_throw.
Qed.

Lemma within_openTrade (signal : ParsedSignal) (pv pct : number) :
  within (match entryZone signal with Market => 3 | Price _ => 2 end) 0
         (openTrade ex signal pv pct).
Proof.
  unfold openTrade. cbv zeta.
  destruct (entryZone signal).
  - apply (within_bind 1 2 0 0); [lia|apply within_getMarketPrice|intros cp].
    apply (within_bind 1 1 0 0); [lia|apply within_setLeverage|intros _].
    apply (within_bind 1 0 0 0); [lia|apply within_placeMarketOrder|intros ?; apply within_ret].
  - apply (within_bind 0 2 0 0); [lia|apply within_ret|intros cp].
    apply (within_bind 1 1 0 0); [lia|apply within_setLeverage|intros _].
    apply (within_bind 1 0 0 0); [lia|apply within_placeMarketOrder|intros ?; apply within_ret].
Qed.

Lemma within_protectTrade (signal : ParsedSignal) (cp : number)
    (sized : Sizing.SizeResult) (orderResponse : OrderResponse) :
  within 5 6000 (protectTrade ex signal cp sized orderResponse).
Proof.
  unfold protectTrade. cbv zeta.
  apply (within_bind 0 5 3000 3000); [lia|apply within_sleep; lia|intros _].
  apply (within_bind 1 4 0 3000); [lia|apply within_getPosition|intros [live|]].
  - destruct (JsNumber.eqb _ _).
    + eapply within_weaken; [apply within_throw|lia|lia].
    + apply (within_bind 3 1 3000 0); [lia|apply within_setStopLossAttempts|intros _].
      apply (within_bind 1 0 0 0); [lia|apply within_setTakeProfits|intros _; apply within_ret].
  - eapply within_weaken; [apply within_throw|lia|lia].
Qed.

Lemma within_rollback (signal : ParsedSignal) (orderResponse : option OrderResponse) :
  within 2 0 (rollback ex signal orderResponse).
Proof.
  unfold rollback. destruct orderResponse.
  - apply (within_tryCatch 2 0 0 0); [lia|apply within_emergencyClosePosition|].
    intros ?; apply within_ret.
  - eapply within_weaken; [apply within_ret|lia|lia].
Qed.

End Runs.
End TraceFacts.
Module ExecuteFacts.
Import Client ClientFacts Trace TraceFacts.

Local Open Scope list_scope.
Local Open Scope stdpp_scope.

Lemma bind_returned {A B : Type} (m : M A) (k : A -> M B) (h h1 : History) (a : A) :
  m h = (h1, Returned a) -> bind m k h = k a h1.
Proof. intros H. unfold bind. now rewrite H. Qed.

Lemma bind_threw {A B : Type} (m : M A) (k : A -> M B) (h h1 : History) (e : JsError) :
  m h = (h1, Threw e) -> bind m k h = (h1, Threw e).
Proof. intros H. unfold bind. now rewrite H. Qed.

Lemma tryCatch_returned {A : Type} (m : M A) (handler : JsError -> M A)
    (h h1 : History) (a : A) :
  m h = (h1, Returned a) -> tryCatch m handler h = (h1, Returned a).
Proof. intros H. unfold tryCatch. now rewrite H. Qed.

Lemma tryCatch_threw {A : Type} (m : M A) (handler : JsError -> M A)
    (h h1 : History) (e : JsError) :
  m h = (h1, Threw e) -> tryCatch m handler h = handler e h1.
Proof. intros H. unfold tryCatch. now rewrite H. Qed.

Section Runs.
Variable ex : Exchange.

Lemma getMarketPrice_run (symbol : string) (h : History) :
  exists c, getMarketPrice ex symbol h
            = (h ++ [Sent (GetTickers (convertSymbolToBybit symbol))], c).
Proof.
  unfold getMarketPrice, bind. cbv zeta.
  destruct (makeRequest_run ex (GetTickers (convertSymbolToBybit symbol)) h) as [c Hc].
  rewrite Hc. destruct c as [payload|e]; [|eexists; reflexivity].
  destruct payload as [| |[|? ?]| |[|? ?]|[|ticker ?]]; try (eexists; reflexivity).
  destruct (_ || _); eexists; reflexivity.
Qed.






(** The rollback runs to its end whatever the exchange answers. *)
Lemma rollback_run (signal : ParsedSignal) (orderResponse : OrderResponse) (h : History) :
  exists requery,
    getPosition ex (convertSymbolToBybit (pair signal)) h
    = (h ++ [positionQuery signal], requery) /\
    rollback ex signal (Some orderResponse) h
    = (h ++ rollbackEvents signal requery, Returned tt).
Proof.
  destruct (getPosition_run ex (convertSymbolToBybit (pair signal)) h) as [requery Hq].
  exists requery. split; [exact Hq|].
  unfold rollback, emergencyClosePosition.
  destruct requery as [[live|]|e].
  - unfold tryCatch. rewrite (bind_returned _ _ _ _ _ Hq).
    rewrite (getPosition_live ex _ _ _ _ Hq).
    destruct (placeMarketOrder_run ex
                {| order_symbol := convertSymbolToBybit (pair signal);
                   order_side := oppositeSide (direction signal);
                   order_type := MarketOrder;
                   order_qty := info_size live |}
                (h ++ [positionQuery signal])) as [c Hc].
    unfold positionQuery in Hc.
    assert (Hh : (h ++ [Sent (GetPositionList
                               (convertSymbolToBybit (convertSymbolToBybit (pair signal))))])
                 ++ [Sent (PostCreateOrder (flattenOrder signal live))]
                 = h ++ rollbackEvents signal (Returned (Some live))).
    { rewrite <- (assoc_L (++)). reflexivity. }
    unfold marketOrderParams in Hc. cbn [order_symbol order_side order_qty] in Hc.
    change (Sent (PostCreateOrder _)) with
      (Sent (PostCreateOrder (flattenOrder signal live))) in Hc.
    rewrite Hh in Hc.
    destruct c as [r|e].
    + now rewrite (bind_returned _ _ _ _ _ Hc).
    + now rewrite (bind_threw _ _ _ _ _ Hc).
  - unfold tryCatch. now rewrite (bind_returned _ _ _ _ _ Hq).
  - unfold tryCatch. now rewrite (bind_threw _ _ _ _ _ Hq).
Qed.

Lemma executeTrade_eq (signal : ParsedSignal) (pv pct : number) (h : History) :
  executeTrade ex signal pv pct h =
    match openTrade ex signal pv pct h with
    | (h1, Threw e) => (h1, Threw e)
    | (h1, Returned (cp, sized, orderResponse)) =>
        match protectTrade ex signal cp sized orderResponse h1 with
        | (h2, Returned traded) => (h2, Returned traded)
        | (h2, Threw e) =>
            (fst (rollback ex signal (Some orderResponse) h2), Threw e)
        end
    end.
Proof.
  unfold executeTrade, executeTradeTry.
  destruct (openTrade ex signal pv pct h) as [h1 [[[cp sized] orderResponse]|e]];
    [|reflexivity].
  destruct (protectTrade ex signal cp sized orderResponse h1) as [h2 [traded|e]];
    [reflexivity|].
  destruct (rollback_run signal orderResponse h2) as (requery & _ & Hr).
  rewrite (bind_returned _ _ _ _ _ Hr), Hr. reflexivity.
Qed.

End Runs.
End ExecuteFacts.


Section ClientExtras.
Import Client ClientFacts Trace TraceFacts ExecuteFacts Scenarios MoreScenarios SizingExamples.

Local Open Scope list_scope.
Local Open Scope stdpp_scope.

(** X1: [executeTrade] adds at most 10 requests to the history, whatever
    the exchange answers, and removes nothing from it. *)
Theorem executeTrade_requests_bounded
    (ex : Exchange) (signal : ParsedSignal) (pv pct : number) (h : History) :
  exists added,
    fst (executeTrade ex signal pv pct h) = h ++ added /\
    (length (requests added) <= 10)%nat.
Proof.
  rewrite executeTrade_eq.
  destruct (within_openTrade ex signal pv pct h) as (a1 & E1 & Hr1 & _).
  assert (Hr1' : (length (requests a1) <= 3)%nat) by (destruct (entryZone signal); lia).
  destruct (openTrade ex signal pv pct h) as [h1 [[[cp sized] orderResponse]|e]];
    cbn [fst] in E1; subst h1.
  - destruct (within_protectTrade ex signal cp sized orderResponse (h ++ a1))
      as (a2 & E2 & Hr2 & _).
    destruct (protectTrade ex signal cp sized orderResponse (h ++ a1)) as [h2 [traded|e]];
      cbn [fst] in E2; subst h2.
    + exists (a1 ++ a2). cbn [fst]. split; [now rewrite (assoc_L (++))|].
      rewrite requests_app, length_app. lia.
    + destruct (within_rollback ex signal (Some orderResponse) ((h ++ a1) ++ a2))
        as (a3 & E3 & Hr3 & _).
      exists (a1 ++ a2 ++ a3). cbn [fst]. rewrite E3.
      split; [now rewrite !(assoc_L (++))|].
      rewrite !requests_app, !length_app. lia.
  - exists a1. cbn [fst]. split; [reflexivity|lia].
Qed.

(** The trade of the worked example on an exchange that refuses every
    stop-loss: the query of the price is left out, the entry being a
    price, and with the rollback 8 requests are sent. *)
Lemma executeTrade_requests_bounded_witness :
  let sent := fst (executeTrade (refusesStopLoss false) ladderLong
                     (JsNumber.ofZ 1000) (JsNumber.ofZ 1) []) in
  (length (requests sent) <= 10)%nat /\ length (requests sent) = 8%nat.
Proof.
  cbv zeta. split; [|reflexivity].
  destruct (executeTrade_requests_bounded (refusesStopLoss false) ladderLong
              (JsNumber.ofZ 1000) (JsNumber.ofZ 1) []) as (added & E & Hle).
  rewrite E. exact Hle.
Defined.



(** X3: when [executeTrade] fails after the market order was placed,
    whatever the failure (the fill is not verified, the stop-loss fails
    three times, the take-profit order is refused), the rollback is run
    once: the position is queried and, if the query returns a position, a
    market order on the opposite side for the floor of its size is sent;
    the error thrown to the caller is the error of the failure, whatever
    the rollback does. *)
Theorem executeTrade_failure_after_order
    (ex : Exchange) (signal : ParsedSignal) (pv pct : number)
    (h h1 h2 : History) (cp : number) (sized : Sizing.SizeResult)
    (orderResponse : OrderResponse) (e : JsError) :
  openTrade ex signal pv pct h = (h1, Returned (cp, sized, orderResponse)) ->
  protectTrade ex signal cp sized orderResponse h1 = (h2, Threw e) ->
  exists requery,
    getPosition ex (convertSymbolToBybit (pair signal)) h2
    = (h2 ++ [positionQuery signal], requery) /\
    executeTrade ex signal pv pct h = (h2 ++ rollbackEvents signal requery, Threw e).
Proof.
  intros Hopen Hprotect.
  destruct (rollback_run ex signal orderResponse h2) as (requery & Hq & Hr).
  exists requery. split; [exact Hq|].
  rewrite executeTrade_eq, Hopen, Hprotect, Hr. reflexivity.
Qed.

(** The take-profit order is refused after the stop-loss was set: the
    position is flattened with a Sell of 3333, the floor of the size
    3333.5 the exchange reports. *)
Lemma executeTrade_failure_after_order_witness :
  executeTrade refusesLimitOrders ladderLong (JsNumber.ofZ 1000) (JsNumber.ofZ 1) []
  = ([Sent (PostSetLeverage "XRPUSDT" (JsNumber.ofZ 20));
      Sent (PostCreateOrder
              {| co_symbol := "XRPUSDT"; co_side := Buy; co_orderType := MarketOrder;
                 co_qty := JsNumber.ofZ 3333; co_price := None; co_timeInForce := IOC;
                 co_reduceOnly := false |});
      Slept 3000; Sent (GetPositionList "XRPUSDT");
      Sent (PostTradingStop "XRPUSDT" (Fin (297 # 1000)));
      Sent (PostCreateOrder
              {| co_symbol := "XRPUSDT"; co_side := Sell; co_orderType := LimitOrder;
                 co_qty := JsNumber.ofZ 3333; co_price := Some (Fin (320 # 1000));
                 co_timeInForce := GTC; co_reduceOnly := true |});
      Sent (GetPositionList "XRPUSDT");
      Sent (PostCreateOrder
              {| co_symbol := "XRPUSDT"; co_side := Sell; co_orderType := MarketOrder;
                 co_qty := JsNumber.ofZ 3333; co_price := None; co_timeInForce := IOC;
                 co_reduceOnly := false |})],
     Threw (ParseFailed "{...}")).
Proof.
  destruct (executeTrade_failure_after_order refusesLimitOrders ladderLong
              (JsNumber.ofZ 1000) (JsNumber.ofZ 1) []
              (fst (openTrade refusesLimitOrders ladderLong (JsNumber.ofZ 1000)
                      (JsNumber.ofZ 1) []))
              (fst (protectTrade refusesLimitOrders ladderLong (Fin (300 # 1000))
                      (Sizing.calculatePositionSize ladderLong (JsNumber.ofZ 1000)
                         (JsNumber.ofZ 1) (Fin (300 # 1000)))
                      {| resp_orderId := Some "order-1"%string; resp_symbol := "XRPUSDT";
                         resp_side := Buy; resp_orderType := MarketOrder;
                         resp_qty := Fin (3333333333 # 1000000);
                         resp_status := "Created" |}
                      (fst (openTrade refusesLimitOrders ladderLong (JsNumber.ofZ 1000)
                              (JsNumber.ofZ 1) []))))
              (Fin (300 # 1000))
              (Sizing.calculatePositionSize ladderLong (JsNumber.ofZ 1000)
                 (JsNumber.ofZ 1) (Fin (300 # 1000)))
              {| resp_orderId := Some "order-1"%string; resp_symbol := "XRPUSDT";
                 resp_side := Buy; resp_orderType := MarketOrder;
                 resp_qty := Fin (3333333333 # 1000000); resp_status := "Created" |}
              (ParseFailed "{...}")
              eq_refl eq_refl) as (requery & Hq & Hrun).
  vm_compute in Hq. injection Hq as <-.
  rewrite Hrun. reflexivity.
Defined.



(** X5: a request fails towards its caller in one of three ways only: the
    network error of [fetch], the HTTP error of a response that is not
    ok, or the parse failure made of the body.  A response that is ok and
    carries a result code other than 0, 110043 and 34040 fails as a parse
    failure: the error made of its code and message is replaced before it
    leaves [handleResponse].  In every case the request was sent, once. *)
Theorem makeRequest_threw
    (ex : Exchange) (request : Request) (h h1 : History) (e : JsError) :
  makeRequest ex request h = (h1, Threw e) ->
  h1 = h ++ [Sent request] /\
  ((exists msg, ex h request = Rejected msg /\ e = FetchFailed msg) \/
   (exists response,
      ex h request = Responded response /\
      ((ok response = false /\
        e = HttpError (status response) (statusText response) (text response)) \/
       (ok response = true /\ e = ParseFailed (text response) /\
        forall data, parsed response = Some data -> isErrorCode (retCode data) = true)))).
Proof.
  unfold makeRequest, withRateLimit, makeRawRequest. intros [= <- He].
  split; [reflexivity|].
  destruct (ex h request) as [msg|response].
  - left. exists msg. split; [reflexivity|]. now injection He as <-.
  - right. exists response. split; [reflexivity|].
    unfold handleResponse, readEnvelope in He.
    destruct (ok response); cbn in He.
    + right. split; [reflexivity|].
      destruct (parsed response) as [data|].
      * destruct (isErrorCode (retCode data)) eqn:Ec; [|discriminate].
        injection He as <-. split; [reflexivity|]. now intros ? [= <-].
      * injection He as <-. split; [reflexivity|]. discriminate.
    + left. split; [reflexivity|]. now injection He as <-.
Qed.

(** The stop-loss request the exchange refuses with code 10001: the
    caller gets the parse failure of the body. *)
Lemma makeRequest_threw_witness :
  let request := PostTradingStop "XRPUSDT" (Fin (297 # 1000)) in
  makeRequest (refusesStopLoss false) request []
  = ([Sent request], Threw (ParseFailed "{...}")) /\
  exists response,
    refusesStopLoss false [] request = Responded response /\
    ok response = true /\
    forall data, parsed response = Some data -> isErrorCode (retCode data) = true.
Proof.
  cbv zeta. split; [reflexivity|].
  destruct (makeRequest_threw (refusesStopLoss false)
              (PostTradingStop "XRPUSDT" (Fin (297 # 1000))) [] _ _ eq_refl)
    as (_ & [(msg & Hr & _)|(response & Hr & [(Hok & _)|(Hok & _ & Hcode)])]).
  - discriminate.
  - injection Hr as <-. discriminate.
  - exists response. split; [exact Hr|]. split; [exact Hok|exact Hcode].
Defined.

(** X6: [getPosition] returns the first row of the list the exchange
    answers with whose symbol is the symbol asked for and whose size is
    above zero, and returns nothing exactly when the list has no such
    row; it sends one request. *)
Theorem getPosition_returned
    (ex : Exchange) (symbol : string) (h h1 : History) (found : option PositionInfo) :
  getPosition ex symbol h = (h1, Returned found) ->
  let bybitSymbol := convertSymbolToBybit symbol in
  let matches := fun row : PositionInfo =>
    info_symbol row = bybitSymbol /\ JsNumber.lt (Fin 0) (info_size row) in
  h1 = h ++ [Sent (GetPositionList bybitSymbol)] /\
  match found with
  | Some live =>
      matches live /\
      exists (rows : list PositionInfo) (i : nat),
        snd (makeRequest ex (GetPositionList bybitSymbol) h) = Returned (PPositions rows) /\
        rows !! i = Some live /\
        forall (j : nat) (row : PositionInfo),
          rows !! j = Some row -> (j < i)%nat -> ~ matches row
  | None =>
      forall rows,
        snd (makeRequest ex (GetPositionList bybitSymbol) h) = Returned (PPositions rows) ->
        forall row, row ∈ rows -> ~ matches row
  end.
Proof.
  intros Hrun bybitSymbol matches.
  destruct (getPosition_run ex symbol h) as [c Hc].
  rewrite Hc in Hrun. injection Hrun as <- ->.
  split; [reflexivity|].
  unfold getPosition in Hc. fold bybitSymbol in Hc. unfold bind in Hc.
  destruct (makeRequest ex (GetPositionList bybitSymbol) h) as [h0 [payload|e]] eqn:Er;
    [|discriminate].
  assert (Hm : forall row,
            (String.eqb (info_symbol row) bybitSymbol
             && JsNumber.gtb (info_size row) (Fin 0) = true) <-> matches row).
  { intros row. unfold matches, JsNumber.lt, JsNumber.gtb.
    rewrite andb_true_iff, String.eqb_eq. reflexivity. }
  destruct payload as [| |rows| | |]; cbn in Hc; try discriminate.
  - injection Hc as _ Hc.
    destruct (list_find _ rows) as [[i p]|] eqn:E; cbn in Hc.
    + subst found.
      apply list_find_Some in E as (Hi & Hp & Hbefore).
      split; [now apply Hm|]. exists rows, i. cbn. split; [reflexivity|].
      split; [exact Hi|]. intros j row Hj Hlt Hrow.
      apply (Hbefore j row Hj Hlt). now apply Hm.
    + subst found. cbn. intros rows1 [= <-] row Hin Hrow.
      apply list_find_None in E. rewrite Forall_forall in E.
      apply (E row Hin). now apply Hm.
  - injection Hc as _ <-. cbn. discriminate.
  - injection Hc as _ <-. cbn. discriminate.
Qed.

(** Of the three rows reported, the first has size 0 and the second is of
    another symbol: the third is returned. *)
Lemma getPosition_returned_witness :
  getPosition reportsThreeRows "SOL/USDT" []
  = ([Sent (GetPositionList "SOLUSDT")],
     Returned (Some (liveRow "SOLUSDT" (JsNumber.ofZ 5) (JsNumber.ofZ 100)))) /\
  info_symbol (liveRow "SOLUSDT" (JsNumber.ofZ 5) (JsNumber.ofZ 100)) = "SOLUSDT"%string /\
  JsNumber.lt (Fin 0) (info_size (liveRow "SOLUSDT" (JsNumber.ofZ 5) (JsNumber.ofZ 100))).
Proof.
  split; [reflexivity|].
  destruct (getPosition_returned reportsThreeRows "SOL/USDT" [] _ _ eq_refl)
    as (_ & Hmatch & _).
  exact Hmatch.
Defined.

(** X7: the price [getMarketPrice] returns is the last price of the first
    ticker the exchange answers with, it is not NaN and it is above zero;
    every other answer makes it throw.  It sends one request. *)
Theorem getMarketPrice_returned
    (ex : Exchange) (symbol : string) (h h1 : History) (price : number) :
  getMarketPrice ex symbol h = (h1, Returned price) ->
  let bybitSymbol := convertSymbolToBybit symbol in
  h1 = h ++ [Sent (GetTickers bybitSymbol)] /\
  JsNumber.isNaN price = false /\ JsNumber.lt (Fin 0) price /\
  exists ticker rest,
    snd (makeRequest ex (GetTickers bybitSymbol) h) = Returned (PTickers (ticker :: rest)) /\
    price = ticker_lastPrice ticker.
Proof.
  intros Hrun bybitSymbol.
  destruct (getMarketPrice_run ex symbol h) as [c Hc].
  rewrite Hc in Hrun. injection Hrun as <- ->.
  split; [reflexivity|].
  unfold getMarketPrice in Hc. fold bybitSymbol in Hc. unfold bind in Hc.
  destruct (makeRequest ex (GetTickers bybitSymbol) h) as [h0 [payload|e]] eqn:Er;
    [|discriminate].
  destruct payload as [| |[|? ?]| |[|? ?]|[|ticker rest]]; cbn in Hc; try discriminate.
  destruct (JsNumber.isNaN (ticker_lastPrice ticker)) eqn:En; [discriminate|].
  destruct (JsNumber.leb (ticker_lastPrice ticker) (Fin 0)) eqn:El; [discriminate|].
  cbn in Hc. injection Hc as _ <-.
  split; [exact En|]. split.
  - unfold JsNumber.lt. destruct (ticker_lastPrice ticker) as [q| | |];
      cbn in *; try discriminate; try reflexivity.
    now rewrite El.
  - exists ticker, rest. split; reflexivity.
Qed.

Lemma getMarketPrice_returned_witness :
  getMarketPrice reportsThreeRows "SOL/USDT" []
  = ([Sent (GetTickers "SOLUSDT")], Returned (JsNumber.ofZ 100)) /\
  JsNumber.isNaN (JsNumber.ofZ 100) = false /\ JsNumber.lt (Fin 0) (JsNumber.ofZ 100).
Proof.
  split; [reflexivity|].
  destruct (getMarketPrice_returned reportsThreeRows "SOL/USDT" [] _ _ eq_refl)
    as (_ & Hnan & Hpos & _).
  split; [exact Hnan|exact Hpos].
Defined.

(** X8: [cancelStopLoss] never throws.  After the list of the open orders
    it sends cancellations only, one for each order of the list that
    carries a stop-loss, in the order of the list, up to the first
    cancellation that fails; when the list cannot be read it sends
    nothing more. *)
Theorem cancelStopLoss_cancels_listed
    (ex : Exchange) (symbol : string) (h : History) :
  let bybitSymbol := convertSymbolToBybit symbol in
  exists cancelled : list OpenOrderRow,
    cancelStopLoss ex symbol h
    = (h ++ Sent (GetOpenOrders bybitSymbol)
         :: ((fun order => Sent (PostCancelOrder bybitSymbol (row_orderId order)))
             <$> cancelled),
       Returned tt) /\
    match snd (makeRequest ex (GetOpenOrders bybitSymbol) h) with
    | Returned (POpenOrders rows) =>
        exists skipped, List.filter isStopLossOrder rows = cancelled ++ skipped /\
          (skipped = [] \/
           exists order e,
             last cancelled = Some order /\
             snd (makeRequest ex (PostCancelOrder bybitSymbol (row_orderId order))
                    (h ++ Sent (GetOpenOrders bybitSymbol)
                       :: ((fun order => Sent (PostCancelOrder bybitSymbol (row_orderId order)))
                           <$> removelast cancelled)))
             = Threw e)
    | _ => cancelled = []
    end.
Proof.
  intros bybitSymbol.
  assert (Hloop : forall orders h0,
    exists cancelled skipped,
      orders = cancelled ++ skipped /\
      fst (cancelOrders ex bybitSymbol orders h0)
      = h0 ++ ((fun order => Sent (PostCancelOrder bybitSymbol (row_orderId order)))
               <$> cancelled) /\
      (skipped = [] \/
       exists order e,
         last cancelled = Some order /\
         snd (makeRequest ex (PostCancelOrder bybitSymbol (row_orderId order))
                (h0 ++ ((fun order => Sent (PostCancelOrder bybitSymbol (row_orderId order)))
                        <$> removelast cancelled)))
         = Threw e)).
  { induction orders as [|order rest IH]; intros h0.
    - exists [], []. cbn. rewrite app_nil_r. split; [reflexivity|]. split; [reflexivity|now left].
    - destruct (makeRequest_run ex (PostCancelOrder bybitSymbol (row_orderId order)) h0)
        as [c Hc].
      destruct c as [payload|e].
      + assert (Hstep : cancelOrders ex bybitSymbol (order :: rest) h0
                        = cancelOrders ex bybitSymbol rest
                            (h0 ++ [Sent (PostCancelOrder bybitSymbol (row_orderId order))])).
        { cbn [cancelOrders]. now rewrite (bind_returned _ _ _ _ _ Hc). }
        destruct (IH (h0 ++ [Sent (PostCancelOrder bybitSymbol (row_orderId order))]))
          as (cancelled & skipped & Hsplit & Hfst & Hlast).
        exists (order :: cancelled), skipped.
        split; [now rewrite Hsplit|].
        split; [rewrite Hstep, Hfst; cbn; now rewrite <- (assoc_L (++))|].
        destruct Hlast as [Hs|(o & e & Hl & Hthrew)]; [now left|right].
        exists o, e. destruct cancelled as [|c0 cancelled]; [discriminate|].
        split; [exact Hl|].
        change (removelast (order :: c0 :: cancelled))
          with (order :: removelast (c0 :: cancelled)).
        rewrite fmap_cons. rewrite <- (assoc_L (++)) in Hthrew. exact Hthrew.
      + assert (Hstep : cancelOrders ex bybitSymbol (order :: rest) h0
                        = (h0 ++ [Sent (PostCancelOrder bybitSymbol (row_orderId order))],
                           Threw e)).
        { cbn [cancelOrders]. now rewrite (bind_threw _ _ _ _ _ Hc). }
        exists [order], rest. split; [reflexivity|].
        split; [now rewrite Hstep|].
        right. exists order, e. split; [reflexivity|].
        change (removelast [order]) with (@nil OpenOrderRow).
        rewrite fmap_nil, app_nil_r. now rewrite Hc. }
  unfold cancelStopLoss. fold bybitSymbol. unfold tryCatch, bind.
  destruct (makeRequest_run ex (GetOpenOrders bybitSymbol) h) as [c Hc].
  rewrite Hc. cbn [snd].
  destruct c as [payload|e]; [|exists []; split; reflexivity].
  destruct payload as [| |rows| |rows|rows]; try (exists []; split; reflexivity).
  destruct (Hloop (List.filter isStopLossOrder rows) (h ++ [Sent (GetOpenOrders bybitSymbol)]))
    as (cancelled & skipped & Hsplit & Hfst & Hlast).
  exists cancelled. split.
  - destruct (cancelOrders ex bybitSymbol _ _) as [h2 [[]|e]]; cbn in Hfst; subst h2;
      now rewrite <- (assoc_L (++)).
  - exists skipped. split; [exact Hsplit|].
    destruct Hlast as [Hs|(o & e & Hl & Hthrew)]; [now left|right].
    exists o, e. split; [exact Hl|].
    rewrite <- (assoc_L (++)) in Hthrew. exact Hthrew.
Qed.

(** The second cancellation is refused: it is the last request, and the
    failure stays inside [cancelStopLoss]. *)
Lemma cancelStopLoss_cancels_listed_witness :
  fst (cancelStopLoss refusesSecondCancel "SOL/USDT" [])
  = [Sent (GetOpenOrders "SOLUSDT");
     Sent (PostCancelOrder "SOLUSDT" "sl-1");
     Sent (PostCancelOrder "SOLUSDT" "sl-2")] /\
  snd (cancelStopLoss refusesSecondCancel "SOL/USDT" []) = Returned tt.
Proof.
  split; [reflexivity|].
  destruct (cancelStopLoss_cancels_listed refusesSecondCancel "SOL/USDT" [])
    as (cancelled & Hrun & _).
  now rewrite Hrun.
Defined.

End ClientExtras.

(** * More about the position manager *)

Module LifecycleFacts.
Import Client ClientFacts Manager ManagerFacts Trace Lifecycle.

Local Open Scope list_scope.
Local Open Scope stdpp_scope.

Lemma sameTrade_refl (position : Position) : sameTrade position position.
Proof. split; try reflexivity; [|tauto]. intros i tp Hi Hf. now exists tp. Qed.

Lemma sameTrade_trans (a b c : Position) : sameTrade a b -> sameTrade b c -> sameTrade a c.
Proof.
  intros [] []. split; try congruence; [|tauto].
  intros i tp Hi Hf.
  destruct (same_filled0 i tp Hi Hf) as (tp1 & Hi1 & Hf1).
  exact (same_filled1 i tp1 Hi1 Hf1).
Qed.

Lemma rung_markFilled (tp : TrackedLevel) : rung (markFilled tp) = rung tp.
Proof. reflexivity. Qed.

Lemma rungs_insert (levels : list TrackedLevel) (i : nat) (tp : TrackedLevel) :
  levels !! i = Some tp ->
  rung <$> <[i := markFilled tp]> levels = rung <$> levels.
Proof.
  intros Hi. rewrite list_fmap_insert, rung_markFilled.
  apply list_insert_id. now rewrite list_lookup_fmap, Hi.
Qed.

Lemma filter_filled_insert (levels : list TrackedLevel) (i : nat) (tp : TrackedLevel) :
  levels !! i = Some tp -> tp_filled tp = false ->
  length (List.filter tp_filled (<[i := markFilled tp]> levels))
  = S (length (List.filter tp_filled levels)).
Proof.
  revert i. induction levels as [|x rest IH]; intros i Hi Hf; [discriminate|].
  destruct i as [|i]; cbn in Hi.
  - injection Hi as ->.
    change (<[0%nat := markFilled tp]> (tp :: rest)) with (markFilled tp :: rest).
    cbn [List.filter markFilled tp_filled]. now rewrite Hf.
  - change (<[S i := markFilled tp]> (x :: rest)) with (x :: <[i := markFilled tp]> rest).
    cbn [List.filter]. destruct (tp_filled x); cbn [length]; now rewrite (IH i Hi Hf).
Qed.

Lemma filledCount_bound (position : Position) :
  (filledCount position <= length (pos_takeProfits position))%nat.
Proof. unfold filledCount. apply List.filter_length_le. Qed.

Lemma findLevel_elem (levels : list TrackedLevel) (wanted : Z) (tp : TrackedLevel) :
  findLevel levels wanted = Some tp -> tp ∈ levels.
Proof.
  unfold findLevel. intros H. apply List.find_some in H as [H _].
  now apply list_elem_of_In.
Qed.

Lemma newStopLoss_anchored (position : Position) (tpLevel : Z) :
  anchored position (newStopLoss position tpLevel).
Proof.
  unfold newStopLoss, anchored.
  destruct (tpLevel =? 1)%Z; [right; now left|].
  destruct (tpLevel =? 2)%Z.
  - destruct (findLevel _ 1) as [tp1|] eqn:E; [|right; now left].
    right. right. exists tp1. split; [exact (findLevel_elem _ _ _ E)|reflexivity].
  - destruct (findLevel _ (tpLevel - 1)) as [prevTP|] eqn:E; [|now left].
    right. right. exists prevTP. split; [exact (findLevel_elem _ _ _ E)|reflexivity].
Qed.

(** A price of the ladder of the record is a price of the ladder of the
    trade it records. *)
Lemma anchored_step (origin before : Position) (mid next : number) :
  sameTrade origin before ->
  anchored origin (pos_stopLoss before) ->
  anchored before next ->
  anchored origin next.
Proof.
  intros Hsame Hmid [->|[->|(tp & Hin & ->)]].
  - exact Hmid.
  - right. left. apply (same_entryPrice _ _ Hsame).
  - right. right.
    assert (Hr : rung tp ∈ rung <$> pos_takeProfits origin).
    { rewrite <- (same_rungs _ _ Hsame). now apply list_elem_of_fmap_2. }
    apply list_elem_of_fmap in Hr as (tp0 & Hr & Hin0).
    exists tp0. split; [exact Hin0|]. now injection Hr.
Qed.

Section Runs.

Variable ex : Exchange.

Lemma Traced_refl (position : Position) (h : History) : Traced position h position h.
Proof.
  split; try reflexivity; [apply sameTrade_refl|now split|now left|].
  exists []. rewrite app_nil_r. split; [reflexivity|]. split; [constructor|cbn [length]; lia].
Qed.

Lemma Traced_trans (a b c : Position) (h h1 h2 : History) :
  Traced a h b h1 -> Traced b h1 c h2 -> Traced a h c h2.
Proof.
  intros [Hs1 Ht1 [Hc1 Hp1] Ha1 (s1 & E1 & F1 & L1)] [Hs2 Ht2 [Hc2 Hp2] Ha2 (s2 & E2 & F2 & L2)].
  split.
  - exact (sameTrade_trans _ _ _ Hs1 Hs2).
  - congruence.
  - split; congruence.
  - exact (anchored_step a b (pos_stopLoss b) _ Hs1 Ha1 Ha2).
  - exists (s1 ++ s2). split; [subst; now rewrite (assoc_L (++))|].
    split; [|rewrite length_app; lia].
    apply Forall_app. split; [exact F1|].
    now rewrite <- (same_symbol _ _ Hs1).
Qed.

(** The mark of a level and the adjustment of the stop-loss it asks for. *)
Lemma hit_traced (position : Position) (i : nat) (tp : TrackedLevel) (h : History) :
  pos_takeProfits position !! i = Some tp -> tp_filled tp = false ->
  let hit := withTakeProfits position (<[i := markFilled tp]> (pos_takeProfits position)) in
  Traced position h (snd (adjustStopLoss ex hit (tp_level tp) h))
         (fst (adjustStopLoss ex hit (tp_level tp) h)).
Proof.
  intros Hi Hf hit.
  assert (Hsame : sameTrade position hit).
  { split; try reflexivity; [now apply rungs_insert| |tauto].
    intros j tpj Hj Hfj. cbn [hit pos_takeProfits withTakeProfits].
    destruct (decide (j = i)) as [->|Hne].
    - exists (markFilled tp). split; [|reflexivity].
      apply list_lookup_insert_eq. now apply lookup_lt_Some in Hi.
    - exists tpj. split; [|exact Hfj]. now rewrite list_lookup_insert_ne. }
  assert (Hcount : filledCount hit = S (filledCount position)).
  { unfold filledCount. cbn [hit pos_takeProfits withTakeProfits].
    now apply filter_filled_insert. }
  assert (Hanchor : anchored position (newStopLoss hit (tp_level tp))).
  { apply (anchored_step position hit (pos_stopLoss hit)); [exact Hsame|now left|].
    apply newStopLoss_anchored. }
  destruct (adjustStopLoss_cases ex hit (tp_level tp) h) as [[_ ->]|[_ [->| ->]]];
    cbn [fst snd].
  - split; try reflexivity; [exact Hsame|now split|now left|].
    exists []. rewrite app_nil_r. split; [reflexivity|]. split; [constructor|rewrite Hcount; cbn [length]; lia].
  - split; try reflexivity.
    + apply (sameTrade_trans _ hit); [exact Hsame|].
      split; try reflexivity; [|tauto]. intros j tpj Hj Hfj. now exists tpj.
    + now split.
    + exact Hanchor.
    + eexists. split; [reflexivity|]. split.
      * constructor; [|constructor]. eexists. reflexivity.
      * change (filledCount (withStopLoss hit _)) with (filledCount hit).
        rewrite Hcount. cbn [length]. lia.
  - split; try reflexivity; [exact Hsame|now split|now left|].
    eexists. split; [reflexivity|]. split.
    + constructor; [|constructor]. eexists. reflexivity.
    + rewrite Hcount. cbn [length]. lia.
Qed.

Lemma checkLevels_traced (indices : list nat) (position : Position)
    (oldPrice newPrice : number) (h : History) :
  Traced position h (snd (checkLevels ex indices position oldPrice newPrice h))
         (fst (checkLevels ex indices position oldPrice newPrice h)).
Proof.
  revert position h.
  induction indices as [|i rest IH]; intros position h; cbn [checkLevels].
  - apply Traced_refl.
  - destruct (pos_takeProfits position !! i) as [tp|] eqn:Hi; [|apply IH].
    destruct (tp_filled tp) eqn:Hf; [apply IH|].
    destruct (checkPriceHitLevel _ _ _ _); [|apply IH].
    pose proof (hit_traced position i tp h Hi Hf) as Hhit. cbv zeta in Hhit.
    destruct (adjustStopLoss ex _ (tp_level tp) h) as [h1 adjusted].
    cbn [fst snd] in Hhit.
    exact (Traced_trans _ _ _ _ _ _ Hhit (IH adjusted h1)).
Qed.

(** [updatePosition] on a position of the registry. *)
Lemma updatePosition_traced (positionId : string) (positions : gmap string Position)
    (h : History) (position : Position) :
  positions !! positionId = Some position ->
  let query := Sent (GetPositionList (convertSymbolToBybit (pos_symbol position))) in
  exists after stops,
    updatePosition ex positionId positions h
    = (<[positionId := after]> positions, h ++ query :: stops, Some after) /\
    sameTrade position after /\
    anchored position (pos_stopLoss after) /\
    Forall (isStopFor (convertSymbolToBybit (pos_symbol position))) stops /\
    (length stops + filledCount position <= filledCount after)%nat /\
    (pos_status after = pos_status position \/ pos_status after = COMPLETED).
Proof.
  intros Hp query. unfold updatePosition. rewrite Hp.
  destruct (getPosition_run ex (pos_symbol position) h) as [c Hc]. fold query in Hc.
  rewrite Hc. destruct c as [[live|]|e]; cbv zeta.
  - set (priced := withMarket position _ _).
    pose proof (checkLevels_traced (seq 0 (length (pos_takeProfits priced))) priced
                  (pos_currentPrice position) (pos_currentPrice priced) (h ++ [query]))
      as [Hs Ht _ Ha (stops & E & F & L)].
    unfold checkTakeProfitHits.
    destruct (checkLevels ex _ priced _ _ _) as [h2 after]. cbn [fst snd] in *.
    exists after, stops. subst h2. rewrite <- (assoc_L (++)). cbn [app].
    split; [reflexivity|].
    split.
    { apply (sameTrade_trans _ priced); [|exact Hs].
      split; try reflexivity; [|tauto]. intros j tpj Hj Hfj. now exists tpj. }
    split; [exact Ha|]. split; [exact F|]. split; [exact L|]. now left.
  - exists (withStatus position COMPLETED), []. split; [reflexivity|].
    split.
    { split; try reflexivity. intros j tpj Hj Hfj. now exists tpj. }
    split; [now left|]. split; [constructor|]. split; [cbn [length]; change (filledCount (withStatus position COMPLETED)) with (filledCount position); lia|now right].
  - exists position, []. rewrite insert_id by exact Hp. split; [reflexivity|].
    split; [apply sameTrade_refl|]. split; [now left|]. split; [constructor|].
    split; [cbn [length]; lia|now left].
Qed.

Lemma pollUpdates_traced (positionIds : list string) (positions : gmap string Position)
    (h : History) (positionId : string) (position : Position) :
  positions !! positionId = Some position ->
  exists after,
    fst (pollUpdates ex positionIds positions h) !! positionId = Some after /\
    sameTrade position after /\ anchored position (pos_stopLoss after).
Proof.
  revert positions h position.
  induction positionIds as [|first rest IH]; intros positions h position Hp;
    cbn [pollUpdates].
  - exists position. split; [exact Hp|]. split; [apply sameTrade_refl|now left].
  - destruct (decide (first = positionId)) as [->|Hne].
    + destruct (updatePosition_traced positionId positions h position Hp)
        as (mid & stops & Hrun & Hs & Ha & _).
      rewrite Hrun.
      destruct (IH (<[positionId := mid]> positions)
                  (h ++ Sent (GetPositionList (convertSymbolToBybit (pos_symbol position)))
                     :: stops) mid
                  ltac:(now rewrite lookup_insert_eq)) as (after & Hl & Hs1 & Ha1).
      exists after. split; [exact Hl|].
      split; [exact (sameTrade_trans _ _ _ Hs Hs1)|].
      exact (anchored_step position mid (pos_stopLoss mid) _ Hs Ha Ha1).
    + pose proof (updatePosition_other ex first positionId positions h
                    ltac:(congruence)) as Ho.
      destruct (updatePosition ex first positions h) as [[positions1 h1] r].
      cbn [fst] in Ho. apply IH. now rewrite Ho.
Qed.

Lemma pollUpdates_dom (positionIds : list string) (positions : gmap string Position)
    (h : History) (positionId : string) :
  positions !! positionId = None ->
  fst (pollUpdates ex positionIds positions h) !! positionId = None.
Proof.
  revert positions h.
  induction positionIds as [|first rest IH]; intros positions h Hp; cbn [pollUpdates];
    [exact Hp|].
  destruct (decide (first = positionId)) as [->|Hne].
  - unfold updatePosition. rewrite Hp. now apply IH.
  - pose proof (updatePosition_other ex first positionId positions h
                  ltac:(congruence)) as Ho.
    destruct (updatePosition ex first positions h) as [[positions1 h1] r].
    cbn [fst] in Ho. apply IH. now rewrite Ho.
Qed.

End Runs.
End LifecycleFacts.

Module CleanupFacts.
Import Client Manager Cleanup.

Local Open Scope list_scope.
Local Open Scope stdpp_scope.

Lemma sweep_spec (cutoffTime : Z) (entries : list (string * DatedPosition))
    (positions : gmap string DatedPosition) (removedCount : nat) :
  NoDup entries.*1 ->
  (forall id position, (id, position) ∈ entries -> positions !! id = Some position) ->
  (forall id,
     fst (sweep cutoffTime entries positions removedCount) !! id
     = if decide (id ∈ entries.*1)
       then match positions !! id with
            | Some position => if expired cutoffTime position then None else Some position
            | None => None
            end
       else positions !! id) /\
  (snd (sweep cutoffTime entries positions removedCount)
   + base.size (fst (sweep cutoffTime entries positions removedCount))
   = removedCount + base.size positions)%nat.
Proof.
  revert positions removedCount.
  induction entries as [|[id0 p0] rest IH]; intros positions removedCount Hnd Hin.
  - split; [|reflexivity]. intros id. cbn.
    destruct (decide (id ∈ [])) as [H|_]; [|reflexivity]. now apply elem_of_nil in H.
  - cbn [fmap list_fmap fst] in Hnd. apply NoDup_cons in Hnd as [Hfresh Hnd].
    assert (H0 : positions !! id0 = Some p0) by (apply Hin; now left).
    cbn [sweep].
    destruct (expired cutoffTime p0) eqn:Ex.
    + destruct (IH (delete id0 positions) (S removedCount) Hnd) as [Hlook Hsize].
      { intros id position Hmem.
        assert (id <> id0).
        { intros ->. apply Hfresh. apply list_elem_of_fmap. now exists (id0, position). }
        rewrite lookup_delete_ne by congruence. apply Hin. now right. }
      split.
      * intros id. rewrite Hlook.
        destruct (decide (id = id0)) as [->|Hne].
        -- rewrite lookup_delete_eq, H0, Ex.
           destruct (decide (id0 ∈ rest.*1)) as [?|_]; [contradiction|].
           destruct (decide (id0 ∈ ((id0, p0) :: rest).*1)) as [_|Hn]; [reflexivity|].
           exfalso. apply Hn. now left.
        -- rewrite lookup_delete_ne by congruence.
           destruct (decide (id ∈ rest.*1)) as [Hr|Hr];
             destruct (decide (id ∈ ((id0, p0) :: rest).*1)) as [Hc|Hc]; try reflexivity.
           ++ exfalso. apply Hc. now right.
           ++ exfalso. apply elem_of_cons in Hc as [?|?]; [cbn in *; congruence|contradiction].
      * rewrite Hsize, map_size_delete, H0. cbn.
        assert (base.size positions <> 0%nat).
        { intros Hz. apply map_size_empty_inv in Hz. subst. now rewrite lookup_empty in H0. }
        lia.
    + destruct (IH positions removedCount Hnd) as [Hlook Hsize].
      { intros id position Hmem. apply Hin. now right. }
      split; [|exact Hsize].
      intros id. rewrite Hlook.
      destruct (decide (id = id0)) as [->|Hne].
      * destruct (decide (id0 ∈ rest.*1)) as [?|_]; [contradiction|].
        destruct (decide (id0 ∈ ((id0, p0) :: rest).*1)) as [_|Hn].
        -- now rewrite H0, Ex.
        -- exfalso. apply Hn. now left.
      * destruct (decide (id ∈ rest.*1)) as [Hr|Hr];
          destruct (decide (id ∈ ((id0, p0) :: rest).*1)) as [Hc|Hc]; try reflexivity.
        -- exfalso. apply Hc. now right.
        -- exfalso. apply elem_of_cons in Hc as [?|?]; [cbn in *; congruence|contradiction].
Qed.

Lemma sweep_nothing (cutoffTime : Z) (entries : list (string * DatedPosition))
    (positions : gmap string DatedPosition) (removedCount : nat) :
  (forall id position, (id, position) ∈ entries -> expired cutoffTime position = false) ->
  sweep cutoffTime entries positions removedCount = (positions, removedCount).
Proof.
  induction entries as [|[id0 p0] rest IH]; intros Hno; [reflexivity|].
  cbn [sweep]. rewrite (Hno id0 p0) by now left.
  apply IH. intros id position Hmem. apply (Hno id position). now right.
Qed.

Lemma cleanup_lookup (maxAge now : Z) (positions : gmap string DatedPosition) (id : string) :
  fst (cleanupOldPositions maxAge now positions) !! id
  = match positions !! id with
    | Some position => if expired (now - maxAge) position then None else Some position
    | None => None
    end.
Proof.
  unfold cleanupOldPositions. cbv zeta.
  destruct (sweep_spec (now - maxAge) (map_to_list positions) positions 0
              (NoDup_fst_map_to_list positions)) as [Hlook _].
  { intros id0 position. apply elem_of_map_to_list. }
  rewrite Hlook.
  destruct (decide (id ∈ (map_to_list positions).*1)) as [_|Hn]; [reflexivity|].
  destruct (positions !! id) as [position|] eqn:E; [|reflexivity].
  exfalso. apply Hn. apply list_elem_of_fmap. exists (id, position).
  split; [reflexivity|]. now apply elem_of_map_to_list.
Qed.

End CleanupFacts.

Section ManagerExtras.
Import Client ClientFacts Manager ManagerFacts Trace Lifecycle LifecycleFacts Cleanup
       CleanupFacts Scenarios MoreScenarios.

Local Open Scope list_scope.
Local Open Scope stdpp_scope.

(** X9: over every run of poll updates, whatever the exchange answers, a
    position of the registry stays the record of the same trade: its id,
    symbol, side, size, entry price and leverage and the levels and prices
    of its ladder do not change, a level marked filled stays filled, and
    a position that is COMPLETED stays COMPLETED; and no position is
    added to the registry. *)
Theorem pollUpdates_same_trade
    (ex : Exchange) (positionIds : list string) (positions : gmap string Position)
    (h : History) (positionId : string) :
  match positions !! positionId with
  | Some position =>
      exists after,
        fst (pollUpdates ex positionIds positions h) !! positionId = Some after /\
        sameTrade position after
  | None => fst (pollUpdates ex positionIds positions h) !! positionId = None
  end.
Proof.
  destruct (positions !! positionId) as [position|] eqn:Hp.
  - destruct (pollUpdates_traced ex positionIds positions h positionId position Hp)
      as (after & Hl & Hs & _).
    now exists after.
  - now apply pollUpdates_dom.
Qed.

(** X10: [updatePosition] of an id the registry does not hold sends
    nothing and returns nothing.  For a position of the registry it sends
    the query of the position on the exchange and, after it, stop-loss
    requests for the symbol only, at most one for each level of the
    ladder it marks filled in this update: it opens, closes and cancels
    no order. *)
Theorem updatePosition_requests
    (ex : Exchange) (positionId : string) (positions : gmap string Position)
    (h : History) :
  match positions !! positionId with
  | None => updatePosition ex positionId positions h = (positions, h, None)
  | Some position =>
      let bybitSymbol := convertSymbolToBybit (pos_symbol position) in
      exists after stops,
        updatePosition ex positionId positions h
        = (<[positionId := after]> positions,
           h ++ Sent (GetPositionList bybitSymbol) :: stops, Some after) /\
        Forall (isStopFor bybitSymbol) stops /\
        (length stops + filledCount position <= filledCount after)%nat /\
        (filledCount after <= length (pos_takeProfits position))%nat
  end.
Proof.
  destruct (positions !! positionId) as [position|] eqn:Hp.
  - destruct (updatePosition_traced ex positionId positions h position Hp)
      as (after & stops & Hrun & Hs & _ & Hf & Hl & _).
    exists after, stops. split; [exact Hrun|]. split; [exact Hf|]. split; [exact Hl|].
    pose proof (filledCount_bound after) as Hb.
    assert (Hlen : length (pos_takeProfits after) = length (pos_takeProfits position)).
    { rewrite <- (length_fmap rung (pos_takeProfits after)), (same_rungs _ _ Hs).
      apply length_fmap. }
    lia.
  - unfold updatePosition. now rewrite Hp.
Qed.

(** An id the registry does not hold, an exchange that cannot be reached
    and an exchange that reports no position. *)
Lemma updatePosition_requests_witness :
  updatePosition unreachable "none" trailingRegistry [] = (trailingRegistry, [], None) /\
  updatePosition unreachable trailingId trailingRegistry []
  = (trailingRegistry, [Sent (GetPositionList "SOLUSDT")], Some trailingPosition) /\
  updatePosition reportsNoPosition trailingId trailingRegistry []
  = (<[trailingId := withStatus trailingPosition COMPLETED]> trailingRegistry,
     [Sent (GetPositionList "SOLUSDT")], Some (withStatus trailingPosition COMPLETED)).
Proof.
  split; [|split; reflexivity].
  exact (updatePosition_requests unreachable "none" trailingRegistry []).
Defined.

(** X11: over every run of poll updates the stop-loss stored for a
    position is the stop-loss it had before the run, its entry price, or
    the price of a level of its ladder. *)
Theorem pollUpdates_stop_anchored
    (ex : Exchange) (positionIds : list string) (positions : gmap string Position)
    (h : History) (positionId : string) (position : Position) :
  positions !! positionId = Some position ->
  exists after,
    fst (pollUpdates ex positionIds positions h) !! positionId = Some after /\
    (pos_stopLoss after = pos_stopLoss position \/
     pos_stopLoss after = pos_entryPrice position \/
     exists tp, tp ∈ pos_takeProfits position /\ pos_stopLoss after = tp_price tp).
Proof.
  intros Hp.
  destruct (pollUpdates_traced ex positionIds positions h positionId position Hp)
    as (after & Hl & _ & Ha).
  exists after. split; [exact Hl|exact Ha].
Qed.

(** The worked example: after the marks 102, 103 and 104 the stop-loss
    is at 102, the price of the first level. *)
Lemma pollUpdates_stop_anchored_witness :
  let position :=
    snd (createPosition trailingSignal (Some "order-1"%string) (JsNumber.ofZ 20)
           (JsNumber.ofZ 10) (JsNumber.ofZ 100) 1700000000000 ∅) in
  let after :=
    fst (pollUpdates (markFeed exampleMarks) [trailingId; trailingId; trailingId]
           trailingRegistry []) !! trailingId in
  (pos_stopLoss <$> after) = Some (JsNumber.ofZ 102) /\
  exists after,
    fst (pollUpdates (markFeed exampleMarks) [trailingId; trailingId; trailingId]
           trailingRegistry []) !! trailingId = Some after /\
    (pos_stopLoss after = pos_stopLoss position \/
     pos_stopLoss after = pos_entryPrice position \/
     exists tp, tp ∈ pos_takeProfits position /\ pos_stopLoss after = tp_price tp).
Proof.
  cbv zeta. split; [reflexivity|].
  exact (pollUpdates_stop_anchored (markFeed exampleMarks)
           [trailingId; trailingId; trailingId] trailingRegistry [] trailingId _ eq_refl).
Defined.

(** X12: [cleanupOldPositions] removes from the registry exactly the
    positions that are COMPLETED and were last updated before
    [now - maxAge], and returns their number.  A position that is not
    COMPLETED is kept whatever its age, a position updated at the cutoff
    or after it is kept, and a second cleanup at the same time removes
    nothing. *)
Theorem cleanupOldPositions_removes_expired
    (maxAge now : Z) (positions : gmap string DatedPosition) :
  let kept := fst (cleanupOldPositions maxAge now positions) in
  let removedCount := snd (cleanupOldPositions maxAge now positions) in
  (forall id,
     kept !! id
     = match positions !! id with
       | Some position =>
           if bool_decide (pos_status (dated position) = COMPLETED)
              && (updatedAt position <? now - maxAge)%Z
           then None else Some position
       | None => None
       end) /\
  (removedCount + base.size kept = base.size positions)%nat /\
  (forall id position,
     positions !! id = Some position ->
     pos_status (dated position) <> COMPLETED \/ (now - maxAge <= updatedAt position)%Z ->
     kept !! id = Some position) /\
  cleanupOldPositions maxAge now kept = (kept, 0%nat).
Proof.
  cbv zeta.
  split; [intros id; apply cleanup_lookup|]. split; [|split].
  - unfold cleanupOldPositions. cbv zeta.
    destruct (sweep_spec (now - maxAge) (map_to_list positions) positions 0
                (NoDup_fst_map_to_list positions)) as [_ Hsize].
    { intros id0 position. apply elem_of_map_to_list. }
    exact Hsize.
  - intros id position Hp Hkeep. rewrite cleanup_lookup, Hp.
    assert (Hex : expired (now - maxAge) position = false).
    { unfold expired. destruct Hkeep as [Hs|Ht].
      - now rewrite bool_decide_eq_false_2.
      - apply andb_false_iff. right. apply Z.ltb_ge. exact Ht. }
    now rewrite Hex.
  - unfold cleanupOldPositions at 1. cbv zeta. apply sweep_nothing.
    intros id position Hmem. apply elem_of_map_to_list in Hmem.
    rewrite cleanup_lookup in Hmem.
    destruct (positions !! id) as [p|]; [|discriminate].
    destruct (expired (now - maxAge) p) eqn:Ex; [discriminate|].
    now injection Hmem as <-.
Qed.

(** Of the three positions only the one COMPLETED 25 hours before is
    removed by the cleanup with the default age of 24 hours. *)
Lemma cleanupOldPositions_removes_expired_witness :
  let kept := fst (cleanupOldPositions defaultMaxAge readingTime datedRegistry) in
  snd (cleanupOldPositions defaultMaxAge readingTime datedRegistry) = 1%nat /\
  kept !! "stale"%string = None /\
  kept !! "fresh"%string = datedRegistry !! "fresh"%string /\
  kept !! "open"%string = datedRegistry !! "open"%string.
Proof.
  cbv zeta.
  destruct (cleanupOldPositions_removes_expired defaultMaxAge readingTime datedRegistry)
    as (Hlook & _ & _ & _).
  split; [reflexivity|].
  split; [rewrite Hlook; reflexivity|].
  split; rewrite Hlook; reflexivity.
Defined.

End ManagerExtras.

Module JumpFacts.
Import Client ClientFacts Manager ManagerFacts Trace Lifecycle.

Local Open Scope list_scope.
Local Open Scope stdpp_scope.

Lemma markFilled_filled (tp : TrackedLevel) : tp_filled tp = true -> markFilled tp = tp.
Proof. destruct tp as [l p f]. cbn. now intros ->. Qed.

Lemma filledUpTo_lookup (levels : list TrackedLevel) (k i : nat) :
  filledUpTo levels k !! i
  = (if bool_decide (i < k)%nat then markFilled else id) <$> levels !! i.
Proof.
  unfold filledUpTo.
  destruct (decide (i < k)%nat) as [Hlt|Hge].
  - rewrite bool_decide_eq_true_2 by exact Hlt.
    destruct (decide (i < length levels)%nat) as [Hin|Hout].
    + rewrite lookup_app_l by (rewrite length_fmap, length_take; lia).
      now rewrite list_lookup_fmap, lookup_take_lt.
    + rewrite (lookup_ge_None_2 levels i) by lia.
      apply lookup_ge_None_2.
      rewrite length_app, length_fmap, length_take, length_drop. lia.
  - rewrite bool_decide_eq_false_2 by exact Hge.
    destruct (decide (k <= length levels)%nat) as [Hk|Hk].
    + rewrite lookup_app_r by (rewrite length_fmap, length_take; lia).
      rewrite length_fmap, length_take, lookup_drop.
      replace (k + (i - k `min` length levels))%nat with i by lia.
      now destruct (levels !! i).
    + rewrite (lookup_ge_None_2 levels i) by lia.
      apply lookup_ge_None_2.
      rewrite length_app, length_fmap, length_take, length_drop. lia.
Qed.

Lemma filledUpTo_length (levels : list TrackedLevel) (k : nat) :
  length (filledUpTo levels k) = length levels.
Proof.
  unfold filledUpTo. rewrite length_app, length_fmap, length_take, length_drop. lia.
Qed.

Lemma filledUpTo_step (levels : list TrackedLevel) (i : nat) (tp : TrackedLevel) :
  levels !! i = Some tp ->
  <[i := markFilled tp]> (filledUpTo levels i) = filledUpTo levels (S i).
Proof.
  intros Hi. apply list_eq. intros j.
  rewrite filledUpTo_lookup.
  destruct (decide (j = i)) as [->|Hne].
  - rewrite list_lookup_insert_eq
      by (rewrite filledUpTo_length; now apply lookup_lt_Some in Hi).
    rewrite Hi, bool_decide_eq_true_2 by lia. reflexivity.
  - rewrite list_lookup_insert_ne by congruence. rewrite filledUpTo_lookup.
    destruct (decide (j < i)%nat).
    + rewrite !bool_decide_eq_true_2 by lia. reflexivity.
    + rewrite !bool_decide_eq_false_2 by lia. reflexivity.
Qed.

Lemma filledUpTo_dense (levels : list TrackedLevel) (k : nat) :
  denseLadder levels -> denseLadder (filledUpTo levels k).
Proof.
  intros Hd i tp Hi. rewrite filledUpTo_lookup in Hi.
  destruct (levels !! i) as [tp0|] eqn:E; [|discriminate].
  cbn in Hi. injection Hi as <-.
  destruct (bool_decide _); exact (Hd i tp0 E).
Qed.

(** When the levels before [f] are filled, marking them changes
    nothing. *)
Lemma filledUpTo_filled (levels : list TrackedLevel) (f : nat) :
  (forall i tp, levels !! i = Some tp -> tp_filled tp = bool_decide (i < f)%nat) ->
  filledUpTo levels f = levels.
Proof.
  intros Hf. apply list_eq. intros i. rewrite filledUpTo_lookup.
  destruct (levels !! i) as [tp|] eqn:E; [|reflexivity]. cbn.
  destruct (bool_decide (i < f)%nat) eqn:Eb; [|reflexivity].
  cbn. f_equal. apply markFilled_filled. now rewrite (Hf i tp E).
Qed.

Section Runs.

Variable ex : Exchange.

Lemma checkLevels_app (indices1 indices2 : list nat) (position : Position)
    (oldPrice newPrice : number) (h : History) :
  checkLevels ex (indices1 ++ indices2) position oldPrice newPrice h
  = checkLevels ex indices2
      (snd (checkLevels ex indices1 position oldPrice newPrice h)) oldPrice newPrice
      (fst (checkLevels ex indices1 position oldPrice newPrice h)).
Proof.
  revert position h.
  induction indices1 as [|i rest IH]; intros position h; [reflexivity|].
  cbn [app checkLevels].
  destruct (pos_takeProfits position !! i) as [tp|]; [|apply IH].
  destruct (tp_filled tp); [apply IH|].
  destruct (checkPriceHitLevel _ _ _ _); [|apply IH].
  destruct (adjustStopLoss ex _ (tp_level tp) h) as [h1 adjusted]. apply IH.
Qed.

(** Levels that are filled or not hit leave the position as it is. *)
Lemma checkLevels_skip (indices : list nat) (position : Position)
    (oldPrice newPrice : number) (h : History) :
  (forall i tp,
     i ∈ indices -> pos_takeProfits position !! i = Some tp ->
     tp_filled tp = true \/
     checkPriceHitLevel (pos_side position) oldPrice newPrice (tp_price tp) = false) ->
  checkLevels ex indices position oldPrice newPrice h = (h, position).
Proof.
  induction indices as [|i rest IH]; intros Hskip; [reflexivity|].
  cbn [checkLevels].
  assert (Hrest : checkLevels ex rest position oldPrice newPrice h = (h, position)).
  { apply IH. intros j tp Hj. apply Hskip. now right. }
  destruct (pos_takeProfits position !! i) as [tp|] eqn:Ei; [|exact Hrest].
  destruct (Hskip i tp ltac:(now left) Ei) as [Hf|Hn].
  - now rewrite Hf.
  - destruct (tp_filled tp); [exact Hrest|]. now rewrite Hn.
Qed.

Lemma newStopLoss_dense (position : Position) (i : nat) (tp : TrackedLevel) :
  denseLadder (pos_takeProfits position) ->
  pos_takeProfits position !! i = Some tp ->
  newStopLoss position (tp_level tp)
  = match i with
    | O => pos_entryPrice position
    | S j => default (pos_stopLoss position) (tp_price <$> pos_takeProfits position !! j)
    end.
Proof.
  intros Hd Hi. rewrite (Hd i tp Hi). unfold newStopLoss.
  destruct i as [|[|i]].
  - reflexivity.
  - change (Z.of_nat 1 + 1 =? 1)%Z with false. change (Z.of_nat 1 + 1 =? 2)%Z with true.
    cbv iota.
    destruct (pos_takeProfits position !! 0%nat) as [tp1|] eqn:E1.
    + change 1%Z with (Z.of_nat 0 + 1)%Z. now rewrite (findLevel_dense _ 0 tp1 Hd E1).
    + apply lookup_ge_None in E1. apply lookup_lt_Some in Hi. lia.
  - destruct (Z.eqb_spec (Z.of_nat (S (S i)) + 1) 1) as [?|_]; [lia|].
    destruct (Z.eqb_spec (Z.of_nat (S (S i)) + 1) 2) as [?|_]; [lia|].
    replace (Z.of_nat (S (S i)) + 1 - 1)%Z with (Z.of_nat (S i) + 1)%Z by lia.
    destruct (pos_takeProfits position !! S i) as [prev|] eqn:Ep.
    + now rewrite (findLevel_dense _ (S i) prev Hd Ep).
    + apply lookup_ge_None in Ep. apply lookup_lt_Some in Hi. lia.
Qed.

(** The levels from [i] on, [c] of them, are hit one after the other: each
    moves the stop-loss to its target. *)
Lemma checkLevels_hits (origin priced : Position) (oldPrice newPrice : number)
    (c i : nat) (stopLoss : number) (h : History) :
  acceptsStops ex ->
  pos_side priced = pos_side origin ->
  pos_symbol priced = pos_symbol origin ->
  pos_entryPrice priced = pos_entryPrice origin ->
  pos_takeProfits priced = pos_takeProfits origin ->
  denseLadder (pos_takeProfits origin) ->
  (i + c <= length (pos_takeProfits origin))%nat ->
  (forall j tp, pos_takeProfits origin !! j = Some tp -> (i <= j < i + c)%nat ->
                tp_filled tp = false /\
                checkPriceHitLevel (pos_side origin) oldPrice newPrice (tp_price tp) = true) ->
  (0 < c)%nat ->
  improves (pos_side origin) stopLoss (trailTarget origin i) ->
  (forall j, (i <= j)%nat -> (S j < i + c)%nat ->
             improves (pos_side origin) (trailTarget origin j) (trailTarget origin (S j))) ->
  checkLevels ex (seq i c)
    (withStopLoss (withTakeProfits priced (filledUpTo (pos_takeProfits origin) i)) stopLoss)
    oldPrice newPrice h
  = (h ++ ((fun j => Sent (PostTradingStop (convertSymbolToBybit (pos_symbol origin))
                             (trailTarget origin j))) <$> seq i c),
     withStopLoss (withTakeProfits priced (filledUpTo (pos_takeProfits origin) (i + c)))
                  (trailTarget origin (i + c - 1))).
Proof.
  intros Hacc Hside Hsym Hentry Hladder Hdense.
  revert i stopLoss h.
  induction c as [|c IH]; intros i stopLoss h Hlen Hhit Hpos Himp Hchain; [lia|].
  cbn [seq checkLevels].
  set (levels := pos_takeProfits origin) in *.
  destruct (levels !! i) as [tp|] eqn:Ei;
    [|apply lookup_ge_None in Ei; lia].
  destruct (Hhit i tp Ei ltac:(lia)) as [Hf Hh].
  cbn [pos_takeProfits withStopLoss withTakeProfits].
  rewrite filledUpTo_lookup, Ei, bool_decide_eq_false_2 by lia.
  cbn [fmap option_fmap option_map id]. rewrite Hf.
  cbn [pos_side withStopLoss withTakeProfits]. rewrite Hside, Hh.
  rewrite (filledUpTo_step levels i tp Ei).
  set (hit := withTakeProfits _ (filledUpTo levels (S i))).
  assert (Hcand : newStopLoss hit (tp_level tp) = trailTarget origin i).
  { assert (Hi' : pos_takeProfits hit !! i = Some (markFilled tp)).
    { unfold hit. cbn [pos_takeProfits withTakeProfits].
      rewrite filledUpTo_lookup, Ei, bool_decide_eq_true_2 by lia. reflexivity. }
    change (tp_level tp) with (tp_level (markFilled tp)).
    rewrite (newStopLoss_dense hit i (markFilled tp)
               (filledUpTo_dense levels (S i) Hdense) Hi').
    unfold trailTarget. destruct i as [|j]; [exact Hentry|].
    unfold hit. cbn [pos_takeProfits withTakeProfits pos_stopLoss withStopLoss].
    rewrite filledUpTo_lookup. fold levels.
    destruct (levels !! j) as [prev|] eqn:Ej.
    - cbn. now destruct (bool_decide _).
    - apply lookup_ge_None in Ej. apply lookup_lt_Some in Ei. lia. }
  unfold adjustStopLoss. rewrite Hcand.
  assert (Hshould : shouldUpdate hit (trailTarget origin i) = true).
  { apply shouldUpdate_improves. unfold hit.
    cbn [pos_side pos_stopLoss withStopLoss withTakeProfits]. now rewrite Hside. }
  rewrite Hshould.
  assert (Hstop : setStopLoss ex (pos_symbol hit) (pos_side hit) (trailTarget origin i) h
                  = (h ++ [Sent (PostTradingStop (convertSymbolToBybit (pos_symbol origin))
                                   (trailTarget origin i))], Returned tt)).
  { unfold setStopLoss, bind. unfold hit.
    cbn [pos_symbol withStopLoss withTakeProfits]. rewrite Hsym.
    destruct (Hacc h (convertSymbolToBybit (pos_symbol origin)) (trailTarget origin i))
      as [payload ->].
    reflexivity. }
  rewrite Hstop.
  destruct c as [|c].
  - cbn [seq checkLevels fmap list_fmap].
    replace (i + 1)%nat with (S i) by lia.
    replace (S i - 1)%nat with i by lia. reflexivity.
  - change (withStopLoss hit (trailTarget origin i))
      with (withStopLoss (withTakeProfits priced (filledUpTo levels (S i)))
              (trailTarget origin i)).
    rewrite (IH (S i) (trailTarget origin i)); try lia.
    + rewrite <- (assoc_L (++)). cbn [app fmap list_fmap].
      replace (S i + S c)%nat with (i + S (S c))%nat by lia. reflexivity.
    + intros j tpj Hj Hr. apply (Hhit j tpj Hj). lia.
    + apply Hchain; lia.
    + intros j Hj1 Hj2. apply Hchain; lia.
Qed.

End Runs.
End JumpFacts.

Section JumpExtras.
Import Client ClientFacts Manager ManagerFacts Trace Lifecycle JumpFacts Scenarios MoreScenarios.

Local Open Scope list_scope.
Local Open Scope stdpp_scope.

(** X18: a price that crosses several levels between two polls is
    trailed level by level in the one update.  For a position with a
    dense ladder whose levels before index [f] are filled, when the
    check finds the levels [f] to [k - 1] hit and no level after them,
    the exchange accepts the stop-loss requests, and each target (the
    entry price for the first level, the price of the level before for
    the others) improves on the one before it, [updatePosition] marks
    the levels up to [k - 1] filled, sends one stop-loss request for
    each of the levels hit, in their order, and stores the last target:
    the price of level [k - 1]. *)
Theorem take_profit_jump_trails
    (ex : Exchange) (positionId : string) (positions : gmap string Position)
    (h h1 : History) (position : Position) (live : PositionInfo) (f k : nat) :
  positions !! positionId = Some position ->
  getPosition ex (pos_symbol position) h = (h1, Returned (Some live)) ->
  acceptsStops ex ->
  denseLadder (pos_takeProfits position) ->
  (f < k <= length (pos_takeProfits position))%nat ->
  (forall i tp, pos_takeProfits position !! i = Some tp ->
     tp_filled tp = bool_decide (i < f)%nat) ->
  (forall i tp, pos_takeProfits position !! i = Some tp -> (f <= i)%nat ->
     checkPriceHitLevel (pos_side position) (pos_currentPrice position)
       (info_markPrice live) (tp_price tp) = bool_decide (i < k)%nat) ->
  improves (pos_side position) (pos_stopLoss position) (trailTarget position f) ->
  (forall i, (f <= i)%nat -> (S i < k)%nat ->
     improves (pos_side position) (trailTarget position i) (trailTarget position (S i))) ->
  let after :=
    withStopLoss
      (withTakeProfits
         (withMarket position (info_markPrice live) (info_unrealisedPnl live))
         (filledUpTo (pos_takeProfits position) k))
      (trailTarget position (k - 1)) in
  updatePosition ex positionId positions h
  = (<[positionId := after]> positions,
     h1 ++ ((fun i => Sent (PostTradingStop (convertSymbolToBybit (pos_symbol position))
                              (trailTarget position i))) <$> seq f (k - f)),
     Some after).
Proof.
  intros Hp Hq Hacc Hdense Hfk Hfilled Hhit Himp Hchain after.
  unfold updatePosition. rewrite Hp, Hq. cbv zeta.
  set (priced := withMarket position (info_markPrice live) (info_unrealisedPnl live)).
  set (n := length (pos_takeProfits position)) in *.
  unfold checkTakeProfitHits.
  change (pos_takeProfits priced) with (pos_takeProfits position).
  change (pos_currentPrice priced) with (info_markPrice live). fold n.
  assert (Hseq : seq 0 n = seq 0 f ++ seq f (k - f) ++ seq k (n - k)).
  { replace n with (f + ((k - f) + (n - k)))%nat at 1 by lia.
    rewrite !seq_app. cbn [Nat.add].
    now replace (f + (k - f))%nat with k by lia. }
  assert (H1 : checkLevels ex (seq 0 f) priced (pos_currentPrice position)
                 (info_markPrice live) h1 = (h1, priced)).
  { apply checkLevels_skip. intros i tp Hi Htp. left.
    apply elem_of_seq in Hi. rewrite (Hfilled i tp Htp).
    apply bool_decide_eq_true_2. lia. }
  assert (Hstart : withStopLoss
                     (withTakeProfits priced (filledUpTo (pos_takeProfits position) f))
                     (pos_stopLoss position) = priced).
  { rewrite (filledUpTo_filled _ f Hfilled). reflexivity. }
  pose proof (checkLevels_hits ex position priced (pos_currentPrice position)
                (info_markPrice live) (k - f) f (pos_stopLoss position) h1
                Hacc eq_refl eq_refl eq_refl eq_refl Hdense) as H2.
  rewrite Hstart in H2. replace (f + (k - f))%nat with k in H2 by lia.
  fold after in H2.
  assert (H3 : checkLevels ex (seq k (n - k)) after (pos_currentPrice position)
                 (info_markPrice live)
                 (h1 ++ ((fun i => Sent (PostTradingStop
                                           (convertSymbolToBybit (pos_symbol position))
                                           (trailTarget position i))) <$> seq f (k - f)))
               = (h1 ++ ((fun i => Sent (PostTradingStop
                                           (convertSymbolToBybit (pos_symbol position))
                                           (trailTarget position i))) <$> seq f (k - f)),
                  after)).
  { apply checkLevels_skip.
    intros i tp Hi Htp. apply elem_of_seq in Hi.
    unfold after in Htp. cbn [pos_takeProfits withStopLoss withTakeProfits] in Htp.
    rewrite filledUpTo_lookup, bool_decide_eq_false_2 in Htp by lia.
    destruct (pos_takeProfits position !! i) as [tp0|] eqn:Ei; [|discriminate].
    cbn in Htp. injection Htp as <-. right.
    change (pos_side after) with (pos_side position).
    rewrite (Hhit i tp0 Ei) by lia. apply bool_decide_eq_false_2. lia. }
  rewrite Hseq, !checkLevels_app, H1. cbn [fst snd].
  rewrite H2.
  - cbn [fst snd].
    change (withStopLoss
              (withTakeProfits priced (filledUpTo (pos_takeProfits position) k))
              (trailTarget position (k - 1))) with after.
    rewrite H3. reflexivity.
  - fold n. lia.
  - intros j tp Hj Hr. split.
    + rewrite (Hfilled j tp Hj). apply bool_decide_eq_false_2. lia.
    + rewrite (Hhit j tp Hj) by lia. apply bool_decide_eq_true_2. lia.
  - lia.
  - exact Himp.
  - intros j Hj1 Hj2. apply Hchain; lia.
Qed.

Lemma markFeed_acceptsStops (marks : list number) : acceptsStops (markFeed marks).
Proof. intros h symbol stopLoss. eexists. reflexivity. Defined.

(** The worked position, entry 100 and levels at 102, 104 and 106, when
    the mark goes from 100 to 105 between two polls: the two levels
    crossed are marked, the stop-loss is asked at 100 and then at 102,
    and 102 is stored. *)
Lemma take_profit_jump_trails_witness :
  exists after,
    updatePosition (markFeed [JsNumber.ofZ 105]) trailingId trailingRegistry []
    = (<[trailingId := after]> trailingRegistry,
       [Sent (GetPositionList "SOLUSDT");
        Sent (PostTradingStop "SOLUSDT" (JsNumber.ofZ 100));
        Sent (PostTradingStop "SOLUSDT" (JsNumber.ofZ 102))],
       Some after) /\
    pos_stopLoss after = JsNumber.ofZ 102 /\
    tp_filled <$> pos_takeProfits after = [true; true; false].
Proof.
  eexists. split; [|split].
  - apply (take_profit_jump_trails (markFeed [JsNumber.ofZ 105]) trailingId
             trailingRegistry [] [Sent (GetPositionList "SOLUSDT")]
             (snd (createPosition trailingSignal (Some "order-1"%string) (JsNumber.ofZ 20)
                     (JsNumber.ofZ 10) (JsNumber.ofZ 100) 1700000000000 ∅))
             (liveRow "SOLUSDT" (JsNumber.ofZ 10) (JsNumber.ofZ 105)) 0 2).
    + reflexivity.
    + reflexivity.
    + apply markFeed_acceptsStops.
    + intros [|[|[|i]]] tp Hi; cbn in Hi; try discriminate;
        injection Hi as <-; reflexivity.
    + cbn. lia.
    + intros [|[|[|i]]] tp Hi; cbn in Hi; try discriminate;
        injection Hi as <-; reflexivity.
    + intros [|[|[|i]]] tp Hi Hle; cbn in Hi; try discriminate;
        injection Hi as <-; reflexivity.
    + reflexivity.
    + intros [|[|i]] Hle Hlt; try lia. reflexivity.
  - reflexivity.
  - reflexivity.
Defined.

End JumpExtras.

Section RegistryExtras.
Import Client ClientFacts Manager ManagerFacts Trace Lifecycle LifecycleFacts Scenarios.

Local Open Scope string_scope.
Local Open Scope list_scope.
Local Open Scope stdpp_scope.

(** X19: in every registry the manager can come to hold, by creating,
    updating, closing and deleting positions against any exchange, a
    position is stored under its own id, its id is its symbol, an
    underscore and a reading of the clock, and its status is ACTIVE or
    COMPLETED: the statuses PENDING, CANCELLED and ERROR are never
    given. *)
Theorem managed_registry_invariant (positions : gmap string Position) :
  managed positions ->
  forall (positionId : string) (position : Position),
    positions !! positionId = Some position ->
    pos_id position = positionId /\
    (exists now : Z, pos_id position = pos_symbol position +:+ "_" +:+ decimal now) /\
    (pos_status position = ACTIVE \/ pos_status position = COMPLETED).
Proof.
  induction 1 as [|signal orderId leverage positionSize actualEntryPrice now positions _ IH
                  |ex first positions h _ IH
                  |ex first reason positions h _ IH
                  |first positions _ IH];
    intros positionId position Hp.
  - now rewrite lookup_empty in Hp.
  - cbn [createPosition fst] in Hp.
    destruct (decide (positionId = pair signal +:+ "_" +:+ decimal now)) as [->|Hne].
    + cbn [pos_id] in Hp. rewrite lookup_insert_eq in Hp. injection Hp as <-. cbn.
      split; [reflexivity|]. split; [now exists now|now left].
    + cbn [pos_id] in Hp. rewrite lookup_insert_ne in Hp by congruence.
      exact (IH positionId position Hp).
  - destruct (decide (first = positionId)) as [->|Hne].
    + destruct (positions !! positionId) as [before|] eqn:Eb.
      * destruct (updatePosition_traced ex positionId positions h before Eb)
          as (after & stops & Hrun & Hs & _ & _ & _ & Hst).
        rewrite Hrun in Hp. cbn [fst] in Hp. rewrite lookup_insert_eq in Hp.
        injection Hp as <-.
        destruct (IH positionId before Eb) as (Hid & (now & Hnow) & Hstatus).
        rewrite (same_id _ _ Hs), (same_symbol _ _ Hs).
        split; [exact Hid|]. split; [now exists now|].
        destruct Hst as [->| ->]; [exact Hstatus|now right].
      * unfold updatePosition in Hp. rewrite Eb in Hp. cbn [fst] in Hp. congruence.
    + rewrite (updatePosition_other ex first positionId positions h) in Hp by congruence.
      exact (IH positionId position Hp).
  - unfold closePosition in Hp.
    destruct (positions !! first) as [before|] eqn:Eb; [|exact (IH _ _ Hp)].
    destruct (bool_decide (pos_status before = ACTIVE)); [|exact (IH _ _ Hp)].
    destruct (cancelStopLoss ex (pos_symbol before) h) as [h1 [[]|e]]; [|exact (IH _ _ Hp)].
    destruct (placeMarketOrder ex (closingOrder before) h1) as [h2 [r|e]];
      [|exact (IH _ _ Hp)].
    cbn [fst] in Hp.
    destruct (decide (first = positionId)) as [->|Hne].
    + rewrite lookup_insert_eq in Hp. injection Hp as <-.
      destruct (IH positionId before Eb) as (Hid & Hnow & _).
      split; [exact Hid|]. split; [exact Hnow|now right].
    + rewrite lookup_insert_ne in Hp by congruence. exact (IH _ _ Hp).
  - destruct (decide (first = positionId)) as [->|Hne].
    + now rewrite lookup_delete_eq in Hp.
    + rewrite lookup_delete_ne in Hp by congruence. exact (IH _ _ Hp).
Qed.

(** The position of the worked example after a poll and a close. *)
Lemma managed_registry_invariant_witness :
  let polled :=
    fst (fst (updatePosition (markFeed exampleMarks) trailingId trailingRegistry [])) in
  let closed := fst (fst (closePosition acceptsAll trailingId "manual" polled [])) in
  exists position,
    closed !! trailingId = Some position /\
    pos_id position = trailingId /\
    (exists now : Z, pos_id position = pos_symbol position +:+ "_" +:+ decimal now) /\
    pos_status position = COMPLETED.
Proof.
  cbv zeta. eexists. split; [reflexivity|].
  destruct (managed_registry_invariant _
              (managed_close acceptsAll trailingId "manual" _ []
                 (managed_update (markFeed exampleMarks) trailingId _ []
                    (managed_create trailingSignal (Some "order-1") (JsNumber.ofZ 20)
                       (JsNumber.ofZ 10) (JsNumber.ofZ 100) 1700000000000 ∅
                       managed_empty)))
              trailingId _ eq_refl) as (Hid & Hnow & _).
  split; [exact Hid|]. split; [exact Hnow|reflexivity].
Defined.

End RegistryExtras.

(** * The signal parser *)

Module ParserFacts.
Import Client Manager SignalParser JsNumberFacts.

Local Open Scope list_scope.
Local Open Scope stdpp_scope.

(** *** The loop over the matches *)

Lemma acceptable_iff (m : Z * number) :
  acceptable m <->
  (fst m <=? 0)%Z = false /\ JsNumber.isNaN (snd m) || JsNumber.leb (snd m) (Fin 0) = false.
Proof.
  unfold acceptable, JsNumber.lt. destruct m as [l p]. cbn [fst snd].
  rewrite Z.leb_gt.
  assert (Hp : JsNumber.ltb (Fin 0) p = true
               <-> JsNumber.isNaN p || JsNumber.leb p (Fin 0) = false).
  { destruct p as [q| | |]; cbn; try (split; congruence).
    rewrite negb_true_iff. reflexivity. }
  rewrite Hp. reflexivity.
Qed.

Lemma readMatches_inr (matches : list (Z * number)) (acc tps : list TakeProfitLevel) :
  readMatches matches acc = inr tps ->
  tps = acc ++ (ofMatch <$> matches) /\ Forall acceptable matches.
Proof.
  revert acc. induction matches as [|[l p] rest IH]; intros acc; cbn [readMatches].
  - intros [= <-]. rewrite app_nil_r. split; [reflexivity|constructor].
  - destruct (l <=? 0)%Z eqn:El; [discriminate|].
    destruct (JsNumber.isNaN p || JsNumber.leb p (Fin 0)) eqn:Ep; [discriminate|].
    intros H. apply IH in H as [-> Hf]. split.
    + now rewrite <- (assoc_L (++)).
    + constructor; [|exact Hf]. apply acceptable_iff. now split.
Qed.

Lemma readMatches_acceptable (matches : list (Z * number)) (acc : list TakeProfitLevel) :
  Forall acceptable matches ->
  readMatches matches acc = inr (acc ++ (ofMatch <$> matches)).
Proof.
  revert acc. induction matches as [|[l p] rest IH]; intros acc Hf; cbn [readMatches].
  - now rewrite app_nil_r.
  - apply Forall_cons in Hf as [Ha Hf]. apply acceptable_iff in Ha as [El Ep].
    cbn [fst snd] in El, Ep. rewrite El, Ep, (IH _ Hf).
    now rewrite <- (assoc_L (++)).
Qed.

(** *** The sort *)

Lemma insertByLevel_perm (tp : TakeProfitLevel) (sorted : list TakeProfitLevel) :
  insertByLevel tp sorted ≡ₚ tp :: sorted.
Proof.
  induction sorted as [|next rest IH]; cbn [insertByLevel]; [reflexivity|].
  destruct (level tp <=? level next)%Z; [reflexivity|].
  rewrite IH. apply Permutation_swap.
Qed.

Lemma sortByLevel_perm (tps : list TakeProfitLevel) : sortByLevel tps ≡ₚ tps.
Proof.
  induction tps as [|tp rest IH]; [reflexivity|].
  unfold sortByLevel in *. cbn [foldr]. rewrite insertByLevel_perm. now rewrite IH.
Qed.

Lemma insertByLevel_ascending (tp : TakeProfitLevel) (sorted : list TakeProfitLevel) :
  ascending (level <$> sorted) -> ascending (level <$> insertByLevel tp sorted).
Proof.
  induction sorted as [|next rest IH]; intros Hs; cbn [insertByLevel].
  - cbn. split; [constructor|exact I].
  - destruct (level tp <=? level next)%Z eqn:E.
    + apply Z.leb_le in E. cbn [fmap list_fmap ascending] in *.
      destruct Hs as [Hle Hs]. split; [|split; assumption].
      constructor; [exact E|].
      eapply Forall_impl; [exact Hle|]. intros x Hx. cbn in Hx. lia.
    + apply Z.leb_gt in E. cbn [fmap list_fmap ascending] in *.
      destruct Hs as [Hle Hs]. split; [|now apply IH].
      change (Forall (Z.le (level next)) (level <$> insertByLevel tp rest)).
      rewrite (insertByLevel_perm tp rest). cbn [fmap list_fmap].
      constructor; [lia|exact Hle].
Qed.

Lemma sortByLevel_ascending (tps : list TakeProfitLevel) :
  ascending (level <$> sortByLevel tps).
Proof.
  induction tps as [|tp rest IH]; [exact I|].
  unfold sortByLevel in *. cbn [foldr]. now apply insertByLevel_ascending.
Qed.

Lemma ascending_unique (l1 l2 : list Z) :
  ascending l1 -> ascending l2 -> l1 ≡ₚ l2 -> l1 = l2.
Proof.
  revert l2. induction l1 as [|a r1 IH]; intros l2 H1 H2 Hp.
  - now apply Permutation_nil_l in Hp.
  - destruct l2 as [|b r2]; [now apply Permutation_nil_r in Hp|].
    destruct H1 as [Ha H1], H2 as [Hb H2].
    assert (a = b).
    { assert (Hba : b ∈ a :: r1) by (rewrite Hp; now left).
      assert (Hab : a ∈ b :: r2) by (rewrite <- Hp; now left).
      apply elem_of_cons in Hba as [?|Hba]; [congruence|].
      apply elem_of_cons in Hab as [?|Hab]; [congruence|].
      rewrite Forall_forall in Ha, Hb.
      pose proof (Ha b Hba). pose proof (Hb a Hab). lia. }
    subst b. f_equal. apply IH; [assumption..|].
    now apply Permutation_cons_inv in Hp.
Qed.

Lemma countingFrom_ascending (i n : nat) : ascending (countingFrom i n).
Proof.
  revert i. induction n as [|n IH]; intros i; [exact I|].
  unfold countingFrom in *. cbn [seq fmap list_fmap ascending]. split; [|apply IH].
  apply Forall_forall. intros x Hx.
  apply list_elem_of_fmap in Hx as (j & -> & Hj). apply elem_of_seq in Hj. lia.
Qed.

Lemma firstGap_None (i : nat) (tps : list TakeProfitLevel) :
  firstGap i tps = None <-> level <$> tps = countingFrom i (length tps).
Proof.
  revert i. induction tps as [|tp rest IH]; intros i; [easy|].
  cbn [firstGap length]. unfold countingFrom in *. cbn [seq fmap list_fmap].
  destruct (Z.eqb_spec (level tp) (Z.of_nat i + 1)) as [E|E].
  - rewrite IH. split; [intros ->; now rewrite E|intros [= _ H]; exact H].
  - split; [discriminate|intros [= H _]; contradiction].
Qed.

Lemma countingFrom_lookup (tps : list TakeProfitLevel) :
  level <$> tps = countingFrom 0 (length tps) <->
  forall (i : nat) (tp : TakeProfitLevel), tps !! i = Some tp -> level tp = (Z.of_nat i + 1)%Z.
Proof.
  unfold countingFrom. split.
  - intros H i tp Hi.
    assert (Hl : (level <$> tps) !! i = Some (level tp)) by now rewrite list_lookup_fmap, Hi.
    rewrite H, list_lookup_fmap in Hl.
    destruct (seq 0 (length tps) !! i) as [j|] eqn:Ej; [|discriminate].
    apply lookup_seq in Ej as [-> _]. cbn in Hl. now injection Hl as <-.
  - intros H. apply list_eq. intros i. rewrite !list_lookup_fmap.
    destruct (tps !! i) as [tp|] eqn:Ei.
    + rewrite (lookup_seq_lt 0 (length tps) i) by now apply lookup_lt_Some in Ei.
      cbn. now rewrite (H i tp Ei).
    + rewrite (lookup_seq_ge 0 (length tps) i) by now apply lookup_ge_None in Ei.
      reflexivity.
Qed.

(** *** The format of the pair *)

Lemma afterUpper_split (s : string) :
  exists base, s = (base +:+ afterUpper s)%string /\ allUpper base = true /\
               match afterUpper s with
               | String c _ => isUpper c = false
               | EmptyString => True
               end.
Proof.
  induction s as [|c rest IH]; [exists EmptyString; now split|].
  cbn [afterUpper]. destruct (isUpper c) eqn:Ec.
  - destruct IH as (base & Hs & Hb & Hn).
    exists (String c base). split; [|split].
    + change (String c rest = String c (base +:+ afterUpper rest)). now f_equal.
    + cbn. now rewrite Ec, Hb.
    + exact Hn.
  - exists EmptyString. split; [reflexivity|]. split; [reflexivity|exact Ec].
Qed.

Lemma append_nil (s : string) : (EmptyString +:+ s)%string = s.
Proof. reflexivity. Qed.

Lemma append_cons (c : Ascii.ascii) (a s : string) :
  (String c a +:+ s)%string = String c (a +:+ s).
Proof. reflexivity. Qed.

Lemma isUpper_slash : isUpper (Ascii.ascii_of_nat 47) = false.
Proof. reflexivity. Qed.

Lemma afterUpper_app (base rest : string) (c : Ascii.ascii) :
  allUpper base = true -> isUpper c = false ->
  afterUpper (base +:+ String c rest) = String c rest.
Proof.
  intros Hb Hc. induction base as [|b base IH].
  - rewrite append_nil. cbn. now rewrite Hc.
  - rewrite append_cons. cbn in Hb |- *.
    apply andb_true_iff in Hb as [Hb1 Hb2]. rewrite Hb1. now apply IH.
Qed.

Lemma convertSymbolToBybit_app (base rest : string) :
  allUpper base = true ->
  convertSymbolToBybit (base +:+ String (Ascii.ascii_of_nat 47) rest) = (base +:+ rest)%string.
Proof.
  intros Hb. induction base as [|b base IH].
  - rewrite !append_nil. cbn [convertSymbolToBybit]. now rewrite Ascii.eqb_refl.
  - rewrite !append_cons. cbn [convertSymbolToBybit].
    cbn in Hb. apply andb_true_iff in Hb as [Hb1 Hb2].
    destruct (Ascii.eqb_spec b (Ascii.ascii_of_nat 47)) as [->|_]; [discriminate|].
    now rewrite (IH Hb2).
Qed.

Lemma convertSymbolToBybit_upper (s : string) :
  allUpper s = true -> convertSymbolToBybit s = s.
Proof.
  induction s as [|c s IH]; [reflexivity|]. cbn. intros H.
  apply andb_true_iff in H as [Hc Hs].
  destruct (Ascii.eqb_spec c (Ascii.ascii_of_nat 47)) as [->|_]; [discriminate|].
  now rewrite (IH Hs).
Qed.

Lemma allUpper_app (a b : string) :
  allUpper (a +:+ b) = allUpper a && allUpper b.
Proof.
  induction a as [|c a IH]; [reflexivity|].
  rewrite append_cons. cbn. rewrite IH. now rewrite andb_assoc.
Qed.

Lemma pairFormat_iff (pair : string) :
  pairFormat pair = true <->
  exists base quote,
    pair = (base +:+ String (Ascii.ascii_of_nat 47) quote)%string /\
    base <> EmptyString /\ quote <> EmptyString /\
    allUpper base = true /\ allUpper quote = true.
Proof.
  split.
  - destruct pair as [|c rest]; [discriminate|]. cbn [pairFormat].
    intros H. apply andb_true_iff in H as [Hc H].
    destruct (afterUpper_split rest) as (base & Hs & Hb & _).
    destruct (afterUpper rest) as [|slash quote]; [discriminate|].
    apply andb_true_iff in H as [H Hq]. apply andb_true_iff in H as [Hslash Hne].
    apply Ascii.eqb_eq in Hslash. subst slash.
    exists (String c base), quote.
    split.
    { change (String c rest
              = String c (base +:+ String (Ascii.ascii_of_nat 47) quote)).
      now f_equal. }
    split; [discriminate|].
    split; [intros ->; discriminate|].
    split; [cbn; now rewrite Hc, Hb|exact Hq].
  - intros (base & quote & -> & Hbase & Hquote & Hb & Hq).
    destruct base as [|c base]; [contradiction|]. rewrite append_cons.
    cbn in Hb |- *.
    apply andb_true_iff in Hb as [Hc Hb]. rewrite Hc.
    rewrite (afterUpper_app base quote _ Hb isUpper_slash).
    rewrite Ascii.eqb_refl, Hq. destruct quote; [contradiction|reflexivity].
Qed.

(** *** The order of the prices *)

Lemma orderErrors_nil (direction : Direction) (tps : list TakeProfitLevel) :
  orderErrors direction tps = [] <-> ordered direction tps.
Proof.
  induction tps as [|tp rest IH]; [easy|].
  cbn [orderErrors ordered]. destruct rest as [|next rest]; [easy|].
  destruct direction.
  - destruct (JsNumber.geb (price tp) (price next)).
    + split; [discriminate|intros [? _]; discriminate].
    + cbn [app]. rewrite IH. tauto.
  - destruct (JsNumber.leb (price tp) (price next)).
    + split; [discriminate|intros [? _]; discriminate].
    + cbn [app]. rewrite IH. tauto.
Qed.

Lemma app_nil_iff {A : Type} (l1 l2 : list A) : l1 ++ l2 = [] <-> l1 = [] /\ l2 = [].
Proof.
  split; [intros H; now apply app_eq_nil in H|intros [-> ->]; reflexivity].
Qed.

End ParserFacts.

Module OrderFacts.
Import Client Manager SignalParser JsNumberFacts.

Local Open Scope list_scope.
Local Open Scope stdpp_scope.

Lemma not_geb_lt (a b : number) :
  JsNumber.isNaN a = false -> JsNumber.isNaN b = false ->
  JsNumber.geb a b = false -> JsNumber.lt a b.
Proof.
  unfold JsNumber.lt, JsNumber.geb.
  destruct a as [x| | |], b as [y| | |]; cbn; try discriminate; try reflexivity.
  intros _ _ ->. reflexivity.
Qed.

Lemma not_leb_lt (a b : number) :
  JsNumber.isNaN a = false -> JsNumber.isNaN b = false ->
  JsNumber.leb a b = false -> JsNumber.lt b a.
Proof.
  unfold JsNumber.lt.
  destruct a as [x| | |], b as [y| | |]; cbn; try discriminate; try reflexivity.
  intros _ _ ->. reflexivity.
Qed.

Lemma further_trans (direction : Direction) (a b c : number) :
  further direction a b -> further direction b c -> further direction a c.
Proof.
  destruct direction; unfold further, JsNumber.lt; intros Hab Hbc.
  - exact (ltb_trans _ _ _ Hab Hbc).
  - exact (ltb_trans _ _ _ Hbc Hab).
Qed.

(** In a ladder without NaN whose neighbours pass the check of
    [validateSignal], every level is further than the levels before
    it. *)
Lemma ordered_pairwise (direction : Direction) (tps : list TakeProfitLevel) :
  ordered direction tps ->
  Forall (fun tp => JsNumber.isNaN (price tp) = false) tps ->
  forall (i j : nat) (tp next : TakeProfitLevel),
    tps !! i = Some tp -> tps !! j = Some next -> (i < j)%nat ->
    further direction (price tp) (price next).
Proof.
  induction tps as [|first rest IH]; intros Ho Hn i j tp next Hi Hj Hlt; [discriminate|].
  apply Forall_cons in Hn as [Hfirst Hn].
  assert (Hrest : ordered direction rest).
  { cbn [ordered] in Ho. destruct rest; [exact I|]. now destruct Ho. }
  destruct j as [|j]; [lia|]. cbn in Hj.
  destruct i as [|i].
  - cbn in Hi. injection Hi as <-.
    destruct rest as [|second rest]; [discriminate|].
    assert (Hstep : further direction (price first) (price second)).
    { cbn [ordered] in Ho. destruct Ho as [Ho _].
      apply Forall_cons in Hn as [Hsecond _].
      destruct direction; [now apply not_geb_lt|now apply not_leb_lt]. }
    destruct j as [|j].
    + cbn in Hj. now injection Hj as <-.
    + apply (further_trans _ _ (price second)); [exact Hstep|].
      apply (IH Hrest Hn 0%nat (S j) second next); [reflexivity|exact Hj|lia].
  - cbn in Hi. apply (IH Hrest Hn i j tp next Hi Hj). lia.
Qed.

End OrderFacts.

Section ParserExtras.
Import Client Manager SignalParser ParserFacts OrderFacts SizingExamples Scenarios MoreScenarios.

Local Open Scope list_scope.
Local Open Scope stdpp_scope.

(** X13: [parseTakeProfits], from the matches of its regular expression
    on, succeeds exactly when there is a match, every match has a level
    above zero and a price above zero that is not NaN, and the levels are
    1 to n in some order.  The ladder it returns is the matches sorted by
    level: the level at index [i] is [i + 1], so the position created
    from a signal that carries it has the dense ladder the trailing of
    the stop-loss looks the previous level up in. *)
Theorem parseTakeProfits_accepts (matches : list (Z * number)) :
  ((exists tps, parseTakeProfits matches = inr tps) <->
   matches <> [] /\ Forall acceptable matches /\
   fst <$> matches ≡ₚ countingFrom 0 (length matches)) /\
  (forall tps,
     parseTakeProfits matches = inr tps ->
     tps = sortByLevel (ofMatch <$> matches) /\
     tps ≡ₚ ofMatch <$> matches /\
     (forall (i : nat) (tp : TakeProfitLevel),
        tps !! i = Some tp -> level tp = (Z.of_nat i + 1)%Z) /\
     forall (signal : ParsedSignal) (orderId : option string)
            (leverage positionSize actualEntryPrice : number) (now : Z)
            (positions : gmap string Position),
       takeProfits signal = tps ->
       denseLadder (pos_takeProfits
                      (snd (createPosition signal orderId leverage positionSize
                              actualEntryPrice now positions)))).
Proof.
  assert (Hshape : forall tps,
            parseTakeProfits matches = inr tps ->
            matches <> [] /\ Forall acceptable matches /\
            tps = sortByLevel (ofMatch <$> matches) /\
            level <$> tps = countingFrom 0 (length tps)).
  { intros tps. unfold parseTakeProfits.
    destruct (readMatches matches []) as [e|read] eqn:Er; [discriminate|].
    apply readMatches_inr in Er as [-> Hf]. cbn [app].
    destruct matches as [|m rest]; [discriminate|].
    cbn [fmap list_fmap]. cbv zeta.
    destruct (firstGap 0 _) as [[l p]|] eqn:Eg; [discriminate|].
    intros [= <-]. split; [discriminate|]. split; [exact Hf|]. split; [reflexivity|].
    now apply firstGap_None. }
  split.
  - split.
    + intros [tps Hrun]. destruct (Hshape tps Hrun) as (Hne & Hf & -> & Hl).
      split; [exact Hne|]. split; [exact Hf|].
      assert (Hlen : length (sortByLevel (ofMatch <$> matches)) = length matches).
      { now rewrite (sortByLevel_perm _), length_fmap. }
      rewrite Hlen in Hl. rewrite <- Hl, (sortByLevel_perm _), <- list_fmap_compose.
      reflexivity.
    + intros (Hne & Hf & Hp). unfold parseTakeProfits.
      rewrite (readMatches_acceptable matches [] Hf). cbn [app].
      destruct matches as [|m rest]; [contradiction|].
      cbn [fmap list_fmap]. cbv zeta.
      set (tps := ofMatch m :: (ofMatch <$> rest)) in *.
      assert (Hg : firstGap 0 (sortByLevel tps) = None).
      { apply firstGap_None.
        apply ascending_unique;
          [apply sortByLevel_ascending|apply countingFrom_ascending|].
        rewrite (sortByLevel_perm tps).
        assert (Hlen : length tps = length (m :: rest)).
        { unfold tps. cbn [length]. now rewrite length_fmap. }
        rewrite Hlen, <- Hp. unfold tps.
        change (ofMatch m :: (ofMatch <$> rest)) with (ofMatch <$> (m :: rest)).
        now rewrite <- list_fmap_compose. }
      rewrite Hg. eexists. reflexivity.
  - intros tps Hrun. destruct (Hshape tps Hrun) as (_ & _ & Hs & Hl).
    split; [exact Hs|]. split; [rewrite Hs; apply sortByLevel_perm|].
    assert (Hdense : forall (i : nat) (tp : TakeProfitLevel),
              tps !! i = Some tp -> level tp = (Z.of_nat i + 1)%Z)
      by now apply countingFrom_lookup.
    split; [exact Hdense|].
    intros signal orderId leverage positionSize actualEntryPrice now positions Htps.
    cbn [createPosition snd pos_takeProfits]. rewrite Htps.
    intros i tracked Hi. rewrite list_lookup_fmap in Hi.
    destruct (tps !! i) as [tp|] eqn:Ei; [|discriminate].
    cbn in Hi. injection Hi as <-. cbn. exact (Hdense i tp Ei).
Qed.

(** The matches 2 - 104, 1 - 102, 3 - 106 are accepted and sorted; without
    the level 2 the ladder is refused at its second position. *)
Lemma parseTakeProfits_accepts_witness :
  parseTakeProfits [(2%Z, JsNumber.ofZ 104); (1%Z, JsNumber.ofZ 102); (3%Z, JsNumber.ofZ 106)]
  = inr [ {| level := 1; price := JsNumber.ofZ 102 |};
          {| level := 2; price := JsNumber.ofZ 104 |};
          {| level := 3; price := JsNumber.ofZ 106 |} ] /\
  parseTakeProfits [(1%Z, JsNumber.ofZ 102); (3%Z, JsNumber.ofZ 106)]
  = inl (NotSequential 3 2) /\
  denseLadder (pos_takeProfits trailingPosition).
Proof.
  split; [reflexivity|]. split; [reflexivity|].
  destruct (parseTakeProfits_accepts
              [(2%Z, JsNumber.ofZ 104); (1%Z, JsNumber.ofZ 102); (3%Z, JsNumber.ofZ 106)])
    as [_ Hladder].
  destruct (Hladder _ eq_refl) as (_ & _ & _ & Hdense).
  exact (Hdense trailingSignal (Some "order-1"%string) (JsNumber.ofZ 20) (JsNumber.ofZ 10)
           (JsNumber.ofZ 100) 1700000000000%Z ∅ eq_refl).
Defined.

(** X14: a signal [validateSignal] finds valid has a pair of capital
    letters, a slash and capital letters, so that the symbol sent to the
    exchange is the pair without its slash and converting it once more
    changes nothing; and when its ladder holds no NaN, every level of
    the ladder is further the way of the trade than the levels before
    it, so that the level the take-profit order is placed at, the last
    one, is the furthest. *)
Theorem validateSignal_valid (signal : ParsedSignal) :
  validateSignal signal = Valid ->
  (exists base quote,
     pair signal = (base +:+ String (Ascii.ascii_of_nat 47) quote)%string /\
     allUpper base = true /\ allUpper quote = true /\
     convertSymbolToBybit (pair signal) = (base +:+ quote)%string /\
     convertSymbolToBybit (convertSymbolToBybit (pair signal))
     = convertSymbolToBybit (pair signal)) /\
  (Forall (fun tp => JsNumber.isNaN (price tp) = false) (takeProfits signal) ->
   (forall (i j : nat) (tp next : TakeProfitLevel),
      takeProfits signal !! i = Some tp -> takeProfits signal !! j = Some next ->
      (i < j)%nat -> further (direction signal) (price tp) (price next)) /\
   (forall (highestTP tp : TakeProfitLevel),
      last (takeProfits signal) = Some highestTP -> tp ∈ takeProfits signal ->
      tp = highestTP \/ further (direction signal) (price tp) (price highestTP))).
Proof.
  unfold validateSignal, signalErrors. intros Hvalid.
  destruct (_ ++ _) as [|? ?] eqn:E in Hvalid; [|discriminate].
  apply app_nil_iff in E as [Hpair E]. apply app_nil_iff in E as [_ E].
  apply app_nil_iff in E as [_ E]. apply app_nil_iff in E as [_ Horder].
  apply orderErrors_nil in Horder.
  split.
  - destruct (pairFormat (pair signal)) eqn:Ef; [|discriminate].
    apply pairFormat_iff in Ef as (base & quote & Hp & _ & _ & Hb & Hq).
    exists base, quote. rewrite Hp.
    split; [reflexivity|]. split; [exact Hb|]. split; [exact Hq|].
    rewrite (convertSymbolToBybit_app base quote Hb).
    split; [reflexivity|]. apply convertSymbolToBybit_upper.
    now rewrite allUpper_app, Hb, Hq.
  - intros Hnan.
    pose proof (ordered_pairwise (direction signal) (takeProfits signal) Horder Hnan) as Hpw.
    split; [exact Hpw|].
    intros highestTP tp Hlast Hin.
    apply list_elem_of_lookup in Hin as [i Hi].
    rewrite last_lookup in Hlast.
    destruct (decide (i = Nat.pred (length (takeProfits signal)))) as [->|Hne].
    + left. congruence.
    + right. apply (Hpw i _ tp highestTP Hi Hlast).
      apply lookup_lt_Some in Hi. lia.
Qed.

(** The signal of the worked example: XRP/USDT is sent as XRPUSDT, and
    the take-profit order goes to 0.320, the price of the second level. *)
Lemma validateSignal_valid_witness :
  validateSignal ladderLong = Valid /\
  convertSymbolToBybit (pair ladderLong) = "XRPUSDT"%string /\
  forall (highestTP tp : TakeProfitLevel),
    last (takeProfits ladderLong) = Some highestTP -> tp ∈ takeProfits ladderLong ->
    tp = highestTP \/ further LONG (price tp) (price highestTP).
Proof.
  split; [reflexivity|]. split; [reflexivity|].
  destruct (validateSignal_valid ladderLong eq_refl) as [_ Hladder].
  apply Hladder. repeat constructor.
Defined.

End ParserExtras.

(** * More about the sizing *)

Section SizingExtras.
Import Binary64 FloatFacts Binary64Facts.

Local Open Scope float_scope.

(* A decimal literal of binary64 stands for the float next to it. *)
Local Set Warnings "-inexact-float".

(** X15: whatever its inputs are, valid or not, [calculatePositionSize]
    returns a leverage that is NaN or one of the integers 1 to 20; when
    the leverage is NaN the size is NaN as well; and a NaN for the
    portfolio value, the risk percentage, the entry price or the
    stop-loss gives NaN for both. *)
Theorem calculatePositionSize_leverage_range
    (entryZone : option float)
    (stopLoss portfolioValue portfolioPercentage currentPrice : float) :
  let result :=
    calculatePositionSize entryZone stopLoss portfolioValue portfolioPercentage currentPrice in
  (is_nan (snd result) = true \/
   exists k : Z, (1 <= k <= 20)%Z /\ snd result = ofZ k) /\
  (is_nan (snd result) = true -> is_nan (fst result) = true) /\
  (is_nan portfolioValue = true \/ is_nan portfolioPercentage = true \/
   is_nan (entryPrice entryZone currentPrice) = true \/ is_nan stopLoss = true ->
   result = (nan, nan)).
Proof.
  cbv zeta. split; [apply leverage_range|]. split.
  - intros H. now rewrite leverage_nan_size_nan.
  - apply nan_input.
Qed.

(** A SHORT signal sized for a portfolio that is negative, and a market
    entry whose price could not be read. *)
Lemma calculatePositionSize_leverage_range_witness :
  calculatePositionSize (Some 100) 105 (-1000) 1 0 = (-8, 1) /\
  calculatePositionSize None 99 1000 1 nan = (nan, nan).
Proof.
  destruct (calculatePositionSize_leverage_range None 99 1000 1 nan) as (_ & _ & H).
  split; [reflexivity|]. apply H. right; right; left. reflexivity.
Defined.

End SizingExtras.

(** * More about the request queue *)

Module QueueFacts.
Import Client Dispatcher DispatcherFacts.

Local Open Scope list_scope.
Local Open Scope stdpp_scope.
Local Open Scope Z_scope.

Section Queue.

Context {T : Type}.
Variable run : OpId -> Completion T.

Local Abbreviation State := (@State T).
Local Abbreviation Inv := (Inv run).
Local Abbreviation step := (step run).
Local Abbreviation reachable := (reachable run).

(** The timeout of a drain that sleeps expires the minimum interval
    after the last start. *)
Lemma step_wake (s s1 : State) (ev : Event) :
  Inv s ->
  (forall wake, Sleeping wake ∈ drains s ->
                wake = lastRequestTime s + MIN_REQUEST_INTERVAL) ->
  step s ev = Some s1 ->
  forall wake, Sleeping wake ∈ drains s1 ->
               wake = lastRequestTime s1 + MIN_REQUEST_INTERVAL.
Proof.
  intros HI Hw Hstep.
  destruct (inv_shape run s HI) as [(Hd & Hf & Hq)|(d & Hd & Hf)];
    destruct s as [q flag lst clk ds n disp del]; cbn in *; subst;
    destruct ev as [|dt|i|i]; cbn in Hstep.
  - injection Hstep as <-. unfold withRateLimit, processRequestQueue. cbn.
    unfold loopTurn. cbn.
    destruct (clk - lst <? MIN_REQUEST_INTERVAL) eqn:E; cbn.
    + intros wake Hin%list_elem_of_singleton. injection Hin as ->. lia.
    + intros wake Hin%list_elem_of_singleton. discriminate.
  - destruct (0 <=? dt); [|discriminate]. injection Hstep as <-. exact Hw.
  - discriminate.
  - discriminate.
  - injection Hstep as <-. unfold withRateLimit, processRequestQueue. cbn. exact Hw.
  - destruct (0 <=? dt); [|discriminate]. injection Hstep as <-. exact Hw.
  - destruct i as [|i]; [|discriminate]. cbn in Hstep.
    destruct d as [wake0|op]; [|discriminate].
    destruct (wake0 <=? clk); [|discriminate]. injection Hstep as <-.
    unfold shiftAndStart. cbn. destruct q as [|next rest]; cbn.
    + intros wake Hin. now apply elem_of_nil in Hin.
    + intros wake Hin%list_elem_of_singleton. discriminate.
  - destruct i as [|i]; [|discriminate]. cbn in Hstep.
    destruct d as [wake0|op]; [discriminate|].
    assert (Hs1 : s1 = resume 0 (loopTurn (settle
                     {| requestQueue := q; isProcessingQueue := true;
                        lastRequestTime := lst; clock := clk; drains := [Awaiting op];
                        calls := n; dispatched := disp; delivered := del |}
                     op (run op)))).
    { destruct (run op); now injection Hstep as <-. }
    subst s1. unfold loopTurn, settle. cbn.
    destruct q as [|next rest]; cbn.
    + intros wake Hin. now apply elem_of_nil in Hin.
    + destruct (clk - lst <? MIN_REQUEST_INTERVAL) eqn:E; cbn.
      * intros wake Hin%list_elem_of_singleton. injection Hin as ->. lia.
      * intros wake Hin%list_elem_of_singleton. discriminate.
Qed.

Lemma reachable_wake (s : State) :
  reachable s ->
  forall wake, Sleeping wake ∈ drains s ->
               wake = lastRequestTime s + MIN_REQUEST_INTERVAL.
Proof.
  induction 1 as [now|s s1 ev Hr IH Hstep].
  - intros wake Hin. now apply elem_of_nil in Hin.
  - exact (step_wake s s1 ev (reachable_inv run s Hr) IH Hstep).
Qed.

Lemma prefix_of_seq (l k : list nat) (n : nat) :
  l ++ k = seq 0 n -> l = seq 0 (length l).
Proof.
  intros H.
  assert (Hl : l = take (length l) (seq 0 n)) by (rewrite <- H; now rewrite take_app_length).
  rewrite Hl at 1. rewrite take_seq. f_equal.
  assert (length l + length k = n)%nat.
  { rewrite <- length_app, H. apply length_seq. }
  lia.
Qed.

End Queue.
End QueueFacts.

Section DispatcherExtras.
Import Client Dispatcher DispatcherFacts QueueFacts Scenarios.

Local Open Scope list_scope.
Local Open Scope stdpp_scope.
Local Open Scope Z_scope.

(** X16: the queue runs the operations one at a time and settles the
    callers in the order of their calls: in every state the client can be
    in, the promises settled are those of the first calls, the operations
    started are those of the first calls, and at most one operation was
    started and is not settled yet, the one the drain awaits; with no
    drain suspended every operation started is settled. *)
Theorem dispatcher_one_in_flight
    {T : Type} (run : OpId -> Completion T) (s : State) :
  reachable run s ->
  (delivered s).*1 = seq 0 (length (delivered s)) /\
  (dispatched s).*1 = seq 0 (length (dispatched s)) /\
  (length (delivered s) <= length (dispatched s) <= length (delivered s) + 1)%nat /\
  (forall op, drains s = [Awaiting op] ->
              (dispatched s).*1 = (delivered s).*1 ++ [op]) /\
  ((forall op, drains s <> [Awaiting op]) ->
   length (delivered s) = length (dispatched s)).
Proof.
  intros Hr. pose proof (reachable_inv run s Hr) as HI.
  pose proof (inv_delivered run s HI) as Hdel.
  pose proof (inv_fifo run s HI) as Hfifo.
  pose proof (inv_single run s HI) as Hsingle.
  assert (Hdisp : (dispatched s).*1 = seq 0 (length (dispatched s))).
  { rewrite <- (length_fmap fst (dispatched s)). exact (prefix_of_seq _ _ _ Hfifo). }
  assert (Hlen : (length (delivered s) + length (awaited (drains s))
                  = length (dispatched s))%nat).
  { rewrite <- (length_fmap fst (delivered s)), <- length_app, Hdel.
    apply length_fmap. }
  assert (Haw : (length (awaited (drains s)) <= 1)%nat).
  { destruct (drains s) as [|[w|op] [|d ds]]; cbn in *; lia. }
  split; [|split; [exact Hdisp|split; [lia|split]]].
  - rewrite <- (length_fmap fst (delivered s)).
    apply (prefix_of_seq _ (awaited (drains s)) (length (dispatched s))).
    exact (eq_trans Hdel Hdisp).
  - intros op Hd. rewrite Hd in Hdel. cbn in Hdel. now rewrite Hdel.
  - intros Hno.
    destruct (drains s) as [|[w|op] [|d ds]] eqn:Ed; cbn in *; try lia.
    exfalso. now apply (Hno op).
Qed.

(** The burst of three calls, after the first operation failed and the
    second was started: one promise is settled, two operations were
    started. *)
Lemma dispatcher_one_in_flight_witness :
  (delivered burstState).*1 = [0%nat] /\
  (dispatched burstState).*1 = [0%nat; 1%nat] /\
  drains burstState = [Awaiting 1%nat] /\
  (length (delivered burstState) <= length (dispatched burstState)
   <= length (delivered burstState) + 1)%nat.
Proof.
  destruct (dispatcher_one_in_flight flakyRun burstState
              (steps_reachable flakyRun burstEvents (initial 1000) burstState
                 (reachable_initial flakyRun 1000) eq_refl))
    as (_ & _ & Hlen & _).
  split; [reflexivity|]. split; [reflexivity|]. split; [reflexivity|exact Hlen].
Defined.

(** X17: the queue waits no longer than the minimum interval asks for: a
    drain that sleeps has set its timeout to expire exactly 100 ms after
    the last start, and a call made while no drain is suspended starts
    its operation at once when 100 ms have passed since the last start,
    and puts its drain to sleep until then when they have not. *)
Theorem dispatcher_waits_exactly
    {T : Type} (run : OpId -> Completion T) (s : State) :
  reachable run s ->
  (forall wake, Sleeping wake ∈ drains s -> wake = lastRequestTime s + 100) /\
  (drains s = [] ->
   if clock s - lastRequestTime s <? 100
   then drains (withRateLimit s) = [Sleeping (lastRequestTime s + 100)] /\
        requestQueue (withRateLimit s) = [calls s] /\
        dispatched (withRateLimit s) = dispatched s
   else drains (withRateLimit s) = [Awaiting (calls s)] /\
        requestQueue (withRateLimit s) = [] /\
        dispatched (withRateLimit s) = dispatched s ++ [(calls s, clock s)]).
Proof.
  intros Hr. split; [exact (reachable_wake run s Hr)|].
  intros Hd. pose proof (reachable_inv run s Hr) as HI.
  destruct (inv_shape run s HI) as [(_ & Hf & Hq)|(d & Hd1 & _)]; [|congruence].
  destruct s as [q flag lst clk ds n disp del]; cbn in *; subst.
  unfold withRateLimit, processRequestQueue. cbn. unfold loopTurn. cbn.
  change MIN_REQUEST_INTERVAL with 100.
  destruct (clk - lst <? 100) eqn:E; cbn.
  - split; [|split; reflexivity]. do 2 f_equal. lia.
  - split; [reflexivity|]. split; reflexivity.
Qed.

(** In the burst at time 1000 the first call found the client idle and
    was started at 1000; the drain then slept until 1100. *)
Lemma dispatcher_waits_exactly_witness :
  dispatched (withRateLimit (T := Payload) (initial 1000)) = [(0%nat, 1000)] /\
  (default (initial 1000)
     (steps flakyRun (initial 1000) [Call; Call; Settles 0])).(drains)
  = [Sleeping 1100].
Proof.
  split; [reflexivity|].
  destruct (dispatcher_waits_exactly flakyRun
              (default (initial 1000)
                 (steps flakyRun (initial 1000) [Call; Call; Settles 0]))
              (steps_reachable flakyRun [Call; Call; Settles 0] (initial 1000) _
                 (reachable_initial flakyRun 1000) eq_refl))
    as [Hwake _].
  rewrite (Hwake 1100); [reflexivity|]. now left.
Defined.

End DispatcherExtras.

Module RateFacts.
Import Client Dispatcher DispatcherFacts Rate.

Local Open Scope list_scope.
Local Open Scope stdpp_scope.
Local Open Scope Z_scope.

(** In a spaced log every entry after the first is started at least the
    minimum interval after it. *)
Lemma spaced_later (op : OpId) (t : Z) (rest : list (OpId * Z)) :
  spaced ((op, t) :: rest) ->
  spaced rest /\ Forall (fun entry => t + MIN_REQUEST_INTERVAL <= snd entry) rest.
Proof.
  revert op t. induction rest as [|[op1 t1] rest IH]; intros op t Hs.
  - split; [exact I|constructor].
  - cbn in Hs. destruct Hs as [Hle Hs]. split; [exact Hs|].
    constructor; [exact Hle|].
    destruct (IH op1 t1 Hs) as [_ Hall].
    eapply Forall_impl; [exact Hall|]. intros [op2 t2] H. cbn in *.
    unfold MIN_REQUEST_INTERVAL in *. lia.
Qed.

Lemma filter_window_le (log : list (OpId * Z)) (from1 width1 from2 width2 : Z) :
  Forall (fun entry =>
            from1 <= snd entry < from1 + width1 -> from2 <= snd entry < from2 + width2) log ->
  (startedWithin log from1 width1 <= startedWithin log from2 width2)%nat.
Proof.
  unfold startedWithin. induction 1 as [|[op t] rest Hhead _ IH]; [cbn; lia|].
  cbn [List.filter snd] in *.
  destruct ((from1 <=? t) && (t <? from1 + width1)) eqn:E1.
  - apply andb_true_iff in E1 as [Ha Hb]. apply Z.leb_le in Ha. apply Z.ltb_lt in Hb.
    destruct (Hhead ltac:(lia)) as [Hc Hd].
    apply Z.leb_le in Hc. apply Z.ltb_lt in Hd. rewrite Hc, Hd. cbn. lia.
  - destruct ((from2 <=? t) && (t <? from2 + width2)); cbn; lia.
Qed.

Lemma spaced_rate (log : list (OpId * Z)) (from : Z) (n : nat) :
  spaced log ->
  (startedWithin log from (MIN_REQUEST_INTERVAL * Z.of_nat n) <= n)%nat.
Proof.
  revert from n. induction log as [|[op t] rest IH]; intros from n Hs; [cbn; lia|].
  destruct (spaced_later op t rest Hs) as [Hrest Hlater].
  unfold startedWithin. cbn [List.filter snd].
  destruct ((from <=? t) && (t <? from + MIN_REQUEST_INTERVAL * Z.of_nat n)) eqn:E.
  - apply andb_true_iff in E as [Ha Hb]. apply Z.leb_le in Ha. apply Z.ltb_lt in Hb.
    destruct n as [|n]; [lia|].
    cbn [length].
    assert (Hle : (startedWithin rest from (MIN_REQUEST_INTERVAL * Z.of_nat (S n))
                   <= startedWithin rest (t + MIN_REQUEST_INTERVAL)
                        (MIN_REQUEST_INTERVAL * Z.of_nat n))%nat).
    { apply filter_window_le. eapply Forall_impl; [exact Hlater|].
      intros [op1 t1] H1 Hw. cbn in *. unfold MIN_REQUEST_INTERVAL in *. lia. }
    pose proof (IH (t + MIN_REQUEST_INTERVAL) n Hrest) as Hn.
    unfold startedWithin in *. lia.
  - exact (IH from n Hrest).
Qed.

End RateFacts.

Section RateExtras.
Import Client Dispatcher DispatcherFacts Rate RateFacts Scenarios.

Local Open Scope list_scope.
Local Open Scope stdpp_scope.
Local Open Scope Z_scope.

(** X20: the queue keeps the rate it is there for: in every state the
    client can be in, at most [n] operations were started within any
    window of [100 * n] milliseconds, so at most 10 within any second. *)
Theorem dispatcher_rate_limit
    {T : Type} (run : OpId -> Completion T) (s : State) :
  reachable run s ->
  (forall (from : Z) (n : nat),
     (startedWithin (dispatched s) from (100 * Z.of_nat n) <= n)%nat) /\
  (forall from : Z, (startedWithin (dispatched s) from 1000 <= 10)%nat).
Proof.
  intros Hr. pose proof (inv_spaced run s (reachable_inv run s Hr)) as Hs.
  split.
  - intros from n. exact (spaced_rate (dispatched s) from n Hs).
  - intros from. exact (spaced_rate (dispatched s) from 10 Hs).
Qed.

(** The burst of three calls at time 1000: two operations were started by
    1100, 100 ms apart. *)
Lemma dispatcher_rate_limit_witness :
  startedWithin (dispatched burstState) 1000 100 = 1%nat /\
  startedWithin (dispatched burstState) 1000 200 = 2%nat /\
  (startedWithin (dispatched burstState) 1000 1000 <= 10)%nat.
Proof.
  split; [reflexivity|]. split; [reflexivity|].
  destruct (dispatcher_rate_limit flakyRun burstState
              (steps_reachable flakyRun burstEvents (initial 1000) burstState
                 (reachable_initial flakyRun 1000) eq_refl)) as [_ Hsecond].
  exact (Hsecond 1000).
Defined.

End RateExtras.

(** * Poll updates that overlap *)

Module OverlapFacts.
Import Client ClientFacts Manager ManagerFacts Overlap.

Local Open Scope list_scope.
Local Open Scope stdpp_scope.



Section Runs.

Variable ex : Exchange.











End Runs.
End OverlapFacts.

Section OverlapClaims.
Import Client ClientFacts Manager ManagerFacts Overlap OverlapFacts Scenarios
       OverlapScenarios.

Local Open Scope list_scope.
Local Open Scope stdpp_scope.




End OverlapClaims.
